(** * FF3 / FF3-1 format-preserving encryption: the Feistel engine of
      [lib/FF3Cipher.js], embedded in Rocq.

    The file has three layers.
    - [JS]: the parts of the JavaScript platform the source calls
      ([parseInt], [BigInt] arithmetic and [toString], [Buffer.from(_, 'hex')],
      typed-array stores, [Math.log]/[Math.ceil]/[Math.floor] on doubles).
    - [AES]: the block cipher behind [crypto.createCipheriv("aes-*-ecb")],
      after FIPS-197; it is only used to run the engine on concrete inputs.
      Every general statement is over an arbitrary block oracle.
    - [FF3]: the source file itself, function by function. *)

From Stdlib Require Import String.
From Stdlib Require Import ZArith List Ascii Bool Lia.
From Stdlib Require Import Floats.SpecFloat.
Import ListNotations.
Open Scope Z_scope.

(** ** Thrown values *)

(** The source throws plain strings; the platform throws exception objects.
    One constructor per throw site or platform exception kind. *)
Inductive error : Type :=
| InvalidKeyLength (keyLen : Z)
    (* "key length <keyLen> but must be 128, 192, or 256 bits" *)
| InvalidRadix
    (* "radix must be between 2 and 36, inclusive" *)
| InvalidDomainBounds
    (* "minLen or maxLen invalid, adjust your radix" *)
| InvalidMessageLength (n minLen maxLen : Z)
    (* "message length <n> is not within min <minLen> and max <maxLen> bounds" *)
| InvalidTweakLength (len : Z)
    (* "tweak length <len> is invalid: tweak must be 56 or 64 bits" *)
| NotWithinRadix (radix : Z)
    (* "string A is not within base/radix <radix>" (the catch blocks of the rounds) *)
| RangeError
    (* platform: BigInt(NaN), BigInt % 0n, TypedArray.set out of bounds, toString radix *)
| SyntaxError.
    (* platform: BigInt("0x") *)

Inductive result (A : Type) : Type :=
| OK (a : A)
| Throw (e : error).
Arguments OK {A} a.
Arguments Throw {A} e.

Definition rbind {A B : Type} (r : result A) (k : A -> result B) : result B :=
  match r with
  | OK a => k a
  | Throw e => Throw e
  end.

(** [try { r } catch (ex) { throw e }] *)
Definition try_catch {A : Type} (r : result A) (e : error) : result A :=
  match r with
  | OK a => OK a
  | Throw _ => Throw e
  end.

Declare Scope result_scope.
Delimit Scope result_scope with result.
Notation "x <-- r ;; k" := (rbind r (fun x => k))
  (at level 61, r at next level, right associativity) : result_scope.

(** ** The JavaScript platform *)

Module JS.

(** A string is its sequence of code units; only code units below 256 occur
    in the digit alphabets and hexadecimal strings of this program. *)
Definition jsstring : Type := list ascii.

Definition str (s : string) : jsstring := list_ascii_of_string s.

Definition code (c : ascii) : Z := Z.of_N (N_of_ascii c).

Definition chr (n : Z) : ascii := ascii_of_N (Z.to_N n).

Definition strlen (s : jsstring) : Z := Z.of_nat (length s).

(** [s.substring(a, b)] and [s.slice(a, b)] for [0 <= a]; arguments are
    clamped to the string, as both methods do ([substring] also treats a
    negative end as 0, which [Z.to_nat] gives). *)
Definition substring (s : jsstring) (a b : Z) : jsstring :=
  firstn (Z.to_nat b - Z.to_nat a) (skipn (Z.to_nat a) s).

Definition substring_from (s : jsstring) (a : Z) : jsstring :=
  skipn (Z.to_nat a) s.

(** *** Digits *)

(** The value of an alphanumeric digit, upper or lower case, as [parseInt]
    reads it. *)
Definition digit_value (c : ascii) : option Z :=
  let n := code c in
  if (48 <=? n) && (n <=? 57) then Some (n - 48)
  else if (97 <=? n) && (n <=? 122) then Some (n - 87)
  else if (65 <=? n) && (n <=? 90) then Some (n - 55)
  else None.

(** The digit symbol [toString] writes: "0".."9", "a".."z". *)
Definition digit_char (d : Z) : ascii :=
  if d <? 10 then chr (48 + d) else chr (87 + d).

Definition is_whitespace (c : ascii) : bool :=
  let n := code c in
  ((9 <=? n) && (n <=? 13)) || (n =? 32) || (n =? 160).

Fixpoint trim_start (s : jsstring) : jsstring :=
  match s with
  | c :: s' => if is_whitespace c then trim_start s' else s
  | [] => []
  end.

(** Horner evaluation of the longest prefix of radix-[R] digits; [seen]
    records whether at least one digit was read. *)
Fixpoint parse_digits (R : Z) (s : jsstring) (acc : Z) (seen : bool)
  : option Z :=
  match s with
  | c :: s' =>
      match digit_value c with
      | Some d =>
          if d <? R then parse_digits R s' (acc * R + d) true
          else if seen then Some acc else None
      | None => if seen then Some acc else None
      end
  | [] => if seen then Some acc else None
  end.

Definition strip_sign (s : jsstring) : bool * jsstring :=
  match s with
  | c :: s' =>
      if code c =? 45 then (true, s')
      else if code c =? 43 then (false, s')
      else (false, s)
  | [] => (false, [])
  end.

Definition strip_0x (s : jsstring) : option jsstring :=
  match s with
  | c0 :: cx :: s' =>
      if (code c0 =? 48) && ((code cx =? 120) || (code cx =? 88))
      then Some s' else None
  | _ => None
  end.

(** [ToInt32] of an integral number: its residue modulo [2^32] in
    [-2^31, 2^31). *)
Definition ToInt32 (n : Z) : Z :=
  let m := n mod 2 ^ 32 in
  if 2 ^ 31 <=? m then m - 2 ^ 32 else m.

(** [parseInt(s, radix)] for an integer [radix], which is first taken
    through [ToInt32]; [None] is NaN.  The result is exact: the source only
    parses slices of at most ten digits, and [36^10 < 2^53]. *)
Definition parseInt (s : jsstring) (radix : Z) : option Z :=
  let '(neg, s1) := strip_sign (trim_start s) in
  let sgn := fun (v : Z) => if neg then - v else v in
  let R := ToInt32 radix in
  if R =? 0 then
    match strip_0x s1 with
    | Some s2 => option_map sgn (parse_digits 16 s2 0 false)
    | None => option_map sgn (parse_digits 10 s1 0 false)
    end
  else if (R <? 2) || (36 <? R) then None
  else if R =? 16 then
    match strip_0x s1 with
    | Some s2 => option_map sgn (parse_digits 16 s2 0 false)
    | None => option_map sgn (parse_digits 16 s1 0 false)
    end
  else option_map sgn (parse_digits R s1 0 false).

(** [BigInt(x)] for a number [x]: NaN throws a RangeError. *)
Definition BigInt_of_number (x : option Z) : result Z :=
  match x with
  | Some v => OK v
  | None => Throw RangeError
  end.

(** *** BigInt *)

(** [a % b] on BigInts truncates towards zero; [b = 0n] throws. *)
Definition BigInt_rem (a b : Z) : result Z :=
  if b =? 0 then Throw RangeError else OK (Z.rem a b).

(** Digits of a nonnegative integer, least significant first. *)
Fixpoint digits_le (fuel : nat) (radix c : Z) : list Z :=
  match fuel with
  | O => []
  | S fuel' =>
      if c <? radix then [c]
      else (c mod radix) :: digits_le fuel' radix (c / radix)
  end.

Definition digits_fuel (c : Z) : nat := S (Z.to_nat (Z.log2 c)).

(** The numeral of an integer in a radix: no leading zeros, "0" for zero,
    a leading "-" for negatives, lowercase digits. *)
Definition numeral (c radix : Z) : jsstring :=
  let ds := map digit_char
              (rev (digits_le (digits_fuel (Z.abs c)) radix (Z.abs c))) in
  if c <? 0 then chr 45 :: ds else ds.

(** [c.toString(radix)] on a BigInt; a radix outside 2..36 throws. *)
Definition BigInt_toString (c radix : Z) : result jsstring :=
  if (radix <? 2) || (36 <? radix) then Throw RangeError
  else OK (numeral c radix).

(** Big-endian value of a byte sequence. *)
Definition be_value (bs : list Z) : Z :=
  fold_left (fun acc b => acc * 256 + b) bs 0.

(** [BigInt('0x' + buf.toString('hex'))]: two hex digits per byte, then
    parsed as a hexadecimal literal; "0x" alone is a SyntaxError. *)
Definition BigInt_of_hex_of_bytes (bs : list Z) : result Z :=
  match bs with
  | [] => Throw SyntaxError
  | _ => OK (be_value bs)
  end.

(** *** Buffers and typed arrays *)

(** A store into a [Uint8Array] or [Buffer] keeps the low eight bits. *)
Definition u8 (x : Z) : Z := x mod 256.

(** [buf[i]] read into an integer context: a missing element is
    [undefined], which [&], [^] and a typed-array store all turn into 0. *)
Definition byte_at (buf : list Z) (i : nat) : Z := nth i buf 0.

Definition hex_value (c : ascii) : option Z :=
  match digit_value c with
  | Some d => if d <? 16 then Some d else None
  | None => None
  end.

(** [Buffer.from(s, 'hex')]: decodes pairs of hex digits and stops at the
    first pair that is not two hex digits; a trailing single digit is
    dropped. *)
Fixpoint Buffer_from_hex (s : jsstring) : list Z :=
  match s with
  | a :: b :: s' =>
      match hex_value a, hex_value b with
      | Some x, Some y => (16 * x + y) :: Buffer_from_hex s'
      | _, _ => []
      end
  | _ => []
  end.

(** [buf.slice(a, b)] for [0 <= a <= b]. *)
Definition slice (buf : list Z) (a b : Z) : list Z :=
  firstn (Z.to_nat b - Z.to_nat a) (skipn (Z.to_nat a) buf).

(** [target.set(src, offset)] on a typed array: a RangeError when the
    source does not fit. *)
Definition typed_array_set (target src : list Z) (offset : Z)
  : result (list Z) :=
  if (offset <? 0) || (Z.of_nat (length target) <? offset + Z.of_nat (length src))
  then Throw RangeError
  else OK (firstn (Z.to_nat offset) target ++ src
           ++ skipn (Z.to_nat offset + length src) target).

(** *** Doubles *)

(** IEEE-754 binary64, on the integer model of [SpecFloat]. *)
Definition double : Type := spec_float.

Definition fadd : double -> double -> double := SFadd 53 1024.
Definition fsub : double -> double -> double := SFsub 53 1024.
Definition fmul : double -> double -> double := SFmul 53 1024.
Definition fdiv : double -> double -> double := SFdiv 53 1024.
Definition flt : double -> double -> bool := SFltb.
Definition feq : double -> double -> bool := SFeqb.

(** The double nearest to an integer (exact below [2^53]). *)
Definition double_of_Z (n : Z) : double := binary_normalize 53 1024 n 0 false.

(** The 64-bit pattern of a double and back. *)
Definition bits_of_double (x : double) : Z :=
  match x with
  | S754_zero s => if s then 2 ^ 63 else 0
  | S754_infinity s => (if s then 2 ^ 63 else 0) + 2047 * 2 ^ 52
  | S754_nan => 2047 * 2 ^ 52 + 2 ^ 51
  | S754_finite s m e =>
      (if s then 2 ^ 63 else 0)
      + (if Z.pos m <? 2 ^ 52 then Z.pos m
         else (e + 1075) * 2 ^ 52 + (Z.pos m - 2 ^ 52))
  end.

Definition double_of_bits (b : Z) : double :=
  let s := Z.testbit b 63 in
  let E := Z.land (Z.shiftr b 52) 2047 in
  let frac := Z.land b (2 ^ 52 - 1) in
  if E =? 0 then
    match frac with
    | Z.pos m => S754_finite s m (-1074)
    | _ => S754_zero s
    end
  else if E =? 2047 then
    (if frac =? 0 then S754_infinity s else S754_nan)
  else
    match frac + 2 ^ 52 with
    | Z.pos m => S754_finite s m (E - 1075)
    | _ => S754_nan
    end.

(** [Math.ceil] and [Math.floor]. *)
Definition Math_ceil (x : double) : double :=
  match x with
  | S754_finite s m e =>
      if 0 <=? e then x
      else
        let q := Z.pos m / 2 ^ (- e) in
        let exact := Z.pos m mod 2 ^ (- e) =? 0 in
        if s then (if q =? 0 then S754_zero true else double_of_Z (- q))
        else double_of_Z (if exact then q else q + 1)
  | _ => x
  end.

Definition Math_floor (x : double) : double :=
  match x with
  | S754_finite s m e =>
      if 0 <=? e then x
      else
        let q := Z.pos m / 2 ^ (- e) in
        let exact := Z.pos m mod 2 ^ (- e) =? 0 in
        if s then double_of_Z (- (if exact then q else q + 1))
        else (if q =? 0 then S754_zero false else double_of_Z q)
  | _ => x
  end.

(** The integer a double holds, when it holds one. *)
Definition integer_of_double (x : double) : option Z :=
  match x with
  | S754_zero _ => Some 0
  | S754_finite s m e =>
      if 0 <=? e then Some ((if s then -1 else 1) * Z.pos m * 2 ^ e)
      else if Z.pos m mod 2 ^ (- e) =? 0
           then Some ((if s then -1 else 1) * (Z.pos m / 2 ^ (- e)))
           else None
  | _ => None
  end.

(** A length held in a double, read as an integer.  The two lengths of a
    cipher object come out of [Math_ceil] and [Math_floor] and are finite
    whenever construction gets past the radix guard, so the default is
    never observed. *)
Definition length_of_double (x : double) : Z :=
  match integer_of_double x with
  | Some n => n
  | None => 0
  end.

(** [Math.log] as V8 (the engine of Node.js) computes it: the fdlibm
    algorithm [__ieee754_log], every operation rounded to binary64.
    [hx] is the high word as a signed 32-bit integer, [lx] the low word. *)
Definition high_word (x : double) : Z :=
  let h := Z.shiftr (bits_of_double x) 32 in
  if 2 ^ 31 <=? h then h - 2 ^ 32 else h.

Definition low_word (x : double) : Z := Z.land (bits_of_double x) (2 ^ 32 - 1).

Definition set_high_word (x : double) (h : Z) : double :=
  double_of_bits (Z.shiftl (Z.land h (2 ^ 32 - 1)) 32 + low_word x).

Definition ln2_hi : double := double_of_bits 0x3fe62e42fee00000.
Definition ln2_lo : double := double_of_bits 0x3dea39ef35793c76.
Definition two54 : double := double_of_bits 0x4350000000000000.
Definition Lg1 : double := double_of_bits 0x3FE5555555555593.
Definition Lg2 : double := double_of_bits 0x3FD999999997FA04.
Definition Lg3 : double := double_of_bits 0x3FD2492494229359.
Definition Lg4 : double := double_of_bits 0x3FCC71C51D8E78AF.
Definition Lg5 : double := double_of_bits 0x3FC7466496CB03DE.
Definition Lg6 : double := double_of_bits 0x3FC39A09D078C69F.
Definition Lg7 : double := double_of_bits 0x3FC2F112DF3E5244.
Definition f_zero : double := S754_zero false.
Definition f_half : double := double_of_bits 0x3FE0000000000000.
Definition f_one : double := double_of_Z 1.
Definition f_two : double := double_of_Z 2.
Definition f_third : double := double_of_bits 0x3FD5555555555555.

Definition Math_log (x0 : double) : double :=
  let hx0 := high_word x0 in
  if (hx0 <? 0x00100000)
     && (Z.lor (Z.land hx0 0x7fffffff) (low_word x0) =? 0)
  then S754_infinity true
  else if hx0 <? 0 then S754_nan
  else
    let '(k0, x1) :=
      if hx0 <? 0x00100000 then (-54, fmul x0 two54) else (0, x0) in
    let hx1 := high_word x1 in
    if 0x7ff00000 <=? hx1 then fadd x1 x1
    else
      let k1 := k0 + (Z.shiftr hx1 20 - 1023) in
      let hx := Z.land hx1 0x000fffff in
      let i0 := Z.land (hx + 0x95f64) 0x100000 in
      let x := set_high_word x1 (Z.lor hx (Z.lxor i0 0x3ff00000)) in
      let k := k1 + Z.shiftr i0 20 in
      let f := fsub x f_one in
      let dk := double_of_Z k in
      if Z.land 0x000fffff (2 + hx) <? 3 then
        if feq f f_zero then
          if k =? 0 then f_zero
          else fadd (fmul dk ln2_hi) (fmul dk ln2_lo)
        else
          let R := fmul (fmul f f) (fsub f_half (fmul f_third f)) in
          if k =? 0 then fsub f R
          else fsub (fmul dk ln2_hi) (fsub (fsub R (fmul dk ln2_lo)) f)
      else
        let s := fdiv f (fadd f_two f) in
        let z := fmul s s in
        let i := hx - 0x6147a in
        let w := fmul z z in
        let j := 0x6b851 - hx in
        let t1 := fmul w (fadd Lg2 (fmul w (fadd Lg4 (fmul w Lg6)))) in
        let t2 := fmul z (fadd Lg1 (fmul w (fadd Lg3
                    (fmul w (fadd Lg5 (fmul w Lg7)))))) in
        let R := fadd t2 t1 in
        if 0 <? Z.lor i j then
          let hfsq := fmul (fmul f_half f) f in
          if k =? 0 then fsub f (fsub hfsq (fmul s (fadd hfsq R)))
          else fsub (fmul dk ln2_hi)
                 (fsub (fsub hfsq (fadd (fmul s (fadd hfsq R)) (fmul dk ln2_lo))) f)
        else
          if k =? 0 then fsub f (fmul s (fsub f R))
          else fsub (fmul dk ln2_hi)
                 (fsub (fsub (fmul s (fsub f R)) (fmul dk ln2_lo)) f).

End JS.

Import JS.


(** ** The block cipher: AES after FIPS-197 *)

Module AES.

Definition xtime (a : Z) : Z :=
  let b := Z.shiftl a 1 in
  if Z.testbit b 8 then Z.land (Z.lxor b 0x11b) 255 else b.

(** Multiplication in GF(2^8). *)
Fixpoint gmul_bits (bits : nat) (a b : Z) : Z :=
  match bits with
  | O => 0
  | S bits' =>
      Z.lxor (if Z.odd b then a else 0)
             (gmul_bits bits' (xtime a) (Z.shiftr b 1))
  end.

Definition gmul (a b : Z) : Z := gmul_bits 8 a b.

Fixpoint gpow (a : Z) (n : nat) : Z :=
  match n with
  | O => 1
  | S n' => gmul a (gpow a n')
  end.

Definition rotl8 (x n : Z) : Z :=
  Z.land (Z.lor (Z.shiftl x n) (Z.shiftr x (8 - n))) 255.

Definition sbox_entry (a : Z) : Z :=
  let b := gpow a 254 in
  Z.lxor (Z.lxor (Z.lxor (Z.lxor (Z.lxor b (rotl8 b 1)) (rotl8 b 2))
                         (rotl8 b 3)) (rotl8 b 4)) 0x63.

Definition SBOX : list Z := Eval vm_compute in
  map (fun n => sbox_entry (Z.of_nat n)) (seq 0 256).

Definition sub_byte (x : Z) : Z := nth (Z.to_nat x) SBOX 0.

Definition xor_bytes (a b : list Z) : list Z :=
  map (fun p => Z.lxor (fst p) (snd p)) (combine a b).

Definition rot_word (w : list Z) : list Z := skipn 1 w ++ firstn 1 w.

(** Key schedule: [w] holds the words so far, [i] is the next index. *)
Fixpoint expand (steps : nat) (Nk i : nat) (rc : Z) (w : list (list Z))
  : list (list Z) :=
  match steps with
  | O => w
  | S steps' =>
      let prev := nth (i - 1) w [] in
      let '(t, rc') :=
        if (i mod Nk =? 0)%nat then
          (xor_bytes (map sub_byte (rot_word prev)) [rc; 0; 0; 0], xtime rc)
        else if (6 <? Nk)%nat && (i mod Nk =? 4)%nat then
          (map sub_byte prev, rc)
        else (prev, rc) in
      expand steps' Nk (S i) rc' (w ++ [xor_bytes (nth (i - Nk) w []) t])
  end.

Fixpoint words (n : nat) (bs : list Z) : list (list Z) :=
  match n with
  | O => []
  | S n' => firstn 4 bs :: words n' (skipn 4 bs)
  end.

Definition key_schedule (key : list Z) : list (list Z) :=
  let Nk := (length key / 4)%nat in
  expand (4 * (Nk + 7) - Nk) Nk Nk 1 (words Nk key).

Definition add_round_key (w : list (list Z)) (r : nat) (s : list Z) : list Z :=
  xor_bytes s (concat (firstn 4 (skipn (4 * r) w))).

Definition shift_rows (s : list Z) : list Z :=
  map (fun i => nth ((i + 4 * (i mod 4)) mod 16) s 0) (seq 0 16).

Definition mix_column (a : list Z) : list Z :=
  let a0 := nth 0 a 0 in let a1 := nth 1 a 0 in
  let a2 := nth 2 a 0 in let a3 := nth 3 a 0 in
  [ Z.lxor (Z.lxor (Z.lxor (gmul a0 2) (gmul a1 3)) a2) a3;
    Z.lxor (Z.lxor (Z.lxor a0 (gmul a1 2)) (gmul a2 3)) a3;
    Z.lxor (Z.lxor (Z.lxor a0 a1) (gmul a2 2)) (gmul a3 3);
    Z.lxor (Z.lxor (Z.lxor (gmul a0 3) a1) a2) (gmul a3 2) ].

Definition mix_columns (s : list Z) : list Z :=
  concat (map mix_column (words 4 s)).

Fixpoint middle_rounds (w : list (list Z)) (r n : nat) (s : list Z) : list Z :=
  match n with
  | O => s
  | S n' =>
      middle_rounds w (S r) n'
        (add_round_key w r (mix_columns (shift_rows (map sub_byte s))))
  end.

(** One block under one key; the number of rounds follows the key size. *)
Definition encrypt_block (key block : list Z) : list Z :=
  let Nr := (length key / 4 + 6)%nat in
  let w := key_schedule key in
  let s := middle_rounds w 1 (Nr - 1) (add_round_key w 0 block) in
  add_round_key w Nr (shift_rows (map sub_byte s)).

End AES.

(** ** lib/FF3Cipher.js *)

Module FF3.

Open Scope result_scope.

Definition DOMAIN_MIN : Z := 1000000.
Definition NUM_ROUNDS : Z := 8.
Definition BLOCK_SIZE : Z := 16.
Definition TWEAK_LEN : Z := 8.
Definition TWEAK_LEN_NEW : Z := 7.
Definition HALF_TWEAK_LEN : Z := TWEAK_LEN / 2.
Definition MAX_RADIX : Z := 36.

Definition len {A : Type} (l : list A) : Z := Z.of_nat (length l).

Definition reverseString (s : jsstring) : jsstring := rev s.

(** The [while] loop of [convertToBigInt]: [rest] is what lies at and
    after index [i]; each pass pushes [value.slice(i, i += size)]. *)
Fixpoint slices (passes : nat) (size : nat) (rest : jsstring)
  : list jsstring :=
  match passes, rest with
  | S passes', _ :: _ =>
      firstn size rest :: slices passes' size (skipn size rest)
  | _, _ => []
  end.

(** The callback of [parts.reduce]:
    [(r, v) => r * factor + BigInt(parseInt(v, radix))]. *)
Definition reducer (radix factor : Z) (r : result Z) (v : jsstring)
  : result Z :=
  r' <-- r ;;
  d <-- BigInt_of_number (parseInt v radix) ;;
  OK (r' * factor + d).

Definition convertToBigInt (value : jsstring) (radix : Z) : result Z :=
  let size := 10 in
  let factor := radix ^ size in
  let i := if strlen value mod size =? 0 then size
           else strlen value mod size in
  let parts := substring value 0 i
               :: slices (length value) (Z.to_nat size)
                    (substring_from value i) in
  fold_left (reducer radix factor) parts (OK 0).

(** The filling loop of [bigToUint8Array]:
    [u8[i] = parseInt(hex.slice(j, j + 2), 16)], a NaN being stored as 0. *)
Fixpoint hex_bytes (count : nat) (hex : jsstring) : list Z :=
  match count with
  | O => []
  | S count' =>
      match parseInt (firstn 2 hex) 16 with
      | Some b => u8 b
      | None => 0
      end :: hex_bytes count' (skipn 2 hex)
  end.

Definition bigToUint8Array (big : Z) : list Z :=
  let big :=
    if big <? 0 then
      let bits := (strlen (numeral big 2) / 8 + 1) * 8 in
      let prefix := Z.shiftl 1 bits in
      big + prefix
    else big in
  let hex := numeral big 16 in
  let hex := if strlen hex mod 2 =? 0 then hex else chr 48 :: hex in
  let len := strlen hex / 2 in
  hex_bytes (Z.to_nat len) hex.

(** The cipher object of the [crypto] module.  In ECB mode without padding
    [update] answers each 16-byte block at once and keeps no chaining
    state, so the object is its algorithm and key. *)
Inductive algorithm : Type := aes_128_ecb | aes_192_ecb | aes_256_ecb.

Record Cipher : Type := createCipheriv
  { cipher_algorithm : algorithm;
    cipher_key : list Z }.

(** What [update] computes on one block, for a cipher object: the block
    permutation under the object's key.  [AES_ECB] is the real one. *)
Definition oracle : Type := Cipher -> list Z -> list Z.

Definition AES_ECB : oracle :=
  fun c block => AES.encrypt_block (cipher_key c) block.

Record FF3Cipher : Type := mkFF3Cipher
  { radix : Z;
    minLen : Z;
    maxLen : Z;
    tweakBytes : list Z;
    aesCipher : Cipher }.

(** A method run: what it returns or throws, and the blocks it passed to
    [aesCipher.update], in order. *)
Definition run (A : Type) : Type := result A * list (list Z).

Definition ret {A : Type} (a : A) : run A := (OK a, []).

Definition throw {A : Type} (e : error) : run A := (Throw e, []).

Definition lift {A : Type} (r : result A) : run A := (r, []).

Definition bind {A B : Type} (m : run A) (k : A -> run B) : run B :=
  match m with
  | (OK a, blocks) => let '(r, blocks') := k a in (r, blocks ++ blocks')
  | (Throw e, blocks) => (Throw e, blocks)
  end.

Definition update (E : oracle) (c : Cipher) (block : list Z)
  : run (list Z) :=
  (OK (E c block), [block]).

Notation "x <- m ;; k" := (bind m (fun x => k))
  (at level 61, m at next level, right associativity) : result_scope.

Definition mod_ (n m : Z) : result Z :=
  r <-- BigInt_rem n m ;;
  BigInt_rem (r + m) m.

Definition calculateP (i radix : Z) (W : list Z) (B : jsstring)
  : result (list Z) :=
  let P := [ u8 (byte_at W 0); u8 (byte_at W 1); u8 (byte_at W 2);
             u8 (Z.lxor (byte_at W 3) i) ]
           ++ repeat 0 (Z.to_nat BLOCK_SIZE - 4) in
  let B := reverseString B in
  big <-- convertToBigInt B radix ;;
  let bBytes := bigToUint8Array big in
  typed_array_set P bBytes (BLOCK_SIZE - len bBytes).

Definition calculateTweak64_FF3_1 (tweak56 : list Z) : list Z :=
  [ u8 (byte_at tweak56 0);
    u8 (byte_at tweak56 1);
    u8 (byte_at tweak56 2);
    u8 (Z.land (byte_at tweak56 3) 0xF0);
    u8 (byte_at tweak56 4);
    u8 (byte_at tweak56 5);
    u8 (byte_at tweak56 6);
    u8 (Z.shiftl (Z.land (byte_at tweak56 3) 0x0F) 4) ].

(** [Math.ceil(Math.log(DOMAIN_MIN) / Math.log(radix))] *)
Definition minLen_of_radix (radix : Z) : double :=
  Math_ceil (fdiv (Math_log (double_of_Z DOMAIN_MIN))
                  (Math_log (double_of_Z radix))).

(** [2 * Math.floor(Math.log(2**96) / Math.log(radix))] *)
Definition maxLen_of_radix (radix : Z) : double :=
  fmul f_two
       (Math_floor (fdiv (Math_log (double_of_Z (2 ^ 96)))
                         (Math_log (double_of_Z radix)))).

(** The constructor, [new FF3Cipher(key, tweak, radix)]. *)
Definition new (key tweak : jsstring) (radix : Z) : result FF3Cipher :=
  let keyBytes := rev (Buffer_from_hex key) in
  let minLen := minLen_of_radix radix in
  let maxLen := maxLen_of_radix radix in
  let keyLen := len keyBytes in
  algo <-- (if len keyBytes =? 16 then OK aes_128_ecb
            else if len keyBytes =? 24 then OK aes_192_ecb
            else if len keyBytes =? 32 then OK aes_256_ecb
            else Throw (InvalidKeyLength keyLen)) ;;
  if (radix <? 2) || (radix >? MAX_RADIX) then Throw InvalidRadix
  else if flt minLen f_two || flt maxLen minLen then Throw InvalidDomainBounds
  else
    let tweakBytes := Buffer_from_hex tweak in
    let tweakBytes :=
      if len tweakBytes =? TWEAK_LEN_NEW
      then calculateTweak64_FF3_1 tweakBytes
      else tweakBytes in
    OK {| radix := radix;
          minLen := length_of_double minLen;
          maxLen := length_of_double maxLen;
          tweakBytes := tweakBytes;
          aesCipher := createCipheriv algo keyBytes |}.

(** [Math.ceil(n / 2.0)] for a string length [n]. *)
Definition ceil_half (n : Z) : Z := (n + 1) / 2.

Definition zeros8 : jsstring := str "00000000".

(** The state of the loop: the two halves [A] and [B]. *)
Definition halves : Type := (jsstring * jsstring)%type.

Section Rounds.

Variable E : oracle.
Variable this : FF3Cipher.
Variables u v : Z.
Variables Tl Tr : list Z.
Variables modU modV : Z.

(** The body of the [for] loop of [encrypt]. *)
Definition encrypt_round (i : Z) (AB : halves) : run halves :=
  let '(A, B) := AB in
  let m := if i mod 2 =? 0 then u else v in
  let W := if i mod 2 =? 0 then Tr else Tl in
  P <- lift (calculateP i (radix this) W B) ;;
  let P := rev P in
  S <- update E (aesCipher this) P ;;
  let S := rev S in
  y <- lift (BigInt_of_hex_of_bytes S) ;;
  c <- lift (try_catch (convertToBigInt (reverseString A) (radix this))
                       (NotWithinRadix (radix this))) ;;
  let c := c + y in
  c <- lift (if i mod 2 =? 0 then mod_ c modU else mod_ c modV) ;;
  C <- lift (BigInt_toString c (radix this)) ;;
  let C := reverseString C in
  let C := C ++ substring zeros8 0 (m - strlen C) in
  ret (B, C).

(** The body of the [for] loop of [decrypt]. *)
Definition decrypt_round (i : Z) (AB : halves) : run halves :=
  let '(A, B) := AB in
  let m := if i mod 2 =? 0 then u else v in
  let W := if i mod 2 =? 0 then Tr else Tl in
  P <- lift (calculateP i (radix this) W A) ;;
  let P := rev P in
  S <- update E (aesCipher this) P ;;
  let S := rev S in
  y <- lift (BigInt_of_hex_of_bytes S) ;;
  c <- lift (try_catch (convertToBigInt (reverseString B) (radix this))
                       (NotWithinRadix (radix this))) ;;
  let c := c - y in
  c <- lift (if i mod 2 =? 0 then mod_ c modU else mod_ c modV) ;;
  C <- lift (BigInt_toString c (radix this)) ;;
  let C := reverseString C in
  let C := C ++ substring zeros8 0 (m - strlen C) in
  ret (C, A).

End Rounds.

(** A [for] loop over the round indices [ix], in order. *)
Fixpoint rounds (body : Z -> halves -> run halves) (ix : list Z)
  (AB : halves) : run halves :=
  match ix with
  | [] => ret AB
  | i :: ix' => AB' <- body i AB ;; rounds body ix' AB'
  end.

(** [0, 1, ..., NUM_ROUNDS - 1] *)
Definition round_indices : list Z :=
  map Z.of_nat (seq 0 (Z.to_nat NUM_ROUNDS)).

(** The message-length and tweak-length guards both methods open with. *)
Definition guards (this : FF3Cipher) (n : Z) : run unit :=
  if (n <? minLen this) || (n >? maxLen this) then
    throw (InvalidMessageLength n (minLen this) (maxLen this))
  else if negb (len (tweakBytes this) =? TWEAK_LEN)
          && negb (len (tweakBytes this) =? TWEAK_LEN_NEW) then
    throw (InvalidTweakLength (len (tweakBytes this)))
  else ret tt.

(** [encrypt] up to the end of its [for] loop, the loop running over the
    round indices [ix]; the result is the pair of halves the loop leaves. *)
Definition encrypt_loop (E : oracle) (this : FF3Cipher)
  (plaintext : jsstring) (ix : list Z) : run halves :=
  let n := strlen plaintext in
  _ <- guards this n ;;
  let u := ceil_half n in
  let v := n - u in
  let A := substring plaintext 0 u in
  let B := substring_from plaintext u in
  let Tl := slice (tweakBytes this) 0 HALF_TWEAK_LEN in
  let Tr := slice (tweakBytes this) HALF_TWEAK_LEN TWEAK_LEN in
  let modU := radix this ^ u in
  let modV := radix this ^ v in
  rounds (encrypt_round E this u v Tl Tr modU modV) ix (A, B).

Definition encrypt (E : oracle) (this : FF3Cipher) (plaintext : jsstring)
  : run jsstring :=
  AB <- encrypt_loop E this plaintext round_indices ;;
  ret (fst AB ++ snd AB).

Definition decrypt_loop (E : oracle) (this : FF3Cipher)
  (ciphertext : jsstring) (ix : list Z) : run halves :=
  let n := strlen ciphertext in
  _ <- guards this n ;;
  let u := ceil_half n in
  let v := n - u in
  let A := substring ciphertext 0 u in
  let B := substring_from ciphertext u in
  let Tl := slice (tweakBytes this) 0 HALF_TWEAK_LEN in
  let Tr := slice (tweakBytes this) HALF_TWEAK_LEN TWEAK_LEN in
  let modU := radix this ^ u in
  let modV := radix this ^ v in
  rounds (decrypt_round E this u v Tl Tr modU modV) ix (A, B).

Definition decrypt (E : oracle) (this : FF3Cipher) (ciphertext : jsstring)
  : run jsstring :=
  AB <- decrypt_loop E this ciphertext (rev round_indices) ;;
  ret (fst AB ++ snd AB).

End FF3.

Import FF3.
Open Scope result_scope.

(** ** Specification-side notions *)

(** A digit string of a radix: every symbol is one of the first [radix]
    symbols of "0".."9", "a".."z". *)
Definition is_digit (radix : Z) (c : ascii) : bool :=
  match digit_value c with
  | Some d => (d <? radix) && (code c =? code (digit_char d))
  | None => false
  end.

Definition is_digit_string (radix : Z) (s : jsstring) : bool :=
  forallb (is_digit radix) s.

(** The integer a digit string denotes, most significant digit first. *)
Definition digit_of (c : ascii) : Z :=
  match digit_value c with
  | Some d => d
  | None => 0
  end.

Definition horner (radix acc : Z) (c : ascii) : Z :=
  acc * radix + digit_of c.

Definition radix_value (radix : Z) (s : jsstring) : Z :=
  fold_left (horner radix) s 0.

(** The integer a list of digits denotes, least significant digit first. *)
Definition le_value (radix : Z) (ds : list Z) : Z :=
  fold_right (fun d acc => d + radix * acc) 0 ds.

Definition digits_in (radix : Z) (ds : list Z) : bool :=
  forallb (fun d => (0 <=? d) && (d <? radix)) ds.

(** A byte sequence is the minimal big-endian encoding of [n >= 0]: it has
    value [n] and no leading zero byte, except that zero is one zero byte. *)
Definition is_byte (b : Z) : bool := (0 <=? b) && (b <? 256).

Definition minimal_big_endian (n : Z) (bs : list Z) : Prop :=
  forallb is_byte bs = true /\
  be_value bs = n /\
  (n = 0 -> bs = [0]) /\
  (n <> 0 -> 0 < hd 0 bs).

(** The four bytes a round block opens with: three tweak bytes and the
    fourth xored with the round index. *)
Definition block_prefix (i : Z) (W : list Z) : list Z :=
  [ u8 (byte_at W 0); u8 (byte_at W 1); u8 (byte_at W 2);
    u8 (Z.lxor (byte_at W 3) i) ].

(** The half [B] fits the round block: its value is below [2^96], and
    [calculateP] returns the prefix, zero padding, and the minimal
    big-endian bytes of the value in the last twelve places. *)
Definition fits_block (i radix : Z) (W : list Z) (B : jsstring) : Prop :=
  exists bs,
    0 <= radix_value radix (rev B) < 2 ^ 96 /\
    minimal_big_endian (radix_value radix (rev B)) bs /\
    1 <= len bs <= 12 /\
    calculateP i radix W B
    = OK (block_prefix i W ++ repeat 0 (12 - length bs) ++ bs).

(** The tweak half of round [i]. *)
Definition round_tweak (this : FF3Cipher) (i : Z) : list Z :=
  if i mod 2 =? 0
  then slice (tweakBytes this) HALF_TWEAK_LEN TWEAK_LEN
  else slice (tweakBytes this) 0 HALF_TWEAK_LEN.

(** A half of the running state: a nonempty digit string of at most [u]
    symbols. *)
Definition half_ok (radix u : Z) (s : jsstring) : Prop :=
  s <> [] /\ is_digit_string radix s = true /\ len s <= u.

(** The block oracle answers every block with at least one byte, for the
    cipher object [c]. *)
Definition answers (E : oracle) (c : Cipher) : Prop :=
  forall block : list Z, E c block <> [].

(** The radices a cipher object can have, and the bytes. *)
Definition radices : list Z := map Z.of_nat (seq 2 35).

Definition bytes : list Z := map Z.of_nat (seq 0 256).

(** The bounds of §3, on integers: [minLen] is the least exponent that
    reaches the domain minimum, [maxLen] twice the greatest exponent that
    stays within 96 bits. *)
Definition bounds_match (radix minLen maxLen : Z) : bool :=
  (2 <=? minLen)
  && (radix ^ (minLen - 1) <? DOMAIN_MIN) && (DOMAIN_MIN <=? radix ^ minLen)
  && (maxLen mod 2 =? 0)
  && (radix ^ (maxLen / 2) <=? 2 ^ 96) && (2 ^ 96 <? radix ^ (maxLen / 2 + 1)).

(** The context and inputs of the running examples: the key and tweak of
    the first NIST sample. *)
Definition sample_key : jsstring := str "EF4359D8D580AA4F7F036D6F04FC6A94".
Definition sample_tweak : jsstring := str "D8E7920AFA330A73".
Definition sample_tweak56 : jsstring := str "D8E7920AFA330A".

Definition sample_cipher : FF3Cipher :=
  {| radix := 10; minLen := 6; maxLen := 56;
     tweakBytes := [216; 231; 146; 10; 250; 51; 10; 115];
     aesCipher :=
       createCipheriv aes_128_ecb
         [148; 106; 252; 4; 111; 109; 3; 127;
          79; 170; 128; 213; 216; 89; 67; 239] |}.

(** A twenty-digit plaintext whose last half encrypts to a small value. *)
Definition short_pad_plaintext : jsstring := str "98783261484656051529".

(** What [encrypt] returns for it, and what [decrypt] makes of that. *)
Definition short_pad_ciphertext : jsstring := str "1234567890500000000".
Definition short_pad_decrypted : jsstring := str "8201602172131860708".

(** A tweak of five bytes. *)
Definition five_byte_tweak : jsstring := str "D8E7920AFA".

(** A half of thirty decimal digits: its value needs thirteen bytes. *)
Definition thirty_nines : jsstring := str "999999999999999999999999999999".

(** The round indices from [a] on, [k] of them. *)
Definition indices_from (a k : nat) : list Z := map Z.of_nat (seq a k).

(** The length the half produced in round [i] is meant to have. *)
Definition half_length (u v : Z) (i : nat) : Z :=
  if Nat.even i then u else v.

(** A half of exactly [m] symbols. *)
Definition half_exact (radix m : Z) (s : jsstring) : Prop :=
  is_digit_string radix s = true /\ len s = m.

(** A symbol that [parseInt] does not read as a digit of the radix. *)
Definition stops_parse (radix : Z) (c : ascii) : bool :=
  match digit_value c with
  | Some d => radix <=? d
  | None => true
  end.

(** The sign bit of a byte. *)
Definition sign_bit (b : Z) : bool := 128 <=? b.

(** The key lengths the constructor accepts. *)
Definition key_length_ok (n : Z) : bool :=
  (n =? 16) || (n =? 24) || (n =? 32).

(** A symbol on which [parseInt] returns NaN when it comes first: no digit
    of the radix, no white space and no sign. *)
Definition unreadable (radix : Z) (c : ascii) : bool :=
  stops_parse radix c && negb (is_whitespace c)
  && negb (code c =? 45) && negb (code c =? 43).

(** The lower-case form of a string: the letters "A".."Z" become
    "a".."z", every other symbol stays. *)
Definition to_lower (c : ascii) : ascii :=
  if (65 <=? code c) && (code c <=? 90) then chr (code c + 32) else c.

Definition lower_case (s : jsstring) : jsstring := map to_lower s.

(** The sample key and tweak with radix 36. *)
Definition sample_cipher36 : FF3Cipher :=
  {| radix := 36; minLen := 4; maxLen := 36;
     tweakBytes := [216; 231; 146; 10; 250; 51; 10; 115];
     aesCipher :=
       createCipheriv aes_128_ecb
         [148; 106; 252; 4; 111; 109; 3; 127;
          79; 170; 128; 213; 216; 89; 67; 239] |}.

(** The same key and tweak with radix 2. *)
Definition sample_cipher2 : FF3Cipher :=
  {| radix := 2; minLen := 20; maxLen := 192;
     tweakBytes := [216; 231; 146; 10; 250; 51; 10; 115];
     aesCipher :=
       createCipheriv aes_128_ecb
         [148; 106; 252; 4; 111; 109; 3; 127;
          79; 170; 128; 213; 216; 89; 67; 239] |}.

(** A string of 192 symbols, the longest radix 2 admits, that is no digit
    string: 191 ones and a minus sign. *)
Definition ones_then_minus : jsstring := repeat "1"%char 191 ++ [ "-"%char ].

(** The round block that holds the bytes [bs] in its last places, after
    the four tweak-and-round bytes. *)
Definition round_block (i : Z) (W bs : list Z) : list Z :=
  block_prefix i W ++ repeat 0 (12 - length bs) ++ bs.

(** ** Generic lemmas *)

Lemma ToInt32_small (n : Z) : - 2 ^ 31 <= n < 2 ^ 31 -> ToInt32 n = n.
Proof.
  intros Hn. unfold ToInt32. cbv zeta.
  destruct (Z_lt_le_dec n 0) as [Hneg | Hpos].
  - replace (n mod 2 ^ 32) with (n + 2 ^ 32).
    + replace (2 ^ 31 <=? n + 2 ^ 32) with true by lia. lia.
    + symmetry. rewrite <- (Z.mod_add n 1 (2 ^ 32)) by lia.
      rewrite Z.mul_1_l. apply Z.mod_small. lia.
  - rewrite Z.mod_small by lia.
    replace (2 ^ 31 <=? n) with false by lia. reflexivity.
Qed.

Lemma in_radices (r : Z) : 2 <= r <= 36 -> In r radices.
Proof.
  intros Hr. unfold radices.
  replace r with (Z.of_nat (Z.to_nat r)) by lia.
  apply in_map, in_seq. lia.
Qed.

Lemma in_bytes (b : Z) : 0 <= b < 256 -> In b bytes.
Proof.
  intros Hb. unfold bytes.
  replace b with (Z.of_nat (Z.to_nat b)) by lia.
  apply in_map, in_seq. lia.
Qed.

Lemma u8_small (b : Z) : 0 <= b < 256 -> u8 b = b.
Proof. intros Hb. unfold u8. apply Z.mod_small. exact Hb. Qed.

Lemma fst_bind {A B : Type} (m : run A) (k : A -> run B) :
  fst (bind m k) = rbind (fst m) (fun a => fst (k a)).
Proof.
  destruct m as [[a | e] blocks]; simpl; [ | reflexivity ].
  destruct (k a); reflexivity.
Qed.

Lemma rounds_ext (f g : Z -> halves -> run halves) (ix : list Z) :
  (forall i AB, f i AB = g i AB) ->
  forall AB, rounds f ix AB = rounds g ix AB.
Proof.
  intros Hfg. induction ix as [ | i ix IH]; intros AB; simpl.
  - reflexivity.
  - rewrite Hfg. destruct (g i AB) as [[AB' | e] blocks]; simpl.
    + rewrite IH. reflexivity.
    + reflexivity.
Qed.

(** What a successful construction says about its arguments. *)
Lemma new_inv (key tweak : jsstring) (r : Z) (this : FF3Cipher) :
  new key tweak r = OK this ->
  2 <= r <= 36 /\
  radix this = r /\
  minLen this = length_of_double (minLen_of_radix r) /\
  maxLen this = length_of_double (maxLen_of_radix r) /\
  tweakBytes this =
    (if len (Buffer_from_hex tweak) =? TWEAK_LEN_NEW
     then calculateTweak64_FF3_1 (Buffer_from_hex tweak)
     else Buffer_from_hex tweak) /\
  cipher_key (aesCipher this) = rev (Buffer_from_hex key) /\
  (len (rev (Buffer_from_hex key)) = 16 \/
   len (rev (Buffer_from_hex key)) = 24 \/
   len (rev (Buffer_from_hex key)) = 32).
Proof.
  unfold new, rbind, MAX_RADIX. intros H. cbv zeta in H.
  assert (Hkey : exists algo,
             (if len (rev (Buffer_from_hex key)) =? 16 then OK aes_128_ecb
              else if len (rev (Buffer_from_hex key)) =? 24 then OK aes_192_ecb
              else if len (rev (Buffer_from_hex key)) =? 32 then OK aes_256_ecb
              else Throw (InvalidKeyLength (len (rev (Buffer_from_hex key)))))
             = OK algo /\
             (len (rev (Buffer_from_hex key)) = 16 \/
              len (rev (Buffer_from_hex key)) = 24 \/
              len (rev (Buffer_from_hex key)) = 32)).
  { destruct (len (rev (Buffer_from_hex key)) =? 16) eqn:H16;
      [ exists aes_128_ecb; split; [ reflexivity | lia ] | ].
    destruct (len (rev (Buffer_from_hex key)) =? 24) eqn:H24;
      [ exists aes_192_ecb; split; [ reflexivity | lia ] | ].
    destruct (len (rev (Buffer_from_hex key)) =? 32) eqn:H32;
      [ exists aes_256_ecb; split; [ reflexivity | lia ] | ].
    discriminate H. }
  destruct Hkey as [algo [Halgo Hlen]]. rewrite Halgo in H.
  destruct ((r <? 2) || (r >? 36)) eqn:Hr; [ discriminate H | ].
  destruct (flt (minLen_of_radix r) f_two
            || flt (maxLen_of_radix r) (minLen_of_radix r));
    [ discriminate H | ].
  injection H as H. subst this. cbn [radix minLen maxLen tweakBytes aesCipher cipher_key].
  repeat split; try reflexivity; lia.
Qed.

(** The doubles the constructor computes hold the integers of §3, for
    every radix it accepts. *)
Lemma bounds_of_radices :
  forallb (fun r => bounds_match r (length_of_double (minLen_of_radix r))
                                   (length_of_double (maxLen_of_radix r)))
          radices = true.
Proof. vm_compute. reflexivity. Qed.

Lemma bounds_of_radix (r : Z) :
  2 <= r <= 36 ->
  bounds_match r (length_of_double (minLen_of_radix r))
                 (length_of_double (maxLen_of_radix r)) = true.
Proof.
  intros Hr. apply in_radices in Hr.
  exact (proj1 (forallb_forall _ _) bounds_of_radices r Hr).
Qed.

(** ** Digits, numerals and their values *)

Lemma digit_value_range (c : ascii) (d : Z) :
  digit_value c = Some d ->
  0 <= d < 36 /\
  is_whitespace c = false /\ code c <> 45 /\ code c <> 43 /\
  (code c = 120 \/ code c = 88 -> d = 33).
Proof.
  unfold digit_value, is_whitespace.
  destruct ((48 <=? code c) && (code c <=? 57)) eqn:H09.
  { intros H. injection H as H. repeat split; lia. }
  destruct ((97 <=? code c) && (code c <=? 122)) eqn:Haz.
  { intros H. injection H as H. repeat split; lia. }
  destruct ((65 <=? code c) && (code c <=? 90)) eqn:HAZ; [ | discriminate ].
  intros H. injection H as H. repeat split; lia.
Qed.

Lemma is_digit_inv (radix : Z) (c : ascii) :
  is_digit radix c = true ->
  exists d, digit_value c = Some d /\ 0 <= d < radix /\ digit_of c = d.
Proof.
  unfold is_digit, digit_of. destruct (digit_value c) as [d | ] eqn:Hd.
  - intros H. apply andb_prop in H. destruct H as [H _].
    exists d. pose proof (digit_value_range c d Hd). repeat split; lia.
  - discriminate.
Qed.

Lemma digit_char_table :
  forallb (fun d => match digit_value (digit_char d) with
                    | Some d' => (d' =? d) && is_digit (d + 1) (digit_char d)
                    | None => false
                    end)
          (map Z.of_nat (seq 0 36)) = true.
Proof. vm_compute. reflexivity. Qed.

Lemma digit_char_value (d : Z) :
  0 <= d < 36 -> digit_value (digit_char d) = Some d.
Proof.
  intros Hd.
  assert (Hin : In d (map Z.of_nat (seq 0 36))).
  { replace d with (Z.of_nat (Z.to_nat d)) by lia.
    apply in_map, in_seq. lia. }
  pose proof (proj1 (forallb_forall _ _) digit_char_table d Hin) as H.
  cbv beta in H. destruct (digit_value (digit_char d)) as [d' | ];
    [ | discriminate H ].
  apply andb_prop in H. destruct H as [H _]. f_equal. lia.
Qed.

Lemma digit_char_is_digit (radix d : Z) :
  0 <= d < radix -> radix <= 36 -> is_digit radix (digit_char d) = true.
Proof.
  intros Hd Hr. unfold is_digit.
  rewrite digit_char_value by lia.
  apply andb_true_intro. split; lia.
Qed.

Lemma digit_of_digit_char (d : Z) :
  0 <= d < 36 -> digit_of (digit_char d) = d.
Proof. intros Hd. unfold digit_of. rewrite digit_char_value by lia. reflexivity. Qed.

Section Radix.

Variable radix : Z.
Hypothesis radix_range : 2 <= radix <= 36.

Lemma radix_value_acc (s : jsstring) (acc : Z) :
  fold_left (horner radix) s acc
  = acc * radix ^ len s + radix_value radix s.
Proof.
  unfold radix_value, len.
  revert acc. induction s as [ | c s IH]; intros acc.
  - simpl. lia.
  - cbn [fold_left length]. rewrite IH. rewrite (IH (horner radix 0 c)).
    unfold horner. rewrite Nat2Z.inj_succ, Z.pow_succ_r by lia. ring.
Qed.

Lemma radix_value_app (s t : jsstring) :
  radix_value radix (s ++ t)
  = radix_value radix s * radix ^ len t + radix_value radix t.
Proof.
  unfold radix_value at 1. rewrite fold_left_app.
  rewrite radix_value_acc. reflexivity.
Qed.

Lemma radix_value_bounds (s : jsstring) :
  is_digit_string radix s = true ->
  0 <= radix_value radix s < radix ^ len s.
Proof.
  unfold is_digit_string. intros Hs.
  induction s as [ | c s IH] using rev_ind.
  - unfold radix_value, len. simpl. lia.
  - rewrite forallb_app in Hs. apply andb_prop in Hs. destruct Hs as [Hs Hc].
    simpl in Hc. rewrite andb_true_r in Hc.
    destruct (is_digit_inv radix c Hc) as [d [_ [Hd Hof]]].
    specialize (IH Hs). rewrite radix_value_app.
    replace (radix_value radix [c]) with d
      by (unfold radix_value, horner; simpl; lia).
    unfold len in *. rewrite length_app. simpl length.
    rewrite Nat2Z.inj_add. change (Z.of_nat 1) with 1.
    rewrite Z.pow_add_r, Z.pow_1_r by lia. nia.
Qed.

(** [parseInt] reads a nonempty digit string of the radix exactly. *)
Lemma parse_digits_digit_string (s : jsstring) (acc : Z) :
  is_digit_string radix s = true ->
  parse_digits radix s acc true = Some (fold_left (horner radix) s acc).
Proof.
  unfold is_digit_string. revert acc.
  induction s as [ | c s IH]; intros acc Hs.
  - reflexivity.
  - simpl in Hs. apply andb_prop in Hs. destruct Hs as [Hc Hs].
    destruct (is_digit_inv radix c Hc) as [d [Hv [Hd Hof]]].
    cbn [parse_digits fold_left]. rewrite Hv.
    replace (d <? radix) with true by lia.
    rewrite IH by exact Hs. unfold horner. rewrite Hof. reflexivity.
Qed.

Lemma parseInt_digit_string (s : jsstring) :
  s <> [] ->
  is_digit_string radix s = true ->
  parseInt s radix = Some (radix_value radix s).
Proof.
  intros Hne Hs. destruct s as [ | c s]; [ contradiction | ].
  pose proof Hs as Hcs. unfold is_digit_string in Hs. simpl in Hs.
  apply andb_prop in Hs. destruct Hs as [Hc Hs].
  destruct (is_digit_inv radix c Hc) as [d [Hv [Hd Hof]]].
  destruct (digit_value_range c d Hv) as [_ [Hws [Hminus [Hplus _]]]].
  assert (Hparse : parse_digits radix (c :: s) 0 false
                   = Some (radix_value radix (c :: s))).
  { cbn [parse_digits]. rewrite Hv. replace (d <? radix) with true by lia.
    rewrite parse_digits_digit_string by exact Hs.
    unfold radix_value. cbn [fold_left]. unfold horner.
    rewrite Hof. reflexivity. }
  unfold parseInt. cbn [trim_start]. rewrite Hws. unfold strip_sign.
  replace (code c =? 45) with false by lia.
  replace (code c =? 43) with false by lia.
  rewrite (ToInt32_small radix) by lia.
  replace (radix =? 0) with false by lia.
  replace ((radix <? 2) || (36 <? radix)) with false
    by (symmetry; apply orb_false_intro; lia).
  destruct (radix =? 16) eqn:H16.
  - assert (Hx : strip_0x (c :: s) = None).
    { unfold strip_0x. destruct s as [ | cx s']; [ reflexivity | ].
      simpl in Hs. apply andb_prop in Hs. destruct Hs as [Hcx _].
      destruct (is_digit_inv radix cx Hcx) as [dx [Hvx [Hdx _]]].
      destruct (digit_value_range cx dx Hvx) as [_ [_ [_ [_ Hxx]]]].
      replace ((code cx =? 120) || (code cx =? 88)) with false.
      - rewrite andb_false_r. reflexivity.
      - symmetry. apply orb_false_intro; apply Z.eqb_neq; intros Heq;
          assert (dx = 33) by (apply Hxx; lia); lia. }
    rewrite Hx. replace 16 with radix by lia. rewrite Hparse. reflexivity.
  - rewrite Hparse. reflexivity.
Qed.

End Radix.

Lemma is_digit_string_app (radix : Z) (s t : jsstring) :
  is_digit_string radix (s ++ t)
  = is_digit_string radix s && is_digit_string radix t.
Proof. unfold is_digit_string. apply forallb_app. Qed.

Lemma is_digit_string_firstn (radix : Z) (n : nat) (s : jsstring) :
  is_digit_string radix s = true ->
  is_digit_string radix (firstn n s) = true.
Proof.
  intros Hs. rewrite <- (firstn_skipn n s), is_digit_string_app in Hs.
  apply andb_prop in Hs. tauto.
Qed.

Lemma is_digit_string_skipn (radix : Z) (n : nat) (s : jsstring) :
  is_digit_string radix s = true ->
  is_digit_string radix (skipn n s) = true.
Proof.
  intros Hs. rewrite <- (firstn_skipn n s), is_digit_string_app in Hs.
  apply andb_prop in Hs. tauto.
Qed.

Lemma is_digit_string_rev (radix : Z) (s : jsstring) :
  is_digit_string radix (rev s) = is_digit_string radix s.
Proof.
  induction s as [ | c s IH]; [ reflexivity | ].
  simpl rev. rewrite is_digit_string_app, IH.
  unfold is_digit_string. simpl. rewrite andb_true_r. apply andb_comm.
Qed.

Section Conversion.

Variable radix : Z.
Hypothesis radix_range : 2 <= radix <= 36.

(** The slices after the first are ten digits each, so multiplying by
    [radix ^ 10] and adding the slice continues the Horner evaluation. *)
Lemma fold_slices (passes : nat) :
  forall (rest : jsstring) (acc : Z) (k : nat),
    is_digit_string radix rest = true ->
    length rest = (10 * k)%nat ->
    (k <= passes)%nat ->
    fold_left (reducer radix (radix ^ 10)) (slices passes 10 rest) (OK acc)
    = OK (fold_left (horner radix) rest acc).
Proof.
  induction passes as [ | passes IH]; intros rest acc k Hs Hlen Hk.
  - destruct rest; [ reflexivity | simpl in Hlen; lia ].
  - destruct rest as [ | c rest']; [ reflexivity | ].
    set (rest := c :: rest') in *.
    assert (Hchunk : length (firstn 10 rest) = 10%nat)
      by (rewrite length_firstn; subst rest; simpl length in *; lia).
    assert (Hne : firstn 10 rest <> [])
      by (intros Heq; rewrite Heq in Hchunk; discriminate Hchunk).
    change (slices (S passes) 10 rest)
      with (firstn 10 rest :: slices passes 10 (skipn 10 rest)).
    cbn [fold_left]. unfold reducer at 2. cbn [rbind].
    rewrite (parseInt_digit_string radix radix_range _ Hne
               (is_digit_string_firstn radix 10 rest Hs)).
    cbn [BigInt_of_number rbind].
    assert (Hsplit : fold_left (horner radix) rest acc
                     = fold_left (horner radix) (skipn 10 rest)
                         (acc * radix ^ 10
                          + radix_value radix (firstn 10 rest))).
    { rewrite <- (firstn_skipn 10 rest) at 1. rewrite fold_left_app.
      f_equal. rewrite radix_value_acc.
      unfold len. rewrite Hchunk. reflexivity. }
    rewrite Hsplit. apply (IH (skipn 10 rest) _ (k - 1)%nat).
    + apply is_digit_string_skipn. exact Hs.
    + rewrite length_skipn. lia.
    + lia.
Qed.

Lemma convertToBigInt_digit_string (s : jsstring) :
  s <> [] ->
  is_digit_string radix s = true ->
  convertToBigInt s radix = OK (radix_value radix s).
Proof.
  intros Hne Hs. unfold convertToBigInt, substring, substring_from.
  cbv zeta.
  set (i := if strlen s mod 10 =? 0 then 10 else strlen s mod 10).
  change (Z.to_nat 10) with 10%nat. change (Z.to_nat 0) with 0%nat.
  rewrite Nat.sub_0_r. cbn [skipn fold_left].
  assert (Hn : 0 < strlen s).
  { unfold strlen. destruct s; [ contradiction | simpl length; lia ]. }
  pose proof (Z.div_mod (strlen s) 10 ltac:(lia)) as Hdm.
  pose proof (Z.mod_pos_bound (strlen s) 10 ltac:(lia)) as Hmb.
  assert (Hi : 1 <= i <= strlen s /\ exists k, strlen s - i = 10 * Z.of_nat k).
  { subst i. destruct (strlen s mod 10 =? 0) eqn:H0.
    - split; [ lia | ]. exists (Z.to_nat (strlen s / 10 - 1)). lia.
    - split; [ lia | ]. exists (Z.to_nat (strlen s / 10)). lia. }
  destruct Hi as [Hi [k Hk]]. unfold strlen in Hi, Hk.
  assert (Hfirst : firstn (Z.to_nat i) s <> []).
  { intros Heq. apply (f_equal (@length ascii)) in Heq.
    rewrite length_firstn in Heq. simpl in Heq. lia. }
  unfold reducer at 2. cbn [rbind].
  rewrite (parseInt_digit_string radix radix_range _ Hfirst
             (is_digit_string_firstn radix _ s Hs)).
  cbn [BigInt_of_number rbind].
  assert (Hsplit : radix_value radix s
                   = fold_left (horner radix) (skipn (Z.to_nat i) s)
                       (0 * radix ^ 10
                        + radix_value radix (firstn (Z.to_nat i) s))).
  { unfold radix_value at 1.
    rewrite <- (firstn_skipn (Z.to_nat i) s) at 1. rewrite fold_left_app.
    f_equal; unfold radix_value; lia. }
  rewrite Hsplit.
  apply (fold_slices (length s) (skipn (Z.to_nat i) s) _ k).
  - apply is_digit_string_skipn. exact Hs.
  - rewrite length_skipn. lia.
  - lia.
Qed.

End Conversion.

Section Numerals.

Variable radix : Z.
Hypothesis radix_range : 2 <= radix <= 36.

(** The digit loop, given fuel above the binary length of [c]. *)
Lemma digits_le_spec (fuel : nat) :
  forall c : Z,
    0 <= c < 2 ^ Z.of_nat (S fuel) ->
    digits_le (S fuel) radix c <> [] /\
    digits_in radix (digits_le (S fuel) radix c) = true /\
    le_value radix (digits_le (S fuel) radix c) = c /\
    (c <> 0 -> 0 < last (digits_le (S fuel) radix c) 0) /\
    (forall m, 1 <= m -> c < radix ^ m ->
               len (digits_le (S fuel) radix c) <= m).
Proof.
  assert (Hone : forall c, 0 <= c < radix ->
            [c] <> [] /\ digits_in radix [c] = true /\
            le_value radix [c] = c /\ (c <> 0 -> 0 < last [c] 0) /\
            (forall m, 1 <= m -> c < radix ^ m -> len [c] <= m)).
  { intros c Hc. unfold digits_in, le_value, len. simpl.
    repeat split; try discriminate; try lia. }
  induction fuel as [ | fuel IH]; intros c Hc.
  - change (2 ^ Z.of_nat 1) with 2 in Hc.
    cbn [digits_le]. replace (c <? radix) with true by lia.
    apply Hone. lia.
  - change (digits_le (S (S fuel)) radix c)
      with (if c <? radix then [c]
            else (c mod radix) :: digits_le (S fuel) radix (c / radix)).
    destruct (c <? radix) eqn:Hlt; [ apply Hone; lia | ].
    set (ds := digits_le (S fuel) radix (c / radix)) in *.
    pose proof (Z.div_mod c radix ltac:(lia)) as Hdm.
    pose proof (Z.mod_pos_bound c radix ltac:(lia)) as Hmb.
    assert (Hq : 1 <= c / radix) by (apply Z.div_le_lower_bound; lia).
    assert (Hqb : 0 <= c / radix < 2 ^ Z.of_nat (S fuel)).
    { split; [ lia | ]. apply Z.div_lt_upper_bound; [ lia | ].
      rewrite (Nat2Z.inj_succ (S fuel)), Z.pow_succ_r in Hc by lia.
      assert (0 < 2 ^ Z.of_nat (S fuel)) by (apply Z.pow_pos_nonneg; lia).
      nia. }
    destruct (IH (c / radix) Hqb) as [Hne [Hin [Hval [Hlast Hlen]]]].
    fold ds in Hne, Hin, Hval, Hlast, Hlen.
    repeat split.
    + discriminate.
    + unfold digits_in in *. cbn [forallb]. rewrite Hin.
      apply andb_true_intro. split; [ | reflexivity ].
      apply andb_true_intro. split; lia.
    + unfold le_value in *. cbn [fold_right]. rewrite Hval. lia.
    + intros _. destruct ds as [ | d ds']; [ contradiction | ].
      change (last (c mod radix :: d :: ds') 0) with (last (d :: ds') 0).
      apply Hlast. lia.
    + intros m Hm Hcm. unfold len in *. cbn [length].
      rewrite Nat2Z.inj_succ.
      assert (Hm2 : 2 <= m).
      { destruct (Z.eq_dec m 1) as [H1 | H1]; [ | lia ].
        subst m. rewrite Z.pow_1_r in Hcm. lia. }
      assert (Hlen' : Z.of_nat (length ds) <= m - 1).
      { apply Hlen; [ lia | ]. apply Z.div_lt_upper_bound; [ lia | ].
        rewrite <- Z.pow_succ_r by lia.
        replace (Z.succ (m - 1)) with m by lia. exact Hcm. }
      lia.
Qed.

Lemma numeral_digits (c : Z) :
  0 <= c ->
  exists ds,
    numeral c radix = map digit_char (rev ds) /\
    ds <> [] /\
    digits_in radix ds = true /\
    le_value radix ds = c /\
    (c <> 0 -> 0 < last ds 0) /\
    (forall m, 1 <= m -> c < radix ^ m -> len ds <= m).
Proof.
  intros Hc. unfold numeral, digits_fuel.
  replace (c <? 0) with false by lia. rewrite Z.abs_eq by exact Hc.
  exists (digits_le (S (Z.to_nat (Z.log2 c))) radix c).
  split; [ reflexivity | ]. apply digits_le_spec.
  split; [ exact Hc | ].
  rewrite Nat2Z.inj_succ, Z2Nat.id by apply Z.log2_nonneg.
  destruct (Z.eq_dec c 0) as [H0 | H0].
  - subst c. simpl. lia.
  - apply Z.log2_spec. lia.
Qed.

Lemma digit_chars_valid (ds : list Z) :
  digits_in radix ds = true ->
  is_digit_string radix (map digit_char ds) = true.
Proof.
  unfold digits_in, is_digit_string.
  induction ds as [ | d ds IH]; [ reflexivity | ].
  cbn [forallb map]. intros H. apply andb_prop in H. destruct H as [Hd Hds].
  rewrite IH by exact Hds. rewrite digit_char_is_digit by lia. reflexivity.
Qed.

Lemma digit_chars_value (ds : list Z) :
  digits_in radix ds = true ->
  radix_value radix (map digit_char (rev ds)) = le_value radix ds.
Proof.
  unfold digits_in.
  induction ds as [ | d ds IH]; [ reflexivity | ].
  cbn [forallb]. intros H. apply andb_prop in H. destruct H as [Hd Hds].
  cbn [rev]. rewrite map_app, radix_value_app.
  rewrite IH by exact Hds.
  unfold le_value. cbn [fold_right map]. unfold len. cbn [length].
  unfold radix_value, horner. cbn [fold_left].
  rewrite digit_of_digit_char by lia. change (Z.of_nat 1) with 1.
  rewrite Z.pow_1_r. lia.
Qed.

Lemma digits_in_zeros (n : nat) : digits_in radix (repeat 0 n) = true.
Proof.
  unfold digits_in. induction n as [ | n IH]; [ reflexivity | ].
  cbn [repeat forallb]. rewrite IH.
  apply andb_true_intro. split; [ | reflexivity ].
  apply andb_true_intro. split; lia.
Qed.

Lemma le_value_app_zeros (ds : list Z) (n : nat) :
  le_value radix (ds ++ repeat 0 n) = le_value radix ds.
Proof.
  unfold le_value. rewrite fold_right_app.
  replace (fold_right (fun d acc => d + radix * acc) 0 (repeat 0 n)) with 0;
    [ reflexivity | ].
  induction n as [ | n IH]; [ reflexivity | ].
  cbn [repeat fold_right]. rewrite <- IH. lia.
Qed.

End Numerals.

(** ** The byte encoding of a half-value *)

Lemma radix_range_16 : 2 <= 16 <= 36.
Proof. lia. Qed.

Lemma hex_pair (a b : ascii) :
  is_digit_string 16 [a; b] = true ->
  parseInt [a; b] 16 = Some (16 * digit_of a + digit_of b) /\
  0 <= digit_of a < 16 /\ 0 <= digit_of b < 16.
Proof.
  intros H. rewrite (parseInt_digit_string 16 radix_range_16 [a; b])
    by (discriminate || exact H).
  unfold is_digit_string in H. cbn [forallb] in H.
  apply andb_prop in H. destruct H as [Ha H].
  apply andb_prop in H. destruct H as [Hb _].
  destruct (is_digit_inv 16 a Ha) as [da [_ [Hda Hofa]]].
  destruct (is_digit_inv 16 b Hb) as [db [_ [Hdb Hofb]]].
  unfold radix_value, horner. cbn [fold_left]. rewrite Hofa, Hofb.
  repeat split; try lia. f_equal. lia.
Qed.

Lemma hex_bytes_spec (n : nat) :
  forall hex : jsstring,
    length hex = (2 * n)%nat ->
    is_digit_string 16 hex = true ->
    length (hex_bytes n hex) = n /\
    forallb is_byte (hex_bytes n hex) = true /\
    (forall acc, fold_left (fun a b => a * 256 + b) (hex_bytes n hex) acc
                 = fold_left (horner 16) hex acc).
Proof.
  induction n as [ | n IH]; intros hex Hlen Hhex.
  - destruct hex; [ | discriminate Hlen ]. repeat split.
  - destruct hex as [ | a [ | b hex']]; try (simpl in Hlen; lia).
    assert (Hab : is_digit_string 16 [a; b] = true)
      by exact (is_digit_string_firstn 16 2 _ Hhex).
    assert (Hrest : is_digit_string 16 hex' = true)
      by exact (is_digit_string_skipn 16 2 _ Hhex).
    destruct (hex_pair a b Hab) as [Hparse [Ha Hb]].
    destruct (IH hex') as [IHlen [IHbytes IHval]];
      [ simpl in Hlen; lia | exact Hrest | ].
    cbn [hex_bytes firstn skipn]. rewrite Hparse.
    rewrite u8_small by lia.
    cbn [length forallb fold_left]. rewrite IHlen, IHbytes.
    repeat split.
    + apply andb_true_intro. split; [ | reflexivity ].
      unfold is_byte. apply andb_true_intro. split; lia.
    + intros acc. rewrite IHval. f_equal. unfold horner. lia.
Qed.

Lemma hex_bytes_head (n : nat) (a b : ascii) (hex : jsstring) :
  is_digit_string 16 [a; b] = true ->
  hd 0 (hex_bytes (S n) (a :: b :: hex)) = 16 * digit_of a + digit_of b.
Proof.
  intros Hab. destruct (hex_pair a b Hab) as [Hparse [Ha Hb]].
  cbn [hex_bytes firstn hd]. rewrite Hparse. apply u8_small. lia.
Qed.

Lemma rev_last {A : Type} (l : list A) (d : A) :
  l <> [] -> rev l = last l d :: rev (removelast l).
Proof.
  intros Hne. rewrite (app_removelast_last d Hne) at 1.
  rewrite rev_app_distr. reflexivity.
Qed.

Lemma pow_256 (k : Z) : 0 <= k -> 256 ^ k = 16 ^ (2 * k).
Proof. intros Hk. rewrite Z.pow_mul_r by lia. reflexivity. Qed.

(** A nonnegative value below [256 ^ k] is rendered as its minimal
    big-endian bytes, at most [k] of them. *)
Lemma bigToUint8Array_spec (big k : Z) :
  1 <= k ->
  0 <= big < 256 ^ k ->
  minimal_big_endian big (bigToUint8Array big) /\
  1 <= len (bigToUint8Array big) <= k.
Proof.
  intros Hk Hbig.
  destruct (Z.eq_dec big 0) as [H0 | H0].
  { subst big. split; [ | unfold len; simpl; lia ].
    unfold minimal_big_endian. repeat split; try reflexivity. lia. }
  unfold bigToUint8Array. replace (big <? 0) with false by lia. cbv zeta.
  destruct (numeral_digits 16 radix_range_16 big (proj1 Hbig))
    as [ds [Hnum [Hne [Hin [Hval [Hlast Hlen]]]]]].
  specialize (Hlast H0).
  assert (Hds : len ds <= 2 * k).
  { apply Hlen; [ lia | ]. rewrite <- pow_256 by lia. lia. }
  rewrite Hnum. unfold strlen. rewrite length_map, length_rev.
  assert (Hpos : (0 < length ds)%nat)
    by (destruct ds; [ contradiction | simpl; lia ]).
  rewrite (rev_last ds 0 Hne). cbn [map].
  set (top := digit_char (last ds 0)).
  set (low := map digit_char (rev (removelast ds))).
  assert (Hrev : map digit_char (rev ds) = top :: low)
    by (rewrite (rev_last ds 0 Hne); reflexivity).
  assert (Hvalid : is_digit_string 16 (top :: low) = true).
  { rewrite <- Hrev, map_rev, is_digit_string_rev.
    apply (digit_chars_valid 16 radix_range_16). exact Hin. }
  assert (Hvalue : radix_value 16 (top :: low) = big).
  { rewrite <- Hrev, (digit_chars_value 16 radix_range_16) by exact Hin.
    exact Hval. }
  assert (Hlow : length low = (length ds - 1)%nat).
  { apply (f_equal (@length ascii)) in Hrev.
    rewrite length_map, length_rev in Hrev. simpl in Hrev. lia. }
  assert (Htop : digit_of top = last ds 0).
  { subst top. apply digit_of_digit_char.
    assert (Hall := proj1 (forallb_forall _ _) Hin (last ds 0)).
    assert (Hmem : In (last ds 0) ds).
    { rewrite (app_removelast_last 0 Hne) at 2.
      apply in_or_app. right. left. reflexivity. }
    specialize (Hall Hmem). cbv beta in Hall. lia. }
  pose proof (Z.div_mod (Z.of_nat (length ds)) 2 ltac:(lia)) as Hdm.
  pose proof (Z.mod_pos_bound (Z.of_nat (length ds)) 2 ltac:(lia)) as Hmb.
  destruct (Z.of_nat (length ds) mod 2 =? 0) eqn:Heven.
  - (* an even number of hex digits *)
    set (n := Z.to_nat (Z.of_nat (length (top :: low)) / 2)).
    assert (Hn : length (top :: low) = (2 * n)%nat).
    { subst n. cbn [length]. rewrite Hlow.
      replace (S (length ds - 1)) with (length ds) by lia. lia. }
    destruct (hex_bytes_spec n (top :: low) Hn Hvalid)
      as [Hcount [Hbytes Hfold]].
    split.
    + unfold minimal_big_endian. repeat split.
      * exact Hbytes.
      * unfold be_value. rewrite Hfold. exact Hvalue.
      * intros Hz. contradiction.
      * intros _. destruct n as [ | n']; [ simpl in Hn; lia | ].
        destruct low as [ | c1 low']; [ simpl in Hn; lia | ].
        assert (Hpair : is_digit_string 16 [top; c1] = true)
          by exact (is_digit_string_firstn 16 2 _ Hvalid).
        rewrite hex_bytes_head by exact Hpair.
        destruct (hex_pair top c1 Hpair) as [_ [_ Hc1]]. lia.
    + unfold len. rewrite Hcount. subst n. cbn [length]. rewrite Hlow.
      replace (S (length ds - 1)) with (length ds) by lia.
      unfold len in Hds. lia.
  - (* an odd number: a zero digit is put in front *)
    set (n := Z.to_nat (Z.of_nat (length (chr 48 :: top :: low)) / 2)).
    assert (Hn : length (chr 48 :: top :: low) = (2 * n)%nat).
    { subst n. cbn [length]. rewrite Hlow.
      replace (S (S (length ds - 1))) with (S (length ds)) by lia.
      rewrite Nat2Z.inj_succ.
      replace (Z.succ (Z.of_nat (length ds)))
        with ((Z.of_nat (length ds) / 2 + 1) * 2) by lia.
      rewrite Z.div_mul by lia. lia. }
    assert (Hvalid0 : is_digit_string 16 (chr 48 :: top :: low) = true).
    { change (chr 48 :: top :: low) with ([chr 48] ++ top :: low).
      rewrite is_digit_string_app, Hvalid. reflexivity. }
    destruct (hex_bytes_spec n (chr 48 :: top :: low) Hn Hvalid0)
      as [Hcount [Hbytes Hfold]].
    split.
    + unfold minimal_big_endian. repeat split.
      * exact Hbytes.
      * unfold be_value. rewrite Hfold. cbn [fold_left]. exact Hvalue.
      * intros Hz. contradiction.
      * intros _. destruct n as [ | n']; [ simpl in Hn; lia | ].
        assert (Hpair : is_digit_string 16 [chr 48; top] = true)
          by exact (is_digit_string_firstn 16 2 _ Hvalid0).
        rewrite hex_bytes_head by exact Hpair.
        change (digit_of (chr 48)) with 0. lia.
    + unfold len. rewrite Hcount.
      assert (H2n : Z.of_nat (length (chr 48 :: top :: low))
                    = 2 * Z.of_nat n) by lia.
      cbn [length] in H2n. rewrite Hlow in H2n.
      unfold len in Hds. lia.
Qed.

(** ** The round function *)

Lemma mod_spec (n m : Z) : 0 < m -> mod_ n m = OK (n mod m).
Proof.
  intros Hm. unfold mod_, BigInt_rem.
  replace (m =? 0) with false by lia. cbn [rbind].
  replace (m =? 0) with false by lia. f_equal.
  pose proof (Z.rem_bound_abs n m ltac:(lia)) as Habs.
  rewrite Z.rem_mod_nonneg by lia.
  pose proof (Z.quot_rem' n m) as Hqr.
  replace (Z.rem n m + m) with (n + (1 - Z.quot n m) * m) by lia.
  apply Z.mod_add. lia.
Qed.

Lemma lxor_byte_table :
  forallb (fun w => forallb (fun i => is_byte (Z.lxor w i))
                            (map Z.of_nat (seq 0 8)))
          bytes = true.
Proof. vm_compute. reflexivity. Qed.

Lemma lxor_byte (w i : Z) :
  0 <= w < 256 -> 0 <= i <= 7 -> 0 <= Z.lxor w i < 256.
Proof.
  intros Hw Hi.
  pose proof (proj1 (forallb_forall _ _) lxor_byte_table w (in_bytes w Hw))
    as Hrow. cbv beta in Hrow.
  assert (Hin : In i (map Z.of_nat (seq 0 8))).
  { replace i with (Z.of_nat (Z.to_nat i)) by lia.
    apply in_map, in_seq. lia. }
  pose proof (proj1 (forallb_forall _ _) Hrow i Hin) as Hb.
  unfold is_byte in Hb. lia.
Qed.

Lemma calculateP_spec (i radix : Z) (W : list Z) (B : jsstring) :
  2 <= radix <= 36 ->
  B <> [] ->
  is_digit_string radix B = true ->
  radix_value radix (rev B) < 2 ^ 96 ->
  fits_block i radix W B.
Proof.
  intros Hr Hne HB Hval.
  assert (Hrevne : rev B <> []).
  { intros Heq. apply (f_equal (@rev ascii)) in Heq.
    rewrite rev_involutive in Heq. contradiction. }
  assert (Hrev : is_digit_string radix (rev B) = true)
    by (rewrite is_digit_string_rev; exact HB).
  pose proof (radix_value_bounds radix Hr (rev B) Hrev) as Hb.
  destruct (bigToUint8Array_spec (radix_value radix (rev B)) 12)
    as [Hmin Hlen]; [ lia | change (256 ^ 12) with (2 ^ 96); lia | ].
  exists (bigToUint8Array (radix_value radix (rev B))).
  split; [ lia | ]. split; [ exact Hmin | ]. split; [ exact Hlen | ].
  unfold calculateP, reverseString.
  rewrite (convertToBigInt_digit_string radix Hr (rev B) Hrevne Hrev).
  cbn [rbind]. fold (block_prefix i W).
  set (bs := bigToUint8Array (radix_value radix (rev B))) in *.
  clearbody bs. unfold len in Hlen. unfold typed_array_set, BLOCK_SIZE, len.
  change (Z.to_nat 16 - 4)%nat with 12%nat.
  rewrite length_app, repeat_length.
  change (length (block_prefix i W)) with 4%nat.
  change (Z.of_nat (4 + 12)) with 16.
  replace ((16 - Z.of_nat (length bs) <? 0)
           || (16 <? 16 - Z.of_nat (length bs) + Z.of_nat (length bs)))
    with false by (symmetry; apply orb_false_intro; lia).
  f_equal.
  replace (Z.to_nat (16 - Z.of_nat (length bs)))
    with (4 + (12 - length bs))%nat by lia.
  rewrite skipn_all2
    by (rewrite length_app, repeat_length;
        change (length (block_prefix i W)) with 4%nat; lia).
  rewrite app_nil_r, (app_assoc (block_prefix i W)). f_equal.
  rewrite firstn_app. change (length (block_prefix i W)) with 4%nat.
  rewrite firstn_all2 by (change (length (block_prefix i W)) with 4%nat; lia).
  f_equal.
  replace (4 + (12 - length bs) - 4)%nat with (12 - length bs)%nat by lia.
  assert (Hrep : repeat 0 12
                 = repeat 0 (12 - length bs) ++ repeat 0 (length bs)).
  { rewrite <- repeat_app. f_equal. lia. }
  rewrite Hrep, firstn_app, repeat_length, Nat.sub_diag.
  rewrite firstn_all2 by (rewrite repeat_length; lia).
  cbn [firstn]. apply app_nil_r.
Qed.

(** The zero padding of a rendered half: at most eight zeros. *)
Lemma zeros8_prefix (p : Z) :
  substring zeros8 0 p
  = map digit_char (repeat 0 (Nat.min (Z.to_nat p) 8)).
Proof.
  unfold substring. change (Z.to_nat 0) with 0%nat.
  rewrite Nat.sub_0_r. cbn [skipn].
  generalize (Z.to_nat p). intros n.
  do 9 (destruct n as [ | n]; [ reflexivity | ]).
  reflexivity.
Qed.

(** The rendering of a reduced value [c] as a half of [m] symbols. *)
Lemma rendered_half (radix c m : Z) :
  2 <= radix <= 36 ->
  1 <= m ->
  0 <= c < radix ^ m ->
  let C := reverseString (numeral c radix) in
  let C' := C ++ substring zeros8 0 (m - strlen C) in
  half_ok radix m C' /\
  radix_value radix (rev C') = c /\
  (m <= 9 -> len C' = m).
Proof.
  intros Hr Hm Hc.
  destruct (numeral_digits radix Hr c (proj1 Hc))
    as [ds [Hnum [Hne [Hin [Hval [_ Hlen]]]]]].
  specialize (Hlen m Hm (proj2 Hc)).
  cbv zeta. unfold reverseString. rewrite Hnum, <- map_rev, rev_involutive.
  rewrite zeros8_prefix. unfold strlen. rewrite length_map.
  set (q := Nat.min (Z.to_nat (m - Z.of_nat (length ds))) 8).
  rewrite <- map_app.
  assert (Hall : digits_in radix (ds ++ repeat 0 q) = true).
  { unfold digits_in in *. rewrite forallb_app, Hin.
    apply (digits_in_zeros radix Hr). }
  assert (Hpos : (0 < length ds)%nat)
    by (destruct ds; [ contradiction | simpl; lia ]).
  unfold len in Hlen.
  repeat split.
  - intros Heq. apply (f_equal (@length ascii)) in Heq.
    rewrite length_map, length_app in Heq. simpl in Heq. lia.
  - apply (digit_chars_valid radix Hr). exact Hall.
  - unfold len. rewrite length_map, length_app, repeat_length. lia.
  - rewrite <- map_rev, <- (rev_involutive (ds ++ repeat 0 q)) at 1.
    rewrite rev_involutive.
    rewrite (digit_chars_value radix Hr) by exact Hall.
    rewrite (le_value_app_zeros radix). exact Hval.
  - intros H9. unfold len.
    rewrite length_map, length_app, repeat_length. lia.
Qed.

(** ** Runs *)

Lemma bind_lift_OK {A B : Type} (a : A) (k : A -> run B) :
  bind (lift (OK a)) k = k a.
Proof. unfold bind, lift. destruct (k a). reflexivity. Qed.

Lemma bind_ret {A B : Type} (a : A) (k : A -> run B) :
  bind (ret a) k = k a.
Proof. unfold bind, ret. destruct (k a). reflexivity. Qed.

Lemma bind_update {B : Type} (E : oracle) (c : Cipher) (block : list Z)
  (k : list Z -> run B) :
  bind (update E c block) k
  = (fst (k (E c block)), block :: snd (k (E c block))).
Proof. unfold bind, update. destruct (k (E c block)). reflexivity. Qed.

Lemma half_ok_le (radix m u : Z) (s : jsstring) :
  m <= u -> half_ok radix m s -> half_ok radix u s.
Proof. unfold half_ok. intros Hmu [Hne [Hs Hlen]]. repeat split; auto. lia. Qed.

Section RoundFacts.

Variable E : oracle.
Variable this : FF3Cipher.
Variables u v : Z.
Variables Tl Tr : list Z.

Hypothesis E_answers : answers E (aesCipher this).
Hypothesis radix_range : 2 <= radix this <= 36.
Hypothesis halves_range : 1 <= v <= u.
Hypothesis capacity : radix this ^ u <= 2 ^ 96.

Lemma half_rev (s : jsstring) :
  half_ok (radix this) u s ->
  rev s <> [] /\
  is_digit_string (radix this) (rev s) = true /\
  0 <= radix_value (radix this) (rev s) < 2 ^ 96.
Proof.
  intros [Hne [Hs Hlen]].
  assert (Hrev : is_digit_string (radix this) (rev s) = true)
    by (rewrite is_digit_string_rev; exact Hs).
  repeat split.
  - intros Heq. apply (f_equal (@rev ascii)) in Heq.
    rewrite rev_involutive in Heq. contradiction.
  - exact Hrev.
  - apply (radix_value_bounds (radix this) radix_range (rev s) Hrev).
  - pose proof (radix_value_bounds (radix this) radix_range (rev s) Hrev)
      as Hb.
    assert (Hpow : radix this ^ len (rev s) <= radix this ^ u).
    { apply Z.pow_le_mono_r; [ lia | ].
      unfold len in *. rewrite length_rev. exact Hlen. }
    lia.
Qed.

Lemma half_fits (i : Z) (W : list Z) (s : jsstring) :
  half_ok (radix this) u s -> fits_block i (radix this) W s.
Proof.
  intros Hs. destruct (half_rev s Hs) as [_ [_ Hb]].
  destruct Hs as [Hne [Hs _]].
  apply calculateP_spec; [ exact radix_range | exact Hne | exact Hs | lia ].
Qed.

(** One round of [encrypt] on two well-formed halves: the block, the new
    half and its value. *)
Lemma encrypt_round_ok (i : Z) (A B : jsstring) :
  half_ok (radix this) u A ->
  half_ok (radix this) u B ->
  exists P C,
    calculateP i (radix this) (if i mod 2 =? 0 then Tr else Tl) B = OK P /\
    encrypt_round E this u v Tl Tr (radix this ^ u) (radix this ^ v) i (A, B)
    = (OK (B, C), [rev P]) /\
    half_ok (radix this) (if i mod 2 =? 0 then u else v) C /\
    radix_value (radix this) (rev C)
    = (radix_value (radix this) (rev A)
       + be_value (rev (E (aesCipher this) (rev P))))
      mod radix this ^ (if i mod 2 =? 0 then u else v) /\
    ((if i mod 2 =? 0 then u else v) <= 9 ->
     len C = if i mod 2 =? 0 then u else v).
Proof.
  intros HA HB.
  destruct (half_fits i (if i mod 2 =? 0 then Tr else Tl) B HB)
    as [bs [_ [_ [_ HP]]]].
  destruct (half_rev A HA) as [HAne [HAs HAv]].
  set (P := block_prefix i (if i mod 2 =? 0 then Tr else Tl)
            ++ repeat 0 (12 - length bs) ++ bs) in *.
  set (y := be_value (rev (E (aesCipher this) (rev P)))).
  set (m := if i mod 2 =? 0 then u else v).
  assert (Hm : 1 <= m <= u) by (subst m; destruct (i mod 2 =? 0); lia).
  assert (Hmod : 0 < radix this ^ m) by (apply Z.pow_pos_nonneg; lia).
  set (c := (radix_value (radix this) (rev A) + y) mod radix this ^ m).
  assert (Hc : 0 <= c < radix this ^ m)
    by (subst c; apply Z.mod_pos_bound; exact Hmod).
  destruct (rendered_half (radix this) c m radix_range (proj1 Hm) Hc)
    as [HCok [HCval HClen]].
  cbv zeta in HCok, HCval, HClen.
  exists P.
  exists (reverseString (numeral c (radix this))
          ++ substring zeros8 0
               (m - strlen (reverseString (numeral c (radix this))))).
  split; [ exact HP | ]. split; [ | split; [ exact HCok | split;
    [ exact HCval | exact HClen ] ] ].
  unfold encrypt_round. rewrite HP, bind_lift_OK, bind_update.
  assert (HS : BigInt_of_hex_of_bytes (rev (E (aesCipher this) (rev P)))
               = OK y).
  { unfold BigInt_of_hex_of_bytes.
    destruct (rev (E (aesCipher this) (rev P))) eqn:Hrev; [ | reflexivity ].
    apply (f_equal (@rev Z)) in Hrev. rewrite rev_involutive in Hrev.
    exfalso. exact (E_answers _ Hrev). }
  rewrite HS, bind_lift_OK. change (reverseString A) with (rev A).
  rewrite (convertToBigInt_digit_string (radix this) radix_range
             (rev A) HAne HAs).
  cbn [try_catch]. rewrite bind_lift_OK.
  assert (Hred : (if i mod 2 =? 0
                  then mod_ (radix_value (radix this) (rev A) + y)
                            (radix this ^ u)
                  else mod_ (radix_value (radix this) (rev A) + y)
                            (radix this ^ v))
                 = OK c).
  { subst c m. destruct (i mod 2 =? 0); apply mod_spec; exact Hmod. }
  rewrite Hred, bind_lift_OK.
  unfold BigInt_toString.
  replace ((radix this <? 2) || (36 <? radix this)) with false
    by (symmetry; apply orb_false_intro; lia).
  rewrite bind_lift_OK. reflexivity.
Qed.

(** One round of [decrypt], likewise. *)
Lemma decrypt_round_ok (i : Z) (A B : jsstring) :
  half_ok (radix this) u A ->
  half_ok (radix this) u B ->
  exists P C,
    calculateP i (radix this) (if i mod 2 =? 0 then Tr else Tl) A = OK P /\
    decrypt_round E this u v Tl Tr (radix this ^ u) (radix this ^ v) i (A, B)
    = (OK (C, A), [rev P]) /\
    half_ok (radix this) (if i mod 2 =? 0 then u else v) C /\
    radix_value (radix this) (rev C)
    = (radix_value (radix this) (rev B)
       - be_value (rev (E (aesCipher this) (rev P))))
      mod radix this ^ (if i mod 2 =? 0 then u else v) /\
    ((if i mod 2 =? 0 then u else v) <= 9 ->
     len C = if i mod 2 =? 0 then u else v).
Proof.
  intros HA HB.
  destruct (half_fits i (if i mod 2 =? 0 then Tr else Tl) A HA)
    as [bs [_ [_ [_ HP]]]].
  destruct (half_rev B HB) as [HBne [HBs HBv]].
  set (P := block_prefix i (if i mod 2 =? 0 then Tr else Tl)
            ++ repeat 0 (12 - length bs) ++ bs) in *.
  set (y := be_value (rev (E (aesCipher this) (rev P)))).
  set (m := if i mod 2 =? 0 then u else v).
  assert (Hm : 1 <= m <= u) by (subst m; destruct (i mod 2 =? 0); lia).
  assert (Hmod : 0 < radix this ^ m) by (apply Z.pow_pos_nonneg; lia).
  set (c := (radix_value (radix this) (rev B) - y) mod radix this ^ m).
  assert (Hc : 0 <= c < radix this ^ m)
    by (subst c; apply Z.mod_pos_bound; exact Hmod).
  destruct (rendered_half (radix this) c m radix_range (proj1 Hm) Hc)
    as [HCok [HCval HClen]].
  cbv zeta in HCok, HCval, HClen.
  exists P.
  exists (reverseString (numeral c (radix this))
          ++ substring zeros8 0
               (m - strlen (reverseString (numeral c (radix this))))).
  split; [ exact HP | ]. split; [ | split; [ exact HCok | split;
    [ exact HCval | exact HClen ] ] ].
  unfold decrypt_round. rewrite HP, bind_lift_OK, bind_update.
  assert (HS : BigInt_of_hex_of_bytes (rev (E (aesCipher this) (rev P)))
               = OK y).
  { unfold BigInt_of_hex_of_bytes.
    destruct (rev (E (aesCipher this) (rev P))) eqn:Hrev; [ | reflexivity ].
    apply (f_equal (@rev Z)) in Hrev. rewrite rev_involutive in Hrev.
    exfalso. exact (E_answers _ Hrev). }
  rewrite HS, bind_lift_OK. change (reverseString B) with (rev B).
  rewrite (convertToBigInt_digit_string (radix this) radix_range
             (rev B) HBne HBs).
  cbn [try_catch]. rewrite bind_lift_OK.
  assert (Hred : (if i mod 2 =? 0
                  then mod_ (radix_value (radix this) (rev B) - y)
                            (radix this ^ u)
                  else mod_ (radix_value (radix this) (rev B) - y)
                            (radix this ^ v))
                 = OK c).
  { subst c m. destruct (i mod 2 =? 0); apply mod_spec; exact Hmod. }
  rewrite Hred, bind_lift_OK.
  unfold BigInt_toString.
  replace ((radix this <? 2) || (36 <? radix this)) with false
    by (symmetry; apply orb_false_intro; lia).
  rewrite bind_lift_OK. reflexivity.
Qed.

End RoundFacts.

(** ** The constructor and the guards *)

Lemma Buffer_from_hex_bytes (s : jsstring) :
  forallb is_byte (Buffer_from_hex s) = true.
Proof.
  assert (Hall : forall n s', (length s' <= n)%nat ->
                   forallb is_byte (Buffer_from_hex s') = true).
  { induction n as [ | n IH]; intros s' Hn.
    - destruct s'; [ reflexivity | simpl in Hn; lia ].
    - destruct s' as [ | a [ | b s'']]; try reflexivity.
      cbn [Buffer_from_hex]. unfold hex_value.
      destruct (digit_value a) as [x | ] eqn:Hx; [ | reflexivity ].
      destruct (x <? 16) eqn:Hx16; [ | reflexivity ].
      destruct (digit_value b) as [y | ] eqn:Hy; [ | reflexivity ].
      destruct (y <? 16) eqn:Hy16; [ | reflexivity ].
      cbn [forallb]. rewrite IH by (simpl in Hn; lia).
      pose proof (digit_value_range a x Hx).
      pose proof (digit_value_range b y Hy).
      unfold is_byte. rewrite andb_true_r.
      apply andb_true_intro. split; lia. }
  apply (Hall (length s)). lia.
Qed.

Lemma new_never_InvalidTweakLength (key tweak : jsstring) (r l : Z) :
  new key tweak r <> Throw (InvalidTweakLength l).
Proof.
  unfold new, rbind. cbv zeta.
  destruct (len (rev (Buffer_from_hex key)) =? 16);
    [ | destruct (len (rev (Buffer_from_hex key)) =? 24);
        [ | destruct (len (rev (Buffer_from_hex key)) =? 32);
            [ | discriminate ] ] ];
    (destruct ((r <? 2) || (r >? MAX_RADIX)); [ discriminate | ];
     destruct (flt (minLen_of_radix r) f_two
               || flt (maxLen_of_radix r) (minLen_of_radix r));
     discriminate).
Qed.

Lemma guards_message_length (this : FF3Cipher) (n : Z) :
  n < minLen this \/ maxLen this < n ->
  guards this n = throw (InvalidMessageLength n (minLen this) (maxLen this)).
Proof.
  intros Hn. unfold guards.
  replace ((n <? minLen this) || (n >? maxLen this)) with true;
    [ reflexivity | ].
  symmetry. apply orb_true_iff. lia.
Qed.

Lemma guards_tweak_length (this : FF3Cipher) (n : Z) :
  minLen this <= n <= maxLen this ->
  len (tweakBytes this) <> TWEAK_LEN ->
  len (tweakBytes this) <> TWEAK_LEN_NEW ->
  guards this n = throw (InvalidTweakLength (len (tweakBytes this))).
Proof.
  intros Hn H8 H7. unfold guards.
  replace ((n <? minLen this) || (n >? maxLen this)) with false
    by (symmetry; apply orb_false_intro; lia).
  replace (len (tweakBytes this) =? TWEAK_LEN) with false by lia.
  replace (len (tweakBytes this) =? TWEAK_LEN_NEW) with false by lia.
  reflexivity.
Qed.

Lemma guards_pass (this : FF3Cipher) (n : Z) :
  minLen this <= n <= maxLen this ->
  len (tweakBytes this) = TWEAK_LEN ->
  guards this n = ret tt.
Proof.
  intros Hn H8. unfold guards.
  replace ((n <? minLen this) || (n >? maxLen this)) with false
    by (symmetry; apply orb_false_intro; lia).
  rewrite H8. reflexivity.
Qed.

Lemma new_sample : new sample_key sample_tweak 10 = OK sample_cipher.
Proof. vm_compute. reflexivity. Qed.

(** ** Claims about single functions *)

(** C6: for every integer [n] and positive [m], [mod(n, m)] returns the
    Euclidean remainder: a value [r] with [0 <= r < m] that differs from
    [n] by a multiple of [m]; so a negative difference in a decrypt round
    is reduced to a nonnegative value. *)
Theorem C6_mod_is_euclidean (n m : Z) :
  0 < m ->
  exists r,
    mod_ n m = OK r /\ 0 <= r < m /\ (exists q, n = q * m + r).
Proof.
  intros Hm. exists (n mod m). split; [ apply mod_spec; exact Hm | ].
  split; [ apply Z.mod_pos_bound; exact Hm | ].
  exists (n / m). pose proof (Z.div_mod n m ltac:(lia)). lia.
Qed.

Lemma C6_witness :
  exists r,
    mod_ (706456850 - 316291629567414359958402343312719325709) 1000000000
    = OK r /\
    0 <= r < 1000000000 /\
    (exists q,
       706456850 - 316291629567414359958402343312719325709
       = q * 1000000000 + r).
Proof.
  apply (C6_mod_is_euclidean
           (706456850 - 316291629567414359958402343312719325709)
           1000000000).
  lia.
Defined.

(** The value the test suite expects of [mod] on a negative difference. *)
Example mod_test_vector :
  mod_ (706456850 - 316291629567414359958402343312719325709) 1000000000
  = OK 987131141.
Proof. vm_compute. reflexivity. Qed.

Lemma nibble_table :
  forallb (fun t =>
             (Z.land t 0xF0 <? 256) && (0 <=? Z.land t 0xF0)
             && (Z.shiftl (Z.land t 0x0F) 4 <? 256)
             && (0 <=? Z.shiftl (Z.land t 0x0F) 4)
             && (Z.lor (Z.land t 0xF0)
                       (Z.shiftr (Z.shiftl (Z.land t 0x0F) 4) 4) =? t)
             && (Z.land (Z.land t 0xF0) 0x0F =? 0)
             && (Z.land (Z.shiftl (Z.land t 0x0F) 4) 0x0F =? 0))
          bytes = true.
Proof. vm_compute. reflexivity. Qed.

(** C4: for a 7-byte tweak [t0 .. t6] the expanded tweak is
    [t0 t1 t2 (t3 & 0xF0) t4 t5 t6 ((t3 & 0x0F) << 4)]; the two new low
    nibbles are zero and [t3] is recovered from bytes 3 and 7, so all 56
    bits are kept; the constructor expands a tweak that decodes to 7 bytes
    and passes one that decodes to 8 bytes through unchanged. *)
Theorem C4_tweak_expansion
  (t0 t1 t2 t3 t4 t5 t6 : Z) (key tweak : jsstring) (r : Z)
  (this : FF3Cipher) :
  forallb is_byte [t0; t1; t2; t3; t4; t5; t6] = true ->
  new key tweak r = OK this ->
  calculateTweak64_FF3_1 [t0; t1; t2; t3; t4; t5; t6]
  = [ t0; t1; t2; Z.land t3 0xF0; t4; t5; t6;
      Z.shiftl (Z.land t3 0x0F) 4 ] /\
  Z.land (Z.land t3 0xF0) 0x0F = 0 /\
  Z.land (Z.shiftl (Z.land t3 0x0F) 4) 0x0F = 0 /\
  Z.lor (Z.land t3 0xF0) (Z.shiftr (Z.shiftl (Z.land t3 0x0F) 4) 4) = t3 /\
  (len (Buffer_from_hex tweak) = 7 ->
   tweakBytes this = calculateTweak64_FF3_1 (Buffer_from_hex tweak)) /\
  (len (Buffer_from_hex tweak) = 8 ->
   tweakBytes this = Buffer_from_hex tweak).
Proof.
  intros Ht Hnew. cbn [forallb] in Ht. unfold is_byte in Ht.
  repeat (apply andb_prop in Ht; destruct Ht as [? Ht]).
  assert (Hbyte3 : 0 <= t3 < 256) by lia.
  pose proof (proj1 (forallb_forall _ _) nibble_table t3 (in_bytes t3 Hbyte3))
    as Hn. cbv beta in Hn.
  repeat (apply andb_prop in Hn; destruct Hn as [Hn ?]).
  destruct (new_inv key tweak r this Hnew) as [_ [_ [_ [_ [Htw _]]]]].
  split; [ | split; [ lia | split; [ lia | split; [ lia | split ] ] ] ].
  - unfold calculateTweak64_FF3_1, byte_at. cbn [nth].
    rewrite !u8_small by lia. reflexivity.
  - intros Hseven. rewrite Htw. unfold TWEAK_LEN_NEW. rewrite Hseven.
    reflexivity.
  - intros Height. rewrite Htw. unfold TWEAK_LEN_NEW. rewrite Height.
    reflexivity.
Qed.

Lemma C4_witness :
  calculateTweak64_FF3_1 [216; 231; 146; 10; 250; 51; 10]
  = [ 216; 231; 146; Z.land 10 0xF0; 250; 51; 10;
      Z.shiftl (Z.land 10 0x0F) 4 ] /\
  Z.land (Z.land 10 0xF0) 0x0F = 0 /\
  Z.land (Z.shiftl (Z.land 10 0x0F) 4) 0x0F = 0 /\
  Z.lor (Z.land 10 0xF0) (Z.shiftr (Z.shiftl (Z.land 10 0x0F) 4) 4) = 10 /\
  (len (Buffer_from_hex sample_tweak) = 7 ->
   tweakBytes sample_cipher
   = calculateTweak64_FF3_1 (Buffer_from_hex sample_tweak)) /\
  (len (Buffer_from_hex sample_tweak) = 8 ->
   tweakBytes sample_cipher = Buffer_from_hex sample_tweak).
Proof.
  apply (C4_tweak_expansion 216 231 146 10 250 51 10
           sample_key sample_tweak 10 sample_cipher).
  - vm_compute. reflexivity.
  - vm_compute. reflexivity.
Defined.

(** The expansion of the 56-bit tweak of the FF3-1 sample. *)
Example tweak56_expanded :
  option_map tweakBytes
    (match new sample_key sample_tweak56 10 with
     | OK this => Some this
     | Throw _ => None
     end)
  = Some [216; 231; 146; 0; 250; 51; 10; 160].
Proof. vm_compute. reflexivity. Qed.

(** C8: for every context and every input whose length is below [minLen]
    or above [maxLen], [encrypt] and [decrypt] throw the message-length
    error; no block has been passed to the cipher and no string is
    returned. *)
Theorem C8_length_guard_first
  (E : oracle) (this : FF3Cipher) (text : jsstring) :
  strlen text < minLen this \/ maxLen this < strlen text ->
  encrypt E this text
  = (Throw (InvalidMessageLength (strlen text) (minLen this) (maxLen this)),
     []) /\
  decrypt E this text
  = (Throw (InvalidMessageLength (strlen text) (minLen this) (maxLen this)),
     []).
Proof.
  intros Hn. unfold encrypt, decrypt, encrypt_loop, decrypt_loop.
  rewrite (guards_message_length this (strlen text) Hn).
  split; reflexivity.
Qed.

Lemma C8_witness :
  encrypt AES_ECB sample_cipher (str "12345")
  = (Throw (InvalidMessageLength (strlen (str "12345"))
              (minLen sample_cipher) (maxLen sample_cipher)), []) /\
  decrypt AES_ECB sample_cipher (str "12345")
  = (Throw (InvalidMessageLength (strlen (str "12345"))
              (minLen sample_cipher) (maxLen sample_cipher)), []).
Proof.
  apply (C8_length_guard_first AES_ECB sample_cipher (str "12345")).
  left. vm_compute. reflexivity.
Defined.

Lemma encrypt_round_ext (E1 E2 : oracle) (this : FF3Cipher)
  (u v : Z) (Tl Tr : list Z) (modU modV : Z) :
  (forall block, E1 (aesCipher this) block = E2 (aesCipher this) block) ->
  forall i AB,
    encrypt_round E1 this u v Tl Tr modU modV i AB
    = encrypt_round E2 this u v Tl Tr modU modV i AB.
Proof.
  intros HE i [A B]. unfold encrypt_round, update.
  destruct (calculateP i (radix this) (if i mod 2 =? 0 then Tr else Tl) B)
    as [P | e]; [ | reflexivity ].
  rewrite !bind_lift_OK. rewrite HE. reflexivity.
Qed.

Lemma decrypt_round_ext (E1 E2 : oracle) (this : FF3Cipher)
  (u v : Z) (Tl Tr : list Z) (modU modV : Z) :
  (forall block, E1 (aesCipher this) block = E2 (aesCipher this) block) ->
  forall i AB,
    decrypt_round E1 this u v Tl Tr modU modV i AB
    = decrypt_round E2 this u v Tl Tr modU modV i AB.
Proof.
  intros HE i [A B]. unfold decrypt_round, update.
  destruct (calculateP i (radix this) (if i mod 2 =? 0 then Tr else Tl) A)
    as [P | e]; [ | reflexivity ].
  rewrite !bind_lift_OK. rewrite HE. reflexivity.
Qed.

(** The key of the first NIST sample, as the cipher object holds it. *)
Example sample_key_reversed :
  cipher_key (aesCipher sample_cipher) = rev (Buffer_from_hex sample_key).
Proof. vm_compute. reflexivity. Qed.

(** C3, as stated, fails: a tweak that decodes to five bytes passes the
    constructor, which returns a context holding those five bytes. *)
Lemma C3_counterexample :
  len (Buffer_from_hex five_byte_tweak) = 5 /\
  new sample_key five_byte_tweak 10
  = OK {| radix := 10; minLen := 6; maxLen := 56;
          tweakBytes := [216; 231; 146; 10; 250];
          aesCipher := aesCipher sample_cipher |}.
Proof. vm_compute. split; reflexivity. Qed.

(** C3, amended: the constructor never checks the tweak length; a context
    built from a tweak that decodes to neither 7 nor 8 bytes keeps the
    decoded bytes, and every [encrypt] or [decrypt] call on it with a
    message length within the bounds throws the tweak-length error before
    any block is passed to the cipher. *)
Theorem C3_tweak_length_checked_per_call
  (E : oracle) (key tweak : jsstring) (r : Z) (this : FF3Cipher)
  (text : jsstring) :
  new key tweak r = OK this ->
  len (Buffer_from_hex tweak) <> 7 ->
  len (Buffer_from_hex tweak) <> 8 ->
  minLen this <= strlen text <= maxLen this ->
  tweakBytes this = Buffer_from_hex tweak /\
  encrypt E this text
  = (Throw (InvalidTweakLength (len (Buffer_from_hex tweak))), []) /\
  decrypt E this text
  = (Throw (InvalidTweakLength (len (Buffer_from_hex tweak))), []).
Proof.
  intros Hnew Hseven Height Hn.
  destruct (new_inv key tweak r this Hnew) as [_ [_ [_ [_ [Htw _]]]]].
  unfold TWEAK_LEN_NEW in Htw.
  replace (len (Buffer_from_hex tweak) =? 7) with false in Htw by lia.
  split; [ exact Htw | ].
  unfold encrypt, decrypt, encrypt_loop, decrypt_loop.
  rewrite (guards_tweak_length this (strlen text) Hn)
    by (rewrite Htw; unfold TWEAK_LEN, TWEAK_LEN_NEW; lia).
  rewrite Htw. split; reflexivity.
Qed.

Lemma C3_witness :
  tweakBytes (mkFF3Cipher 10 6 56 [216; 231; 146; 10; 250]
                          (aesCipher sample_cipher))
  = Buffer_from_hex five_byte_tweak /\
  encrypt AES_ECB
    (mkFF3Cipher 10 6 56 [216; 231; 146; 10; 250] (aesCipher sample_cipher))
    (str "890121234567890000")
  = (Throw (InvalidTweakLength (len (Buffer_from_hex five_byte_tweak))), []) /\
  decrypt AES_ECB
    (mkFF3Cipher 10 6 56 [216; 231; 146; 10; 250] (aesCipher sample_cipher))
    (str "890121234567890000")
  = (Throw (InvalidTweakLength (len (Buffer_from_hex five_byte_tweak))), []).
Proof.
  apply (C3_tweak_length_checked_per_call AES_ECB sample_key five_byte_tweak
           10 _ (str "890121234567890000")).
  - vm_compute. reflexivity.
  - vm_compute. discriminate.
  - vm_compute. discriminate.
  - vm_compute. split; discriminate.
Defined.

(** C7: the two lengths a context holds are the least exponent [minLen]
    with [radix ^ minLen >= 1000000] and twice the greatest exponent [k]
    with [radix ^ k <= 2 ^ 96]; radix 10 gives 6 and 56, radix 26 gives 5
    and 40, radix 36 gives 4 and 36. *)
Theorem C7_length_bounds
  (key tweak : jsstring) (r : Z) (this : FF3Cipher) :
  new key tweak r = OK this ->
  (r ^ (minLen this - 1) < 1000000 <= r ^ minLen this) /\
  (exists k, maxLen this = 2 * k /\ r ^ k <= 2 ^ 96 < r ^ (k + 1)) /\
  (r = 10 -> minLen this = 6 /\ maxLen this = 56) /\
  (r = 26 -> minLen this = 5 /\ maxLen this = 40) /\
  (r = 36 -> minLen this = 4 /\ maxLen this = 36).
Proof.
  intros Hnew.
  destruct (new_inv key tweak r this Hnew) as [Hr [_ [Hmin [Hmax _]]]].
  pose proof (bounds_of_radix r Hr) as Hb.
  rewrite <- Hmin, <- Hmax in Hb. unfold bounds_match, DOMAIN_MIN in Hb.
  repeat (apply andb_prop in Hb; destruct Hb as [Hb ?]).
  split; [ lia | ]. split.
  - exists (maxLen this / 2). split; [ | lia ].
    pose proof (Z.div_mod (maxLen this) 2 ltac:(lia)). lia.
  - rewrite Hmin, Hmax.
    split; [ | split ]; intros Heq; subst r; vm_compute; split; reflexivity.
Qed.

Lemma C7_witness :
  (10 ^ (minLen sample_cipher - 1) < 1000000 <= 10 ^ minLen sample_cipher) /\
  (exists k, maxLen sample_cipher = 2 * k /\ 10 ^ k <= 2 ^ 96 < 10 ^ (k + 1)) /\
  (10 = 10 -> minLen sample_cipher = 6 /\ maxLen sample_cipher = 56) /\
  (10 = 26 -> minLen sample_cipher = 5 /\ maxLen sample_cipher = 40) /\
  (10 = 36 -> minLen sample_cipher = 4 /\ maxLen sample_cipher = 36).
Proof.
  apply (C7_length_bounds sample_key sample_tweak 10 sample_cipher).
  vm_compute. reflexivity.
Defined.

(** The bounds of the three radices the source comments on. *)
Example bounds_10_26_36 :
  map (fun r => (length_of_double (minLen_of_radix r),
                 length_of_double (maxLen_of_radix r))) [10; 26; 36]
  = [(6, 56); (5, 40); (4, 36)].
Proof. vm_compute. reflexivity. Qed.

(** ** The engine on concrete inputs *)

(** The block cipher on the ECB-AES128 vector of the test suite. *)
Example aes_128_vector :
  AES.encrypt_block
    (Buffer_from_hex (str "2b7e151628aed2a6abf7158809cf4f3c"))
    (Buffer_from_hex (str "6bc1bee22e409f96e93d7e117393172a"))
  = Buffer_from_hex (str "3ad77bb40d7a3660a89ecaf32466ef97").
Proof. vm_compute. reflexivity. Qed.

(** The round block of NIST sample 1, round 0, as the test suite has it. *)
Example calculateP_vector :
  calculateP 0 10 (Buffer_from_hex (str "FA330A73")) (str "567890000")
  = OK [250; 51; 10; 115; 0; 0; 0; 0; 0; 0; 0; 0; 0; 1; 129; 205].
Proof. vm_compute. reflexivity. Qed.

(** NIST sample 1 (radix 10, 64-bit tweak), both directions. *)
Example nist_vector_1 :
  fst (encrypt AES_ECB sample_cipher (str "890121234567890000"))
  = OK (str "750918814058654607") /\
  fst (decrypt AES_ECB sample_cipher (str "750918814058654607"))
  = OK (str "890121234567890000").
Proof. vm_compute. split; reflexivity. Qed.

(** NIST sample 5 (radix 26). *)
Example nist_vector_radix_26 :
  rbind (new sample_key (str "9A768A92F60E12D8") 26)
        (fun this => fst (encrypt AES_ECB this (str "0123456789abcdefghi")))
  = OK (str "g2pk40i992fn20cjakb").
Proof. vm_compute. reflexivity. Qed.

(** The FF3-1 sample with a 56-bit tweak. *)
Example ff3_1_vector :
  rbind (new sample_key sample_tweak56 10)
        (fun this => fst (encrypt AES_ECB this (str "890121234567890000")))
  = OK (str "477064185124354662").
Proof. vm_compute. reflexivity. Qed.

(** The 192-bit and 256-bit keys of NIST samples 6 and 11. *)
Example nist_vectors_192_256 :
  rbind (new (str "EF4359D8D580AA4F7F036D6F04FC6A942B7E151628AED2A6")
             sample_tweak 10)
        (fun this => fst (encrypt AES_ECB this (str "890121234567890000")))
  = OK (str "646965393875028755") /\
  rbind (new (str
          "EF4359D8D580AA4F7F036D6F04FC6A942B7E151628AED2A6ABF7158809CF4F3C")
             sample_tweak 10)
        (fun this => fst (encrypt AES_ECB this (str "890121234567890000")))
  = OK (str "922011205562777495").
Proof. vm_compute. split; reflexivity. Qed.

(** C1 on the code: with the key and tweak of NIST sample 1 and radix 10,
    the twenty-digit plaintext 98783261484656051529 is within the bounds,
    [encrypt] returns the nineteen symbols 1234567890500000000, and
    [decrypt] of those returns 8201602172131860708, not the plaintext. *)
Theorem C1_roundtrip_lost_by_short_padding :
  new sample_key sample_tweak 10 = OK sample_cipher /\
  is_digit_string 10 short_pad_plaintext = true /\
  minLen sample_cipher <= strlen short_pad_plaintext <= maxLen sample_cipher /\
  fst (encrypt AES_ECB sample_cipher short_pad_plaintext)
  = OK short_pad_ciphertext /\
  fst (decrypt AES_ECB sample_cipher short_pad_ciphertext)
  = OK short_pad_decrypted /\
  short_pad_decrypted <> short_pad_plaintext.
Proof.
  split; [ vm_compute; reflexivity | ].
  split; [ vm_compute; reflexivity | ].
  split; [ vm_compute; split; discriminate | ].
  split; [ vm_compute; reflexivity | ].
  split; [ vm_compute; reflexivity | ].
  vm_compute. discriminate.
Qed.

(** C2 on the code: for the same context and plaintext the last round
    reduces to the value 5, which is rendered with eight padding zeros:
    nine symbols where the half has ten; the ciphertext has nineteen
    symbols for a plaintext of twenty.  Its symbols are decimal digits. *)
Theorem C2_length_lost_by_short_padding :
  fst (encrypt_loop AES_ECB sample_cipher short_pad_plaintext round_indices)
  = OK (str "1234567890", str "500000000") /\
  ceil_half (strlen short_pad_plaintext) = 10 /\
  strlen short_pad_plaintext = 20 /\
  fst (encrypt AES_ECB sample_cipher short_pad_plaintext)
  = OK short_pad_ciphertext /\
  strlen short_pad_ciphertext = 19 /\
  is_digit_string 10 short_pad_ciphertext = true.
Proof.
  split; [ vm_compute; reflexivity | ].
  split; [ vm_compute; reflexivity | ].
  split; [ vm_compute; reflexivity | ].
  split; [ vm_compute; reflexivity | ].
  split; vm_compute; reflexivity.
Qed.

(** ** The loops *)

Section LoopFacts.

Variable E : oracle.
Variable this : FF3Cipher.
Variables u v : Z.
Variables Tl Tr : list Z.

Hypothesis E_answers : answers E (aesCipher this).
Hypothesis radix_range : 2 <= radix this <= 36.
Hypothesis halves_range : 1 <= v <= u.
Hypothesis capacity : radix this ^ u <= 2 ^ 96.

Lemma half_of_round (i : Z) (C : jsstring) :
  half_ok (radix this) (if i mod 2 =? 0 then u else v) C ->
  half_ok (radix this) u C.
Proof.
  apply half_ok_le. destruct (i mod 2 =? 0); lia.
Qed.

(** The loops keep both halves well formed and never throw. *)
Lemma encrypt_rounds_ok (ix : list Z) :
  forall A B,
    half_ok (radix this) u A ->
    half_ok (radix this) u B ->
    exists A' B' blocks,
      rounds (encrypt_round E this u v Tl Tr
                (radix this ^ u) (radix this ^ v)) ix (A, B)
      = (OK (A', B'), blocks) /\
      half_ok (radix this) u A' /\ half_ok (radix this) u B'.
Proof.
  induction ix as [ | i ix IH]; intros A B HA HB.
  - exists A, B, []. split; [ reflexivity | split; assumption ].
  - destruct (encrypt_round_ok E this u v Tl Tr E_answers radix_range
                halves_range capacity i A B HA HB)
      as [P [C [_ [Hround [HC _]]]]].
    apply half_of_round in HC.
    destruct (IH B C HB HC) as [A' [B' [blocks [Hrest [HA' HB']]]]].
    exists A', B', (rev P :: blocks).
    cbn [rounds]. rewrite Hround. unfold bind. rewrite Hrest.
    split; [ reflexivity | split; assumption ].
Qed.

Lemma decrypt_rounds_ok (ix : list Z) :
  forall A B,
    half_ok (radix this) u A ->
    half_ok (radix this) u B ->
    exists A' B' blocks,
      rounds (decrypt_round E this u v Tl Tr
                (radix this ^ u) (radix this ^ v)) ix (A, B)
      = (OK (A', B'), blocks) /\
      half_ok (radix this) u A' /\ half_ok (radix this) u B'.
Proof.
  induction ix as [ | i ix IH]; intros A B HA HB.
  - exists A, B, []. split; [ reflexivity | split; assumption ].
  - destruct (decrypt_round_ok E this u v Tl Tr E_answers radix_range
                halves_range capacity i A B HA HB)
      as [P [C [_ [Hround [HC _]]]]].
    apply half_of_round in HC.
    destruct (IH C A HC HA) as [A' [B' [blocks [Hrest [HA' HB']]]]].
    exists A', B', (rev P :: blocks).
    cbn [rounds]. rewrite Hround. unfold bind. rewrite Hrest.
    split; [ reflexivity | split; assumption ].
Qed.

End LoopFacts.

(** What a context and an in-bounds length give the loops. *)
Lemma context_facts (key tweak : jsstring) (r : Z) (this : FF3Cipher)
  (n : Z) :
  new key tweak r = OK this ->
  minLen this <= n <= maxLen this ->
  2 <= radix this <= 36 /\
  radix this = r /\
  2 <= n /\
  1 <= n - ceil_half n <= ceil_half n /\
  radix this ^ ceil_half n <= 2 ^ 96.
Proof.
  intros Hnew Hn.
  destruct (new_inv key tweak r this Hnew) as [Hr [Hrad [Hmin [Hmax _]]]].
  pose proof (bounds_of_radix r Hr) as Hb.
  rewrite <- Hmin, <- Hmax in Hb. unfold bounds_match in Hb.
  repeat (apply andb_prop in Hb; destruct Hb as [Hb ?]).
  unfold ceil_half.
  pose proof (Z.div_mod (n + 1) 2 ltac:(lia)) as Hdm.
  pose proof (Z.mod_pos_bound (n + 1) 2 ltac:(lia)) as Hmb.
  pose proof (Z.div_mod (maxLen this) 2 ltac:(lia)) as Hdm'.
  rewrite Hrad. repeat split; try lia.
  apply Z.le_trans with (r ^ (maxLen this / 2)); [ | lia ].
  apply Z.pow_le_mono_r; lia.
Qed.

Lemma tweak_length_of_new (key tweak : jsstring) (r : Z) (this : FF3Cipher) :
  new key tweak r = OK this ->
  len (Buffer_from_hex tweak) = 7 \/ len (Buffer_from_hex tweak) = 8 ->
  len (tweakBytes this) = TWEAK_LEN.
Proof.
  intros Hnew Hlen.
  destruct (new_inv key tweak r this Hnew) as [_ [_ [_ [_ [Htw _]]]]].
  rewrite Htw. unfold TWEAK_LEN_NEW.
  destruct Hlen as [Hlen | Hlen]; rewrite Hlen.
  - reflexivity.
  - exact Hlen.
Qed.

Lemma initial_halves (radix : Z) (text : jsstring) :
  is_digit_string radix text = true ->
  1 <= strlen text - ceil_half (strlen text) <= ceil_half (strlen text) ->
  half_exact radix (ceil_half (strlen text))
    (substring text 0 (ceil_half (strlen text))) /\
  half_exact radix (strlen text - ceil_half (strlen text))
    (substring_from text (ceil_half (strlen text))).
Proof.
  intros Hs Hu. unfold half_exact, substring, substring_from, len, strlen in *.
  change (Z.to_nat 0) with 0%nat. rewrite Nat.sub_0_r. cbn [skipn].
  repeat split.
  - apply is_digit_string_firstn. exact Hs.
  - rewrite length_firstn. lia.
  - apply is_digit_string_skipn. exact Hs.
  - rewrite length_skipn. lia.
Qed.

Lemma half_exact_ok (radix m u : Z) (s : jsstring) :
  1 <= m <= u -> half_exact radix m s -> half_ok radix u s.
Proof.
  unfold half_exact, half_ok, len. intros Hm [Hs Hlen].
  repeat split; [ | exact Hs | lia ].
  intros Heq. subst s. simpl in Hlen. lia.
Qed.

(** ** Claims about the round block *)

(** C5, as stated, fails: on a half of thirty nines in radix 10 the value
    takes thirteen bytes, and byte 3 of the block is the first of them,
    not [W[3] XOR i]. *)
Lemma C5_counterexample :
  is_digit_string 10 thirty_nines = true /\
  calculateP 0 10 [1; 2; 3; 4] thirty_nines
  = OK [1; 2; 3; 12; 159; 44; 156; 208; 70; 116; 237; 234; 63; 255; 255; 255] /\
  12 <> Z.lxor 4 0.
Proof. vm_compute. repeat split; try reflexivity. discriminate. Qed.

(** C5, amended: for every round index [i] in 0..7, radix in 2..36,
    4-byte tweak half [W] and nonempty digit-string half [B] whose
    digit-reversed value is below [2^96], the block is [W[0..2]], then
    [W[3] XOR i], then zeros, then the minimal big-endian bytes of that
    value, sixteen bytes in all. *)
Theorem C5_round_block
  (i radix w0 w1 w2 w3 : Z) (B : jsstring) :
  0 <= i <= 7 ->
  2 <= radix <= 36 ->
  forallb is_byte [w0; w1; w2; w3] = true ->
  B <> [] ->
  is_digit_string radix B = true ->
  radix_value radix (rev B) < 2 ^ 96 ->
  exists bs,
    minimal_big_endian (radix_value radix (rev B)) bs /\
    1 <= len bs <= 12 /\
    calculateP i radix [w0; w1; w2; w3] B
    = OK ([w0; w1; w2; Z.lxor w3 i] ++ repeat 0 (12 - length bs) ++ bs) /\
    length ([w0; w1; w2; Z.lxor w3 i] ++ repeat 0 (12 - length bs) ++ bs)
    = 16%nat.
Proof.
  intros Hi Hr Hw Hne HB Hval.
  cbn [forallb] in Hw. unfold is_byte in Hw.
  repeat (apply andb_prop in Hw; destruct Hw as [? Hw]).
  destruct (calculateP_spec i radix [w0; w1; w2; w3] B Hr Hne HB Hval)
    as [bs [_ [Hmin [Hlen HP]]]].
  exists bs. split; [ exact Hmin | ]. split; [ exact Hlen | ].
  unfold block_prefix, byte_at in HP. cbn [nth] in HP.
  pose proof (lxor_byte w3 i ltac:(lia) Hi) as Hx.
  rewrite !u8_small in HP by lia.
  split; [ exact HP | ].
  unfold len in Hlen. rewrite length_app, length_app, repeat_length.
  cbn [length]. lia.
Qed.

Lemma C5_witness :
  exists bs,
    minimal_big_endian (radix_value 10 (rev (str "567890000"))) bs /\
    1 <= len bs <= 12 /\
    calculateP 0 10 [250; 51; 10; 115] (str "567890000")
    = OK ([250; 51; 10; Z.lxor 115 0]
          ++ repeat 0 (12 - length bs) ++ bs) /\
    length ([250; 51; 10; Z.lxor 115 0] ++ repeat 0 (12 - length bs) ++ bs)
    = 16%nat.
Proof.
  apply (C5_round_block 0 10 250 51 10 115 (str "567890000")).
  - lia.
  - lia.
  - vm_compute. reflexivity.
  - discriminate.
  - vm_compute. reflexivity.
  - vm_compute. reflexivity.
Defined.

Lemma length_shift_rows (s : list Z) : length (AES.shift_rows s) = 16%nat.
Proof. unfold AES.shift_rows. rewrite length_map, length_seq. reflexivity. Qed.

Lemma length_add_round_key (w : list (list Z)) (r : nat) (s : list Z) :
  length (AES.add_round_key w r s)
  = Nat.min (length s) (length (concat (firstn 4 (skipn (4 * r) w)))).
Proof.
  unfold AES.add_round_key, AES.xor_bytes.
  rewrite length_map, length_combine. reflexivity.
Qed.

Lemma length_encrypt_block (key block : list Z) :
  length (AES.encrypt_block key block)
  = Nat.min 16
      (length (concat (firstn 4 (skipn (4 * (length key / 4 + 6))
                                       (AES.key_schedule key))))).
Proof.
  unfold AES.encrypt_block. cbv zeta.
  rewrite length_add_round_key, length_shift_rows. reflexivity.
Qed.

Lemma sample_last_round_key :
  length (concat (firstn 4 (skipn
            (4 * (length (cipher_key (aesCipher sample_cipher)) / 4 + 6))
            (AES.key_schedule (cipher_key (aesCipher sample_cipher))))))
  = 16%nat.
Proof. vm_compute. reflexivity. Qed.

Lemma AES_sample_block (block : list Z) :
  length (AES_ECB (aesCipher sample_cipher) block) = 16%nat.
Proof.
  unfold AES_ECB. rewrite length_encrypt_block, sample_last_round_key.
  reflexivity.
Qed.

Lemma AES_sample_answers : answers AES_ECB (aesCipher sample_cipher).
Proof.
  intros block Heq. pose proof (AES_sample_block block) as Hlen.
  rewrite Heq in Hlen. discriminate Hlen.
Qed.

(** ** Where the two methods do invert each other *)

Lemma code_inj (c c' : ascii) : code c = code c' -> c = c'.
Proof.
  unfold code. intros H. apply N2Z.inj in H.
  rewrite <- (ascii_N_embedding c), <- (ascii_N_embedding c'), H.
  reflexivity.
Qed.

Lemma is_digit_char (radix : Z) (c : ascii) :
  is_digit radix c = true -> c = digit_char (digit_of c).
Proof.
  unfold is_digit, digit_of.
  destruct (digit_value c) as [d | ]; [ | discriminate ].
  intros H. apply andb_prop in H. destruct H as [_ H].
  apply code_inj. lia.
Qed.

Lemma radix_value_rev_cons (radix : Z) (c : ascii) (s : jsstring) :
  radix_value radix (rev (c :: s))
  = radix_value radix (rev s) * radix + digit_of c.
Proof.
  cbn [rev]. rewrite radix_value_app. unfold len. cbn [length].
  change (Z.of_nat 1) with 1. rewrite Z.pow_1_r.
  unfold radix_value. cbn [fold_left]. unfold horner at 2. lia.
Qed.

(** Two digit strings of one length with one value are one string. *)
Lemma radix_value_rev_inj (radix : Z) :
  2 <= radix <= 36 ->
  forall s t : jsstring,
    is_digit_string radix s = true ->
    is_digit_string radix t = true ->
    length s = length t ->
    radix_value radix (rev s) = radix_value radix (rev t) ->
    s = t.
Proof.
  intros Hr. induction s as [ | c s IH]; intros t Hs Ht Hlen Hval.
  - destruct t; [ reflexivity | discriminate Hlen ].
  - destruct t as [ | c' t]; [ discriminate Hlen | ].
    unfold is_digit_string in Hs, Ht. cbn [forallb] in Hs, Ht.
    apply andb_prop in Hs. destruct Hs as [Hc Hs].
    apply andb_prop in Ht. destruct Ht as [Hc' Ht].
    rewrite !radix_value_rev_cons in Hval.
    destruct (is_digit_inv radix c Hc) as [d [_ [Hd Hof]]].
    destruct (is_digit_inv radix c' Hc') as [d' [_ [Hd' Hof']]].
    rewrite Hof, Hof' in Hval.
    assert (Hdd : d = d').
    { assert (Hm : (radix_value radix (rev s) * radix + d) mod radix
                   = (radix_value radix (rev t) * radix + d') mod radix)
        by (rewrite Hval; reflexivity).
      rewrite !(Z.add_comm _ d), !(Z.add_comm _ d') in Hm.
      rewrite !Z.mod_add in Hm by lia.
      rewrite !Z.mod_small in Hm by lia. exact Hm. }
    assert (Hvv : radix_value radix (rev s) = radix_value radix (rev t)).
    { subst d'. apply Z.mul_reg_r with radix; lia. }
    f_equal.
    + rewrite (is_digit_char radix c Hc), (is_digit_char radix c' Hc').
      rewrite Hof, Hof', Hdd. reflexivity.
    + apply IH; [ exact Hs | exact Ht | | exact Hvv ].
      simpl in Hlen. lia.
Qed.

Lemma even_round (i : nat) : (Z.of_nat i mod 2 =? 0) = Nat.even i.
Proof.
  destruct (Nat.even i) eqn:He.
  - apply Nat.even_spec in He. destruct He as [k Hk]. subst i.
    rewrite Nat2Z.inj_mul, Z.mul_comm, Z.mod_mul by lia. reflexivity.
  - assert (Ho : Nat.odd i = true)
      by (rewrite <- Nat.negb_even, He; reflexivity).
    apply Nat.odd_spec in Ho. destruct Ho as [k Hk]. subst i.
    rewrite Nat2Z.inj_add, Nat2Z.inj_mul, Z.add_comm, Z.mul_comm.
    rewrite Z.mod_add by lia. reflexivity.
Qed.

Lemma half_length_next (u v : Z) (i : nat) :
  half_length u v (S (S i)) = half_length u v i.
Proof. unfold half_length. rewrite Nat.even_succ_succ. reflexivity. Qed.

Lemma rounds_app (body : Z -> halves -> run halves) (ix jx : list Z) :
  forall AB,
    rounds body (ix ++ jx) AB
    = bind (rounds body ix AB) (rounds body jx).
Proof.
  induction ix as [ | i ix IH]; intros AB.
  - cbn [app rounds]. rewrite bind_ret. reflexivity.
  - cbn [app rounds].
    destruct (body i AB) as [[AB' | e] blocks]; [ | reflexivity ].
    unfold bind at 1 3. rewrite IH.
    destruct (rounds body ix AB') as [[AB'' | e] blocks']; cbn [bind].
    + destruct (rounds body jx AB'') as [r blocks''].
      rewrite app_assoc. reflexivity.
    + reflexivity.
Qed.

Section Inversion.

Variable E : oracle.
Variable this : FF3Cipher.
Variables u v : Z.
Variables Tl Tr : list Z.

Hypothesis E_answers : answers E (aesCipher this).
Hypothesis radix_range : 2 <= radix this <= 36.
Hypothesis halves_range : 1 <= v <= u.
Hypothesis capacity : radix this ^ u <= 2 ^ 96.
Hypothesis pad_suffices : u <= 9.

Lemma half_length_range (i : nat) : 1 <= half_length u v i <= u.
Proof. unfold half_length. destruct (Nat.even i); lia. Qed.

(** When the eight padding zeros suffice, a round of [decrypt] undoes the
    round of [encrypt] with the same index. *)
Lemma round_inverse (i : nat) (A B : jsstring) :
  half_exact (radix this) (half_length u v i) A ->
  half_exact (radix this) (half_length u v (S i)) B ->
  exists C P,
    encrypt_round E this u v Tl Tr (radix this ^ u) (radix this ^ v)
      (Z.of_nat i) (A, B) = (OK (B, C), [rev P]) /\
    half_exact (radix this) (half_length u v i) C /\
    decrypt_round E this u v Tl Tr (radix this ^ u) (radix this ^ v)
      (Z.of_nat i) (B, C) = (OK (A, B), [rev P]).
Proof.
  intros HA HB.
  pose proof (half_length_range i) as Hm.
  pose proof (half_length_range (S i)) as Hm'.
  pose proof (half_exact_ok _ _ u A Hm HA) as HAok.
  pose proof (half_exact_ok _ _ u B Hm' HB) as HBok.
  destruct (encrypt_round_ok E this u v Tl Tr E_answers radix_range
              halves_range capacity (Z.of_nat i) A B HAok HBok)
    as [P [C [HP [Henc [HCok [HCval HClen]]]]]].
  rewrite even_round in HP, HCok, HCval, HClen.
  fold (half_length u v i) in HCok, HCval, HClen.
  specialize (HClen ltac:(lia)).
  assert (HC : half_exact (radix this) (half_length u v i) C).
  { destruct HCok as [_ [HCs _]]. split; assumption. }
  pose proof (half_exact_ok _ _ u C Hm HC) as HCok'.
  destruct (decrypt_round_ok E this u v Tl Tr E_answers radix_range
              halves_range capacity (Z.of_nat i) B C HBok HCok')
    as [P' [C' [HP' [Hdec [HC'ok [HC'val HC'len]]]]]].
  rewrite even_round in HP', HC'ok, HC'val, HC'len.
  fold (half_length u v i) in HC'ok, HC'val, HC'len.
  specialize (HC'len ltac:(lia)).
  rewrite HP in HP'. injection HP' as HPP. subst P'.
  exists C, P. split; [ exact Henc | ]. split; [ exact HC | ].
  rewrite Hdec. f_equal. f_equal. f_equal.
  destruct HA as [HAs HAlen]. destruct HC'ok as [_ [HC's _]].
  apply (radix_value_rev_inj (radix this) radix_range).
  - exact HC's.
  - exact HAs.
  - unfold len in *. lia.
  - rewrite HC'val, HCval, Zminus_mod_idemp_l.
    replace (radix_value (radix this) (rev A)
             + be_value (rev (E (aesCipher this) (rev P)))
             - be_value (rev (E (aesCipher this) (rev P))))
      with (radix_value (radix this) (rev A)) by lia.
    apply Z.mod_small.
    assert (Hrev : is_digit_string (radix this) (rev A) = true)
      by (rewrite is_digit_string_rev; exact HAs).
    pose proof (radix_value_bounds (radix this) radix_range (rev A) Hrev)
      as Hb.
    unfold len in Hb, HAlen. rewrite length_rev, HAlen in Hb. exact Hb.
Qed.

(** So the backward loop undoes the forward loop. *)
Lemma loop_inverse (k : nat) :
  forall (a : nat) (A B : jsstring),
    half_exact (radix this) (half_length u v a) A ->
    half_exact (radix this) (half_length u v (S a)) B ->
    exists A' B' blocks blocks',
      rounds (encrypt_round E this u v Tl Tr
                (radix this ^ u) (radix this ^ v))
             (indices_from a k) (A, B) = (OK (A', B'), blocks) /\
      half_exact (radix this) (half_length u v (a + k)) A' /\
      half_exact (radix this) (half_length u v (S (a + k))) B' /\
      rounds (decrypt_round E this u v Tl Tr
                (radix this ^ u) (radix this ^ v))
             (rev (indices_from a k)) (A', B') = (OK (A, B), blocks').
Proof.
  induction k as [ | k IH]; intros a A B HA HB.
  - exists A, B, [], []. rewrite Nat.add_0_r.
    split; [ reflexivity | ]. split; [ exact HA | ].
    split; [ exact HB | reflexivity ].
  - destruct (round_inverse a A B HA HB) as [C [P [Henc [HC Hdec]]]].
    rewrite <- (half_length_next u v a) in HC.
    destruct (IH (S a) B C HB HC)
      as [A' [B' [blocks [blocks' [Hfwd [HA' [HB' Hbwd]]]]]]].
    exists A', B', (rev P :: blocks), (blocks' ++ [rev P]).
    replace (a + S k)%nat with (S a + k)%nat by lia.
    split; [ | split; [ exact HA' | split; [ exact HB' | ] ] ].
    + unfold indices_from in *. cbn [seq map rounds].
      rewrite Henc. unfold bind. rewrite Hfwd. reflexivity.
    + unfold indices_from in *. cbn [seq map rev].
      rewrite rounds_app, Hbwd. cbn [bind rounds].
      rewrite Hdec. reflexivity.
Qed.

End Inversion.

(** The part of C2 the code keeps on every in-bounds digit string: both
    methods return, and what they return is a digit string of the radix. *)
Theorem output_in_alphabet
  (E : oracle) (key tweak : jsstring) (r : Z) (this : FF3Cipher)
  (text : jsstring) :
  new key tweak r = OK this ->
  len (Buffer_from_hex tweak) = 7 \/ len (Buffer_from_hex tweak) = 8 ->
  answers E (aesCipher this) ->
  is_digit_string r text = true ->
  minLen this <= strlen text <= maxLen this ->
  (exists out, fst (encrypt E this text) = OK out /\
               is_digit_string r out = true) /\
  (exists out, fst (decrypt E this text) = OK out /\
               is_digit_string r out = true).
Proof.
  intros Hnew Htweak HE Htext Hn.
  destruct (context_facts key tweak r this (strlen text) Hnew Hn)
    as [Hr [Hrad [Hn2 [Huv Hcap]]]].
  pose proof (tweak_length_of_new key tweak r this Hnew Htweak) as Htw.
  rewrite <- Hrad in Htext |- *.
  destruct (initial_halves (radix this) text Htext Huv) as [HA0 HB0].
  apply (half_exact_ok _ _ (ceil_half (strlen text))) in HA0; [ | lia ].
  apply (half_exact_ok _ _ (ceil_half (strlen text))) in HB0; [ | lia ].
  split.
  - destruct (encrypt_rounds_ok E this (ceil_half (strlen text))
                (strlen text - ceil_half (strlen text))
                (slice (tweakBytes this) 0 HALF_TWEAK_LEN)
                (slice (tweakBytes this) HALF_TWEAK_LEN TWEAK_LEN)
                HE Hr Huv Hcap round_indices _ _ HA0 HB0)
      as [A [B [blocks [Hrun [[_ [HA _]] [_ [HB _]]]]]]].
    exists (A ++ B). split.
    + unfold encrypt, encrypt_loop.
      rewrite (guards_pass this _ Hn Htw), bind_ret, Hrun. reflexivity.
    + rewrite is_digit_string_app, HA, HB. reflexivity.
  - destruct (decrypt_rounds_ok E this (ceil_half (strlen text))
                (strlen text - ceil_half (strlen text))
                (slice (tweakBytes this) 0 HALF_TWEAK_LEN)
                (slice (tweakBytes this) HALF_TWEAK_LEN TWEAK_LEN)
                HE Hr Huv Hcap (rev round_indices) _ _ HA0 HB0)
      as [A [B [blocks [Hrun [[_ [HA _]] [_ [HB _]]]]]]].
    exists (A ++ B). split.
    + unfold decrypt, decrypt_loop.
      rewrite (guards_pass this _ Hn Htw), bind_ret, Hrun. reflexivity.
    + rewrite is_digit_string_app, HA, HB. reflexivity.
Qed.

(** Where C1 and C2 do hold on the code: when the longer half has at most
    nine symbols (messages of up to eighteen symbols), eight padding zeros
    always suffice; [encrypt] keeps the length and the alphabet, and
    [decrypt] returns the plaintext. *)
Theorem roundtrip_when_padding_suffices
  (E : oracle) (key tweak : jsstring) (r : Z) (this : FF3Cipher)
  (text : jsstring) :
  new key tweak r = OK this ->
  len (Buffer_from_hex tweak) = 7 \/ len (Buffer_from_hex tweak) = 8 ->
  answers E (aesCipher this) ->
  is_digit_string r text = true ->
  minLen this <= strlen text <= maxLen this ->
  ceil_half (strlen text) <= 9 ->
  exists out,
    fst (encrypt E this text) = OK out /\
    strlen out = strlen text /\
    is_digit_string r out = true /\
    fst (decrypt E this out) = OK text.
Proof.
  intros Hnew Htweak HE Htext Hn H9.
  destruct (context_facts key tweak r this (strlen text) Hnew Hn)
    as [Hr [Hrad [Hn2 [Huv Hcap]]]].
  pose proof (tweak_length_of_new key tweak r this Hnew Htweak) as Htw.
  rewrite <- Hrad in Htext |- *.
  destruct (initial_halves (radix this) text Htext Huv) as [HA0 HB0].
  destruct (loop_inverse E this (ceil_half (strlen text))
              (strlen text - ceil_half (strlen text))
              (slice (tweakBytes this) 0 HALF_TWEAK_LEN)
              (slice (tweakBytes this) HALF_TWEAK_LEN TWEAK_LEN)
              HE Hr Huv Hcap H9 8 0 _ _ HA0 HB0)
    as [A [B [blocks [blocks' [Hfwd [HA [HB Hbwd]]]]]]].
  change (half_length (ceil_half (strlen text))
            (strlen text - ceil_half (strlen text)) (0 + 8))
    with (ceil_half (strlen text)) in HA.
  change (half_length (ceil_half (strlen text))
            (strlen text - ceil_half (strlen text)) (S (0 + 8)))
    with (strlen text - ceil_half (strlen text)) in HB.
  destruct HA as [HAs HAlen]. destruct HB as [HBs HBlen].
  assert (Hlen : strlen (A ++ B) = strlen text).
  { unfold strlen, len in *. rewrite length_app. lia. }
  exists (A ++ B). split; [ | split; [ exact Hlen | split ] ].
  - unfold encrypt, encrypt_loop.
    rewrite (guards_pass this _ Hn Htw), bind_ret.
    change round_indices with (indices_from 0 8).
    rewrite Hfwd. reflexivity.
  - rewrite is_digit_string_app, HAs, HBs. reflexivity.
  - assert (HsA : substring (A ++ B) 0 (ceil_half (strlen text)) = A).
    { unfold substring. change (Z.to_nat 0) with 0%nat.
      rewrite Nat.sub_0_r. cbn [skipn].
      unfold len in HAlen. rewrite <- HAlen, Nat2Z.id.
      rewrite firstn_app, Nat.sub_diag, firstn_all. cbn [firstn].
      apply app_nil_r. }
    assert (HsB : substring_from (A ++ B) (ceil_half (strlen text)) = B).
    { unfold substring_from.
      unfold len in HAlen. rewrite <- HAlen, Nat2Z.id.
      rewrite skipn_app, Nat.sub_diag, skipn_all. reflexivity. }
    unfold decrypt, decrypt_loop. rewrite Hlen.
    rewrite (guards_pass this _ Hn Htw), bind_ret, HsA, HsB.
    change (rev round_indices) with (rev (indices_from 0 8)).
    rewrite Hbwd. cbn [bind ret fst snd].
    unfold substring, substring_from. change (Z.to_nat 0) with 0%nat.
    rewrite Nat.sub_0_r. cbn [skipn]. rewrite firstn_skipn. reflexivity.
Qed.

(** The round trip on NIST sample 1, through the theorem. *)
Example roundtrip_sample :
  exists out,
    fst (encrypt AES_ECB sample_cipher (str "890121234567890000")) = OK out /\
    strlen out = strlen (str "890121234567890000") /\
    is_digit_string 10 out = true /\
    fst (decrypt AES_ECB sample_cipher out) = OK (str "890121234567890000").
Proof.
  apply (roundtrip_when_padding_suffices AES_ECB sample_key sample_tweak 10
           sample_cipher (str "890121234567890000")).
  - vm_compute. reflexivity.
  - right. vm_compute. reflexivity.
  - exact AES_sample_answers.
  - vm_compute. reflexivity.
  - vm_compute. split; discriminate.
  - vm_compute. discriminate.
Qed.

(** ** The real oracle answers *)

Lemma length_xor_bytes (a b : list Z) :
  length (AES.xor_bytes a b) = Nat.min (length a) (length b).
Proof. unfold AES.xor_bytes. rewrite length_map, length_combine. reflexivity. Qed.

Lemma length_rot_word (w : list Z) :
  length w = 4%nat -> length (AES.rot_word w) = 4%nat.
Proof.
  intros Hw. unfold AES.rot_word.
  rewrite length_app, length_skipn, length_firstn. lia.
Qed.

Lemma words_of_four (n : nat) :
  forall bs : list Z,
    length bs = (4 * n)%nat ->
    length (AES.words n bs) = n /\
    Forall (fun w => length w = 4%nat) (AES.words n bs).
Proof.
  induction n as [ | n IH]; intros bs Hbs.
  - split; [ reflexivity | constructor ].
  - cbn [AES.words].
    destruct (IH (skipn 4 bs)) as [Hlen Hall];
      [ rewrite length_skipn; lia | ].
    split; [ cbn [length]; rewrite Hlen; reflexivity | ].
    constructor; [ rewrite length_firstn; lia | exact Hall ].
Qed.

(** Every step of the key schedule adds one word of four bytes. *)
Lemma expand_of_four (steps : nat) :
  forall (Nk i : nat) (rc : Z) (w : list (list Z)),
    (0 < Nk <= i)%nat ->
    length w = i ->
    Forall (fun x => length x = 4%nat) w ->
    length (AES.expand steps Nk i rc w) = (i + steps)%nat /\
    Forall (fun x => length x = 4%nat) (AES.expand steps Nk i rc w).
Proof.
  induction steps as [ | steps IH]; intros Nk i rc w Hi Hw Hall.
  - cbn [AES.expand]. split; [ lia | exact Hall ].
  - cbn [AES.expand].
    assert (Hprev : length (nth (i - 1) w []) = 4%nat)
      by (apply (proj1 (Forall_nth _ w) Hall); lia).
    assert (Hback : length (nth (i - Nk) w []) = 4%nat)
      by (apply (proj1 (Forall_nth _ w) Hall); lia).
    assert (Hnext : forall t rc',
              length t = 4%nat ->
              length (AES.expand steps Nk (S i) rc'
                        (w ++ [AES.xor_bytes (nth (i - Nk) w []) t]))
              = (i + S steps)%nat /\
              Forall (fun x => length x = 4%nat)
                (AES.expand steps Nk (S i) rc'
                   (w ++ [AES.xor_bytes (nth (i - Nk) w []) t]))).
    { intros t rc' Ht.
      destruct (IH Nk (S i) rc'
                  (w ++ [AES.xor_bytes (nth (i - Nk) w []) t]))
        as [Hlen Hall'].
      - lia.
      - rewrite length_app. cbn [length]. lia.
      - apply Forall_app. split; [ exact Hall | ].
        constructor; [ | constructor ].
        rewrite length_xor_bytes, Hback, Ht. reflexivity.
      - split; [ lia | exact Hall' ]. }
    destruct (i mod Nk =? 0)%nat.
    + apply Hnext. rewrite length_xor_bytes, length_map.
      rewrite (length_rot_word _ Hprev). reflexivity.
    + destruct ((6 <? Nk)%nat && (i mod Nk =? 4)%nat).
      * apply Hnext. rewrite length_map. exact Hprev.
      * apply Hnext. exact Hprev.
Qed.

Lemma last_round_key (Nk : nat) (key : list Z) :
  (0 < Nk)%nat ->
  length key = (4 * Nk)%nat ->
  length (concat (firstn 4 (skipn (4 * (length key / 4 + 6))
                                  (AES.key_schedule key))))
  = 16%nat.
Proof.
  intros HNk Hkey.
  assert (Hdiv : (length key / 4 = Nk)%nat).
  { rewrite Hkey, Nat.mul_comm. apply Nat.div_mul. lia. }
  unfold AES.key_schedule. rewrite Hdiv.
  destruct (words_of_four Nk key Hkey) as [Hwl Hwall].
  destruct (expand_of_four (4 * (Nk + 7) - Nk) Nk Nk 1 (AES.words Nk key))
    as [Hlen Hall]; [ lia | exact Hwl | exact Hwall | ].
  set (w := AES.expand (4 * (Nk + 7) - Nk) Nk Nk 1 (AES.words Nk key)) in *.
  assert (Hfour : Forall (fun x => length x = 4%nat)
                    (firstn 4 (skipn (4 * (Nk + 6)) w))).
  { rewrite <- (firstn_skipn (4 * (Nk + 6)) w) in Hall.
    apply Forall_app in Hall. destruct Hall as [_ Hall].
    rewrite <- (firstn_skipn 4 (skipn (4 * (Nk + 6)) w)) in Hall.
    apply Forall_app in Hall. tauto. }
  assert (Hcount : length (firstn 4 (skipn (4 * (Nk + 6)) w)) = 4%nat)
    by (rewrite length_firstn, length_skipn; lia).
  destruct (firstn 4 (skipn (4 * (Nk + 6)) w))
    as [ | w0 [ | w1 [ | w2 [ | w3 [ | ? ? ]]]]]; try discriminate Hcount.
  inversion Hfour as [ | ? ? H0 Hfour1 ]; subst.
  inversion Hfour1 as [ | ? ? H1 Hfour2 ]; subst.
  inversion Hfour2 as [ | ? ? H2 Hfour3 ]; subst.
  inversion Hfour3 as [ | ? ? H3 _ ]; subst.
  cbn [concat]. rewrite !length_app, H0, H1, H2, H3. reflexivity.
Qed.

(** AES under a key of 16, 24 or 32 bytes answers every block with
    sixteen bytes, so a constructed context has an answering oracle. *)
Lemma AES_answers_new (key tweak : jsstring) (r : Z) (this : FF3Cipher) :
  new key tweak r = OK this -> answers AES_ECB (aesCipher this).
Proof.
  intros Hnew block Heq.
  destruct (new_inv key tweak r this Hnew)
    as [_ [_ [_ [_ [_ [Hkey Hlen]]]]]].
  assert (H16 : length (AES_ECB (aesCipher this) block) = 16%nat).
  { unfold AES_ECB. rewrite length_encrypt_block.
    rewrite <- Hkey in Hlen. unfold len in Hlen.
    destruct Hlen as [Hlen | [Hlen | Hlen]].
    - rewrite (last_round_key 4); [ reflexivity | lia | lia ].
    - rewrite (last_round_key 6); [ reflexivity | lia | lia ].
    - rewrite (last_round_key 8); [ reflexivity | lia | lia ]. }
  rewrite Heq in H16. discriminate H16.
Qed.

(** The same with AES as the oracle: nothing is assumed of the cipher. *)
Corollary roundtrip_AES
  (key tweak : jsstring) (r : Z) (this : FF3Cipher) (text : jsstring) :
  new key tweak r = OK this ->
  len (Buffer_from_hex tweak) = 7 \/ len (Buffer_from_hex tweak) = 8 ->
  is_digit_string r text = true ->
  minLen this <= strlen text <= maxLen this ->
  ceil_half (strlen text) <= 9 ->
  exists out,
    fst (encrypt AES_ECB this text) = OK out /\
    strlen out = strlen text /\
    is_digit_string r out = true /\
    fst (decrypt AES_ECB this out) = OK text.
Proof.
  intros Hnew Htweak Htext Hn H9.
  apply (roundtrip_when_padding_suffices AES_ECB key tweak r this text);
    try assumption.
  exact (AES_answers_new key tweak r this Hnew).
Qed.

(** ** Further properties of the conversions *)

(** X1: on a nonempty digit string of a radix in 2..36, of any length,
    [convertToBigInt] returns the positional value of the string: cutting
    it into slices of ten digits does not change the value, which is
    nonnegative and below [radix ^ length]. *)
Theorem X1_convertToBigInt_value (radix : Z) (s : jsstring) :
  2 <= radix <= 36 ->
  s <> [] ->
  is_digit_string radix s = true ->
  convertToBigInt s radix = OK (radix_value radix s) /\
  0 <= radix_value radix s < radix ^ strlen s.
Proof.
  intros Hr Hne Hs. split.
  - apply convertToBigInt_digit_string; assumption.
  - apply (radix_value_bounds radix Hr s Hs).
Qed.

Lemma X1_witness :
  convertToBigInt (str "0123456789abcdefghi") 26
  = OK (radix_value 26 (str "0123456789abcdefghi")) /\
  0 <= radix_value 26 (str "0123456789abcdefghi")
    < 26 ^ strlen (str "0123456789abcdefghi").
Proof.
  apply (X1_convertToBigInt_value 26 (str "0123456789abcdefghi")).
  - lia.
  - discriminate.
  - vm_compute. reflexivity.
Defined.

Lemma parseInt_empty (radix : Z) : parseInt [] radix = None.
Proof.
  unfold parseInt. cbn [trim_start strip_sign strip_0x parse_digits option_map].
  destruct (ToInt32 radix =? 0); [ reflexivity | ].
  destruct ((ToInt32 radix <? 2) || (36 <? ToInt32 radix)); [ reflexivity | ].
  destruct (ToInt32 radix =? 16); reflexivity.
Qed.

(** The radix goes through [ToInt32] before it is compared with 2 and 36. *)
Example parseInt_radix_wraps :
  parseInt (str "12") (2 ^ 32 + 10) = Some 12 /\
  parseInt (str "12") 37 = None.
Proof. vm_compute. split; reflexivity. Qed.

(** X2: the empty string is not zero: [convertToBigInt] throws a
    RangeError on it, whatever the radix, and so does [calculateP] on an
    empty half, whatever the round index and tweak half. *)
Theorem X2_empty_string_throws (i radix : Z) (W : list Z) :
  convertToBigInt [] radix = Throw RangeError /\
  calculateP i radix W [] = Throw RangeError.
Proof.
  assert (H : convertToBigInt [] radix = Throw RangeError).
  { unfold convertToBigInt, substring, substring_from. cbv zeta.
    change (strlen []) with 0. change (0 mod 10 =? 0) with true. cbv iota.
    change (Z.to_nat 10) with 10%nat. change (Z.to_nat 0) with 0%nat.
    cbn [skipn firstn length slices fold_left Nat.sub].
    unfold reducer. cbn [rbind]. rewrite parseInt_empty. reflexivity. }
  split; [ exact H | ].
  unfold calculateP, reverseString. cbn [rev]. rewrite H. reflexivity.
Qed.

Lemma parse_digits_stop (radix : Z) (c : ascii) (t : jsstring) :
  stops_parse radix c = true ->
  forall (s : jsstring) (acc : Z),
    is_digit_string radix s = true ->
    parse_digits radix (s ++ c :: t) acc true
    = Some (fold_left (horner radix) s acc).
Proof.
  intros Hc. unfold is_digit_string.
  induction s as [ | a s IH]; intros acc Hs.
  - cbn [app parse_digits fold_left]. unfold stops_parse in Hc.
    destruct (digit_value c) as [d | ]; [ | reflexivity ].
    replace (d <? radix) with false by lia. reflexivity.
  - cbn [forallb] in Hs. apply andb_prop in Hs. destruct Hs as [Ha Hs].
    destruct (is_digit_inv radix a Ha) as [d [Hv [Hd Hof]]].
    cbn [app parse_digits fold_left]. rewrite Hv.
    replace (d <? radix) with true by lia.
    rewrite IH by exact Hs. unfold horner. rewrite Hof. reflexivity.
Qed.

(** X3: [convertToBigInt] does not reject a symbol outside the radix: in a
    string of at most ten symbols that starts with digits of the radix,
    the first symbol that is not such a digit silently ends the number,
    and the value of the digits before it is returned.  (In radix 16 the
    symbol must not be the [x] of a [0x] prefix, which [parseInt] skips.) *)
Theorem X3_foreign_symbol_truncates
  (radix : Z) (s : jsstring) (c : ascii) (t : jsstring) :
  2 <= radix <= 36 ->
  s <> [] ->
  is_digit_string radix s = true ->
  stops_parse radix c = true ->
  radix <> 16 \/ (code c <> 120 /\ code c <> 88) ->
  (length (s ++ c :: t) <= 10)%nat ->
  convertToBigInt (s ++ c :: t) radix = OK (radix_value radix s).
Proof.
  intros Hr Hne Hs Hc Hx Hlen.
  destruct s as [ | a s]; [ contradiction | ].
  pose proof Hs as Has. unfold is_digit_string in Has. cbn [forallb] in Has.
  apply andb_prop in Has. destruct Has as [Ha Hs'].
  destruct (is_digit_inv radix a Ha) as [d [Hv [Hd Hof]]].
  destruct (digit_value_range a d Hv) as [_ [Hws [Hminus [Hplus _]]]].
  assert (Hparse : parseInt ((a :: s) ++ c :: t) radix
                   = Some (radix_value radix (a :: s))).
  { assert (Hdigits : parse_digits radix ((a :: s) ++ c :: t) 0 false
                      = Some (radix_value radix (a :: s))).
    { cbn [app parse_digits]. rewrite Hv.
      replace (d <? radix) with true by lia.
      rewrite (parse_digits_stop radix c t Hc s _ Hs').
      unfold radix_value. cbn [fold_left]. unfold horner.
      rewrite Hof. reflexivity. }
    unfold parseInt. cbn [app trim_start]. rewrite Hws. unfold strip_sign.
    replace (code a =? 45) with false by lia.
    replace (code a =? 43) with false by lia.
    rewrite (ToInt32_small radix) by lia.
    replace (radix =? 0) with false by lia.
    replace ((radix <? 2) || (36 <? radix)) with false
      by (symmetry; apply orb_false_intro; lia).
    destruct (radix =? 16) eqn:H16.
    - assert (Hno : strip_0x (a :: s ++ c :: t) = None).
      { unfold strip_0x. destruct s as [ | b s''].
        - cbn [app]. destruct Hx as [Hx | [Hx1 Hx2]]; [ lia | ].
          replace ((code c =? 120) || (code c =? 88)) with false
            by (symmetry; apply orb_false_intro; lia).
          rewrite andb_false_r. reflexivity.
        - cbn [app]. cbn [forallb] in Hs'.
          apply andb_prop in Hs'. destruct Hs' as [Hb _].
          destruct (is_digit_inv radix b Hb) as [db [Hvb [Hdb _]]].
          destruct (digit_value_range b db Hvb) as [_ [_ [_ [_ Hxx]]]].
          replace ((code b =? 120) || (code b =? 88)) with false.
          + rewrite andb_false_r. reflexivity.
          + symmetry. apply orb_false_intro; apply Z.eqb_neq; intros Heq;
              assert (db = 33) by (apply Hxx; lia); lia. }
      cbn [app] in Hdigits. rewrite Hno.
      replace 16 with radix by lia. rewrite Hdigits. reflexivity.
    - cbn [app] in Hdigits. rewrite Hdigits. reflexivity. }
  set (whole := (a :: s) ++ c :: t) in *.
  assert (Hn : 1 <= strlen whole <= 10).
  { unfold strlen. subst whole. cbn [app length] in *. lia. }
  unfold convertToBigInt, substring, substring_from. cbv zeta.
  assert (Hi : (if strlen whole mod 10 =? 0 then 10 else strlen whole mod 10)
               = strlen whole).
  { destruct (Z.eq_dec (strlen whole) 10) as [H10 | H10].
    - rewrite H10. reflexivity.
    - rewrite Z.mod_small by lia.
      replace (strlen whole =? 0) with false by lia. reflexivity. }
  rewrite Hi. unfold strlen. rewrite Nat2Z.id.
  change (Z.to_nat 0) with 0%nat. rewrite Nat.sub_0_r. cbn [skipn].
  rewrite firstn_all, skipn_all.
  assert (Hnil : slices (length whole) (Z.to_nat 10) [] = [])
    by (destruct (length whole); reflexivity).
  rewrite Hnil. cbn [fold_left]. unfold reducer. cbn [rbind].
  rewrite Hparse. cbn [BigInt_of_number rbind]. f_equal.
Qed.

Lemma X3_witness :
  convertToBigInt (str "12" ++ "z"%char :: str "45") 10
  = OK (radix_value 10 (str "12")).
Proof.
  apply (X3_foreign_symbol_truncates 10 (str "12") "z"%char (str "45")).
  - lia.
  - discriminate.
  - vm_compute. reflexivity.
  - vm_compute. reflexivity.
  - left. lia.
  - vm_compute. lia.
Defined.

(** The [0x] prefix that radix 16 skips. *)
Example hex_prefix_skipped : convertToBigInt (str "0x1f") 16 = OK 31.
Proof. vm_compute. reflexivity. Qed.

(** X4: for a nonnegative value below [256 ^ k], [bigToUint8Array] returns
    its minimal big-endian bytes: reading them back big-endian gives the
    value, every element is a byte, there is no leading zero byte (zero is
    the one byte 0), and there are at most [k] of them. *)
Theorem X4_bigToUint8Array_minimal (big k : Z) :
  1 <= k ->
  0 <= big < 256 ^ k ->
  minimal_big_endian big (bigToUint8Array big) /\
  1 <= len (bigToUint8Array big) <= k.
Proof. intros Hk Hbig. apply bigToUint8Array_spec; assumption. Qed.

Lemma X4_witness :
  minimal_big_endian 98765 (bigToUint8Array 98765) /\
  1 <= len (bigToUint8Array 98765) <= 3.
Proof.
  apply (X4_bigToUint8Array_minimal 98765 3).
  - lia.
  - vm_compute. split; [ discriminate | reflexivity ].
Defined.

Lemma be_value_acc (bs : list Z) (acc : Z) :
  fold_left (fun a b => a * 256 + b) bs acc
  = acc * 256 ^ len bs + be_value bs.
Proof.
  unfold be_value, len. revert acc.
  induction bs as [ | b bs IH]; intros acc.
  - simpl. lia.
  - cbn [fold_left length]. rewrite IH, (IH (0 * 256 + b)).
    rewrite Nat2Z.inj_succ, Z.pow_succ_r by lia. ring.
Qed.

Lemma be_value_bounds (bs : list Z) :
  forallb is_byte bs = true -> 0 <= be_value bs < 256 ^ len bs.
Proof.
  intros Hbs. induction bs as [ | b bs IH].
  - unfold be_value, len. simpl. lia.
  - cbn [forallb] in Hbs. apply andb_prop in Hbs. destruct Hbs as [Hb Hbs].
    specialize (IH Hbs). unfold is_byte in Hb.
    unfold be_value. cbn [fold_left]. rewrite be_value_acc.
    unfold len in *. cbn [length]. rewrite Nat2Z.inj_succ, Z.pow_succ_r by lia.
    nia.
Qed.

Lemma le_value_bounds (radix : Z) (ds : list Z) :
  2 <= radix <= 36 ->
  digits_in radix ds = true ->
  0 <= le_value radix ds < radix ^ len ds.
Proof.
  intros Hr Hds.
  rewrite <- (digit_chars_value radix Hr ds Hds).
  assert (Hs : is_digit_string radix (map digit_char (rev ds)) = true).
  { rewrite map_rev, is_digit_string_rev.
    apply (digit_chars_valid radix Hr). exact Hds. }
  pose proof (radix_value_bounds radix Hr _ Hs) as Hb.
  unfold len in *. rewrite length_map, length_rev in Hb. exact Hb.
Qed.

Lemma numeral_negative (c radix : Z) :
  c < 0 -> numeral c radix = chr 45 :: numeral (- c) radix.
Proof.
  intros Hc. unfold numeral.
  replace (c <? 0) with true by lia.
  replace (- c <? 0) with false by lia.
  rewrite Z.abs_opp. reflexivity.
Qed.

Lemma bigToUint8Array_negative (big : Z) :
  big < 0 ->
  0 <= big + 2 ^ ((strlen (numeral big 2) / 8 + 1) * 8) ->
  bigToUint8Array big
  = bigToUint8Array (big + 2 ^ ((strlen (numeral big 2) / 8 + 1) * 8)).
Proof.
  intros Hneg Hpos. unfold bigToUint8Array at 1.
  replace (big <? 0) with true by lia. cbv zeta.
  rewrite Z.shiftl_1_l.
  unfold bigToUint8Array.
  replace (big + 2 ^ ((strlen (numeral big 2) / 8 + 1) * 8) <? 0)
    with false by lia.
  reflexivity.
Qed.

(** X5: a negative value is rendered in two's complement: the bytes read
    big-endian are the value plus [256 ^ (number of bytes)], every element
    is a byte, and the first byte has its sign bit set. *)
Theorem X5_bigToUint8Array_negative (big : Z) :
  big < 0 ->
  forallb is_byte (bigToUint8Array big) = true /\
  be_value (bigToUint8Array big) - 256 ^ len (bigToUint8Array big) = big /\
  sign_bit (hd 0 (bigToUint8Array big)) = true.
Proof.
  intros Hneg.
  assert (Hr2 : 2 <= 2 <= 36) by lia.
  destruct (numeral_digits 2 Hr2 (- big) ltac:(lia))
    as [ds [Hnum [Hne [Hin [Hval _]]]]].
  pose proof (le_value_bounds 2 ds Hr2 Hin) as Hb. rewrite Hval in Hb.
  assert (HL : strlen (numeral big 2) = 1 + len ds).
  { rewrite (numeral_negative big 2 Hneg), Hnum.
    unfold strlen, len. cbn [length]. rewrite length_map, length_rev. lia. }
  assert (Hds : 1 <= len ds).
  { unfold len. destruct ds; [ contradiction | cbn [length]; lia ]. }
  set (L := strlen (numeral big 2)) in *.
  set (k := L / 8 + 1).
  pose proof (Z.div_mod L 8 ltac:(lia)) as Hdm.
  pose proof (Z.mod_pos_bound L 8 ltac:(lia)) as Hmb.
  assert (Hk : 1 <= k) by (subst k; pose proof (Z.div_pos L 8); lia).
  assert (Hbits : len ds + 2 <= k * 8) by (subst k; lia).
  assert (Hpow : 2 ^ (k * 8) = 256 ^ k).
  { rewrite Z.mul_comm, Z.pow_mul_r by lia. reflexivity. }
  assert (Hsplit : 2 ^ (k * 8) = 2 ^ len ds * 2 ^ (k * 8 - len ds)).
  { rewrite <- Z.pow_add_r by lia. f_equal. lia. }
  assert (Hfour : 4 <= 2 ^ (k * 8 - len ds)).
  { change 4 with (2 ^ 2). apply Z.pow_le_mono_r; lia. }
  assert (Hstep : 256 ^ k = 256 * 256 ^ (k - 1)).
  { rewrite <- Z.pow_succ_r by lia. f_equal. lia. }
  assert (Hkpos : 0 < 256 ^ (k - 1)) by (apply Z.pow_pos_nonneg; lia).
  assert (Hdpos : 0 < 2 ^ len ds) by (apply Z.pow_pos_nonneg; lia).
  set (big' := big + 2 ^ (k * 8)).
  assert (Hbig' : 192 * 256 ^ (k - 1) <= big' < 256 ^ k).
  { subst big'. rewrite Hpow in *. nia. }
  assert (Hsame : bigToUint8Array big = bigToUint8Array big').
  { apply bigToUint8Array_negative; [ exact Hneg | ].
    fold L. fold k. fold big'. lia. }
  rewrite Hsame.
  destruct (bigToUint8Array_spec big' k Hk ltac:(lia))
    as [[Hbytes [Hbe _]] Hlen].
  pose proof (be_value_bounds _ Hbytes) as Hbv. rewrite Hbe in Hbv.
  assert (Hlenk : len (bigToUint8Array big') = k).
  { destruct (Z.eq_dec (len (bigToUint8Array big')) k) as [ | Hneq ];
      [ assumption | exfalso ].
    assert (Hle : 256 ^ len (bigToUint8Array big') <= 256 ^ (k - 1))
      by (apply Z.pow_le_mono_r; lia).
    lia. }
  split; [ exact Hbytes | ]. split.
  - rewrite Hbe, Hlenk. subst big'. rewrite Hpow. lia.
  - destruct (bigToUint8Array big') as [ | b rest] eqn:Hbs.
    + unfold len in Hlenk. simpl in Hlenk. lia.
    + cbn [hd]. cbn [forallb] in Hbytes.
      apply andb_prop in Hbytes. destruct Hbytes as [Hb0 Hrest].
      pose proof (be_value_bounds _ Hrest) as Hrb.
      unfold be_value in Hbe. cbn [fold_left] in Hbe.
      rewrite be_value_acc in Hbe.
      assert (Hrl : len rest = k - 1)
        by (unfold len in *; cbn [length] in Hlenk; lia).
      rewrite Hrl in Hbe, Hrb. unfold sign_bit. unfold is_byte in Hb0.
      apply Z.leb_le. nia.
Qed.

Lemma X5_witness :
  forallb is_byte (bigToUint8Array (-128)) = true /\
  be_value (bigToUint8Array (-128)) - 256 ^ len (bigToUint8Array (-128))
  = -128 /\
  sign_bit (hd 0 (bigToUint8Array (-128))) = true.
Proof. apply (X5_bigToUint8Array_negative (-128)). lia. Defined.

(** The two's complement of -128 takes a second byte here. *)
Example minus_128_bytes : bigToUint8Array (-128) = [255; 128].
Proof. vm_compute. reflexivity. Qed.

(** X6: [mod(n, m)] throws a RangeError when [m] is zero; for every other
    modulus it returns the remainder that has the sign of [m]: in
    [0, m) for a positive modulus and in (m, 0] for a negative one. *)
Theorem X6_mod_any_modulus (n m : Z) :
  (m = 0 -> mod_ n m = Throw RangeError) /\
  (m <> 0 -> mod_ n m = OK (n mod m)) /\
  (0 < m -> 0 <= n mod m < m) /\
  (m < 0 -> m < n mod m <= 0).
Proof.
  split; [ | split; [ | split ] ].
  - intros Hm. subst m. reflexivity.
  - intros Hm. destruct (Z_lt_le_dec 0 m) as [Hpos | Hnp].
    + apply mod_spec. exact Hpos.
    + assert (Hneg : m < 0) by lia.
      unfold mod_, BigInt_rem.
      replace (m =? 0) with false by lia. cbn [rbind].
      replace (m =? 0) with false by lia. f_equal.
      set (p := - m).
      replace m with (- p) by (subst p; lia).
      assert (Hp : 0 < p) by (subst p; lia).
      rewrite (Z.rem_opp_r n p) by lia.
      pose proof (Z.rem_bound_abs n p ltac:(lia)) as Habs.
      pose proof (Z.quot_rem' n p) as Hqr.
      rewrite (Z.rem_opp_r _ p) by lia.
      replace (Z.rem n p + - p) with (- (p - Z.rem n p)) by lia.
      rewrite Z.rem_opp_l by lia.
      rewrite Z.rem_mod_nonneg by lia.
      replace n with (- (- n)) at 2 by lia.
      rewrite Z.mod_opp_opp by lia. f_equal.
      replace (p - Z.rem n p) with (- n + (Z.quot n p + 1) * p) by lia.
      apply Z.mod_add. lia.
  - intros Hm. apply Z.mod_pos_bound. exact Hm.
  - intros Hm. apply Z.mod_neg_bound. exact Hm.
Qed.

(** ** Further properties of the constructor *)

Lemma domain_check_table :
  forallb (fun r => negb (flt (minLen_of_radix r) f_two
                          || flt (maxLen_of_radix r) (minLen_of_radix r)))
          radices = true.
Proof. vm_compute. reflexivity. Qed.

Lemma domain_check_passes (r : Z) :
  2 <= r <= 36 ->
  flt (minLen_of_radix r) f_two
  || flt (maxLen_of_radix r) (minLen_of_radix r) = false.
Proof.
  intros Hr.
  pose proof (proj1 (forallb_forall _ _) domain_check_table r
                (in_radices r Hr)) as H.
  cbv beta in H. apply negb_true_iff in H. exact H.
Qed.

Lemma new_unfolded (key tweak : jsstring) (r : Z) :
  new key tweak r
  = if negb (key_length_ok (len (Buffer_from_hex key)))
    then Throw (InvalidKeyLength (len (Buffer_from_hex key)))
    else if (r <? 2) || (r >? 36) then Throw InvalidRadix
    else OK {| radix := r;
               minLen := length_of_double (minLen_of_radix r);
               maxLen := length_of_double (maxLen_of_radix r);
               tweakBytes :=
                 (if len (Buffer_from_hex tweak) =? 7
                  then calculateTweak64_FF3_1 (Buffer_from_hex tweak)
                  else Buffer_from_hex tweak);
               aesCipher :=
                 createCipheriv
                   (if len (Buffer_from_hex key) =? 16 then aes_128_ecb
                    else if len (Buffer_from_hex key) =? 24 then aes_192_ecb
                    else aes_256_ecb)
                   (rev (Buffer_from_hex key)) |}.
Proof.
  unfold new, key_length_ok, MAX_RADIX, TWEAK_LEN_NEW. cbv zeta.
  assert (Hrev : len (rev (Buffer_from_hex key)) = len (Buffer_from_hex key))
    by (unfold len; rewrite length_rev; reflexivity).
  rewrite Hrev.
  destruct (len (Buffer_from_hex key) =? 16) eqn:H16; cbn [orb negb rbind].
  - destruct ((r <? 2) || (r >? 36)) eqn:Hr; [ reflexivity | ].
    rewrite domain_check_passes; [ reflexivity | ].
    apply orb_false_elim in Hr. lia.
  - destruct (len (Buffer_from_hex key) =? 24) eqn:H24; cbn [orb negb rbind].
    + destruct ((r <? 2) || (r >? 36)) eqn:Hr; [ reflexivity | ].
      rewrite domain_check_passes; [ reflexivity | ].
      apply orb_false_elim in Hr. lia.
    + destruct (len (Buffer_from_hex key) =? 32) eqn:H32;
        cbn [orb negb rbind]; [ | reflexivity ].
      destruct ((r <? 2) || (r >? 36)) eqn:Hr; [ reflexivity | ].
      rewrite domain_check_passes; [ reflexivity | ].
      apply orb_false_elim in Hr. lia.
Qed.

(** X7: construction succeeds exactly when the key decodes to 16, 24 or
    32 bytes and the radix is in 2..36; the tweak plays no part, and the
    domain-bounds check never fires. *)
Theorem X7_new_succeeds_iff (key tweak : jsstring) (r : Z) :
  (exists this, new key tweak r = OK this) <->
  (key_length_ok (len (Buffer_from_hex key)) = true /\ 2 <= r <= 36).
Proof.
  rewrite new_unfolded. split.
  - intros [this H].
    destruct (key_length_ok (len (Buffer_from_hex key)));
      [ | discriminate H ].
    cbn [negb] in H.
    destruct ((r <? 2) || (r >? 36)) eqn:Hr; [ discriminate H | ].
    apply orb_false_elim in Hr. split; [ reflexivity | lia ].
  - intros [Hkey Hr]. rewrite Hkey. cbn [negb].
    replace ((r <? 2) || (r >? 36)) with false
      by (symmetry; apply orb_false_intro; lia).
    eexists. reflexivity.
Qed.

(** X8: the constructor fails in two ways only.  A key that does not
    decode to 16, 24 or 32 bytes is reported first, with the decoded
    length, whatever the radix and tweak; with a good key, a radix outside
    2..36 is reported; nothing else is ever thrown. *)
Theorem X8_new_failures (key tweak : jsstring) (r : Z) :
  (key_length_ok (len (Buffer_from_hex key)) = false ->
   new key tweak r = Throw (InvalidKeyLength (len (Buffer_from_hex key)))) /\
  (key_length_ok (len (Buffer_from_hex key)) = true ->
   r < 2 \/ 36 < r ->
   new key tweak r = Throw InvalidRadix) /\
  (forall e, new key tweak r = Throw e ->
             e = InvalidKeyLength (len (Buffer_from_hex key))
             \/ e = InvalidRadix).
Proof.
  rewrite new_unfolded. split; [ | split ].
  - intros Hkey. rewrite Hkey. reflexivity.
  - intros Hkey Hr. rewrite Hkey. cbn [negb].
    replace ((r <? 2) || (r >? 36)) with true; [ reflexivity | ].
    symmetry. apply orb_true_iff. lia.
  - intros e H.
    destruct (key_length_ok (len (Buffer_from_hex key))); cbn [negb] in H.
    + destruct ((r <? 2) || (r >? 36)); [ | discriminate H ].
      injection H as H. right. symmetry. exact H.
    + injection H as H. left. symmetry. exact H.
Qed.

(** The boundary cases the repository documents: radix 1 and 37, and a
    key of 20 bytes. *)
Example new_boundaries :
  new sample_key sample_tweak 1 = Throw InvalidRadix /\
  new sample_key sample_tweak 37 = Throw InvalidRadix /\
  new (str "EF4359D8D580AA4F7F036D6F04FC6A9400112233") sample_tweak 10
  = Throw (InvalidKeyLength 20).
Proof. vm_compute. repeat split. Qed.

Lemma bounds_range_table :
  let table := map (fun r => (r, (length_of_double (minLen_of_radix r),
                                  length_of_double (maxLen_of_radix r))))
                   radices in
  forallb (fun p =>
             (4 <=? fst (snd p)) && (fst (snd p) <=? 20)
             && (36 <=? snd (snd p)) && (snd (snd p) <=? 192)
             && forallb (fun q =>
                  (fst q <? fst p)
                  || ((fst (snd q) <=? fst (snd p))
                      && (snd (snd q) <=? snd (snd p))))
                  table)
          table = true.
Proof. vm_compute. reflexivity. Qed.

(** X9: every context accepts a nonempty range of lengths, between 4 and
    192 symbols: [4 <= minLen <= 20] and [36 <= maxLen <= 192]; and a
    larger radix never widens the range: it has no larger [minLen] and no
    larger [maxLen]. *)
Theorem X9_bounds_shrink_with_radix
  (key tweak key' tweak' : jsstring) (r r' : Z) (this this' : FF3Cipher) :
  new key tweak r = OK this ->
  new key' tweak' r' = OK this' ->
  r <= r' ->
  4 <= minLen this <= 20 /\
  36 <= maxLen this <= 192 /\
  minLen this' <= minLen this /\
  maxLen this' <= maxLen this.
Proof.
  intros Hnew Hnew' Hle.
  destruct (new_inv key tweak r this Hnew) as [Hr [_ [Hmin [Hmax _]]]].
  destruct (new_inv key' tweak' r' this' Hnew')
    as [Hr' [_ [Hmin' [Hmax' _]]]].
  pose proof bounds_range_table as Htable. cbv zeta in Htable.
  set (entry := fun x => (x, (length_of_double (minLen_of_radix x),
                              length_of_double (maxLen_of_radix x))))
    in Htable.
  pose proof (proj1 (forallb_forall _ _) Htable (entry r)
                (in_map entry _ r (in_radices r Hr))) as H.
  cbv beta in H. unfold entry at 1 2 3 4 5 in H.
  cbn [fst snd] in H. rewrite <- Hmin, <- Hmax in H.
  apply andb_prop in H. destruct H as [H Hall].
  pose proof (proj1 (forallb_forall _ _) Hall (entry r')
                (in_map entry _ r' (in_radices r' Hr'))) as H'.
  cbv beta in H'. unfold entry in H'. cbn [fst snd] in H'.
  rewrite <- Hmin', <- Hmax', <- ?Hmin, <- ?Hmax in H'.
  repeat (apply andb_prop in H; destruct H as [H ?]).
  apply orb_prop in H'. destruct H' as [H' | H']; [ lia | ].
  apply andb_prop in H'. lia.
Qed.

Lemma X9_witness :
  4 <= minLen sample_cipher <= 20 /\
  36 <= maxLen sample_cipher <= 192 /\
  minLen sample_cipher <= minLen sample_cipher /\
  maxLen sample_cipher <= maxLen sample_cipher.
Proof.
  apply (X9_bounds_shrink_with_radix sample_key sample_tweak
           sample_key sample_tweak 10 10 sample_cipher sample_cipher).
  - vm_compute. reflexivity.
  - vm_compute. reflexivity.
  - lia.
Defined.

Lemma calculateTweak64_bytes (t : list Z) :
  forallb is_byte (calculateTweak64_FF3_1 t) = true /\
  length (calculateTweak64_FF3_1 t) = 8%nat.
Proof.
  split; [ | reflexivity ].
  unfold calculateTweak64_FF3_1. cbn [forallb]. unfold is_byte, u8.
  repeat match goal with
         | |- context [?x mod 256] =>
             lazymatch goal with
             | H : 0 <= x mod 256 < 256 |- _ => fail
             | _ => pose proof (Z.mod_pos_bound x 256 ltac:(lia))
             end
         end.
  repeat (apply andb_true_intro; split); try reflexivity; lia.
Qed.

(** X10: what a context holds is well formed: the tweak is a list of
    bytes and never seven of them (a 7-byte tweak has been expanded to
    eight, any other length is kept as decoded); the cipher key is a list
    of 16, 24 or 32 bytes and the algorithm is the AES variant of that
    key size. *)
Theorem X10_context_well_formed
  (key tweak : jsstring) (r : Z) (this : FF3Cipher) :
  new key tweak r = OK this ->
  forallb is_byte (tweakBytes this) = true /\
  len (tweakBytes this) <> 7 /\
  (len (Buffer_from_hex tweak) = 7 -> len (tweakBytes this) = 8) /\
  (len (Buffer_from_hex tweak) <> 7 ->
   len (tweakBytes this) = len (Buffer_from_hex tweak)) /\
  forallb is_byte (cipher_key (aesCipher this)) = true /\
  cipher_algorithm (aesCipher this)
  = (if len (cipher_key (aesCipher this)) =? 16 then aes_128_ecb
     else if len (cipher_key (aesCipher this)) =? 24 then aes_192_ecb
     else aes_256_ecb) /\
  key_length_ok (len (cipher_key (aesCipher this))) = true.
Proof.
  intros Hnew. pose proof Hnew as Hx.
  rewrite new_unfolded in Hx.
  destruct (key_length_ok (len (Buffer_from_hex key))) eqn:Hkey;
    [ | discriminate Hx ].
  cbn [negb] in Hx.
  destruct ((r <? 2) || (r >? 36)); [ discriminate Hx | ].
  injection Hx as Hx. subst this.
  cbn [tweakBytes aesCipher cipher_key cipher_algorithm].
  assert (Hrev : len (rev (Buffer_from_hex key)) = len (Buffer_from_hex key))
    by (unfold len; rewrite length_rev; reflexivity).
  rewrite Hrev, Hkey.
  destruct (calculateTweak64_bytes (Buffer_from_hex tweak)) as [Hcb Hcl].
  assert (Hkb : forallb is_byte (rev (Buffer_from_hex key)) = true).
  { rewrite forallb_forall. intros b Hb. apply in_rev in Hb.
    exact (proj1 (forallb_forall _ _) (Buffer_from_hex_bytes key) b Hb). }
  destruct (len (Buffer_from_hex tweak) =? 7) eqn:H7;
    refine (conj _ (conj _ (conj _ (conj _ (conj Hkb
             (conj eq_refl eq_refl)))))).
  - exact Hcb.
  - unfold len. rewrite Hcl. lia.
  - intros _. unfold len. rewrite Hcl. reflexivity.
  - intros Hn. lia.
  - apply Buffer_from_hex_bytes.
  - lia.
  - intros Hn. lia.
  - intros _. reflexivity.
Qed.

Lemma X10_witness :
  forallb is_byte (tweakBytes sample_cipher) = true /\
  len (tweakBytes sample_cipher) <> 7 /\
  (len (Buffer_from_hex sample_tweak) = 7 ->
   len (tweakBytes sample_cipher) = 8) /\
  (len (Buffer_from_hex sample_tweak) <> 7 ->
   len (tweakBytes sample_cipher) = len (Buffer_from_hex sample_tweak)) /\
  forallb is_byte (cipher_key (aesCipher sample_cipher)) = true /\
  cipher_algorithm (aesCipher sample_cipher)
  = (if len (cipher_key (aesCipher sample_cipher)) =? 16 then aes_128_ecb
     else if len (cipher_key (aesCipher sample_cipher)) =? 24
          then aes_192_ecb
          else aes_256_ecb) /\
  key_length_ok (len (cipher_key (aesCipher sample_cipher))) = true.
Proof.
  apply (X10_context_well_formed sample_key sample_tweak 10 sample_cipher).
  vm_compute. reflexivity.
Defined.

(** X11: a 56-bit tweak and the 64-bit tweak it expands to make the same
    context: if [t7] decodes to seven bytes and [t8] decodes to their
    expansion, the constructor returns the same for both. *)
Theorem X11_tweak56_same_as_expanded
  (key t7 t8 : jsstring) (r : Z) :
  len (Buffer_from_hex t7) = 7 ->
  Buffer_from_hex t8 = calculateTweak64_FF3_1 (Buffer_from_hex t7) ->
  new key t7 r = new key t8 r.
Proof.
  intros H7 H8. rewrite !new_unfolded, H8, H7.
  change (len (calculateTweak64_FF3_1 (Buffer_from_hex t7)) =? 7) with false.
  reflexivity.
Qed.

Lemma X11_witness :
  new sample_key sample_tweak56 10
  = new sample_key (str "D8E79200FA330AA0") 10.
Proof.
  apply (X11_tweak56_same_as_expanded sample_key sample_tweak56
           (str "D8E79200FA330AA0") 10).
  - vm_compute. reflexivity.
  - vm_compute. reflexivity.
Defined.

(** ** Further properties of the round block *)

(** X12: [calculateP] on any nonempty digit string, in or out of range.
    While the digit-reversed value is below [2^128] its bytes are written
    right-aligned over the sixteen-byte block, covering the tweak bytes as
    far as they reach; from [2^128] on the write does not fit and a
    RangeError is thrown. *)
Theorem X12_calculateP_any_value
  (i radix : Z) (W : list Z) (B : jsstring) :
  2 <= radix <= 36 ->
  B <> [] ->
  is_digit_string radix B = true ->
  (radix_value radix (rev B) < 2 ^ 128 ->
   len (bigToUint8Array (radix_value radix (rev B))) <= 16 /\
   calculateP i radix W B
   = OK (firstn (16 - length (bigToUint8Array (radix_value radix (rev B))))
                (block_prefix i W ++ repeat 0 12)
         ++ bigToUint8Array (radix_value radix (rev B)))) /\
  (2 ^ 128 <= radix_value radix (rev B) ->
   calculateP i radix W B = Throw RangeError).
Proof.
  intros Hr Hne HB.
  assert (Hrevne : rev B <> []).
  { intros Heq. apply (f_equal (@rev ascii)) in Heq.
    rewrite rev_involutive in Heq. contradiction. }
  assert (Hrev : is_digit_string radix (rev B) = true)
    by (rewrite is_digit_string_rev; exact HB).
  pose proof (radix_value_bounds radix Hr (rev B) Hrev) as Hb.
  set (v := radix_value radix (rev B)) in *.
  assert (Hcalc : calculateP i radix W B
                  = typed_array_set (block_prefix i W ++ repeat 0 12)
                      (bigToUint8Array v)
                      (16 - len (bigToUint8Array v))).
  { unfold calculateP, reverseString.
    rewrite (convertToBigInt_digit_string radix Hr (rev B) Hrevne Hrev).
    reflexivity. }
  rewrite Hcalc. unfold typed_array_set.
  rewrite length_app, repeat_length.
  change (length (block_prefix i W)) with 4%nat.
  change (Z.of_nat (4 + 12)) with 16.
  set (bs := bigToUint8Array v) in *.
  split.
  - intros Hv.
    destruct (bigToUint8Array_spec v 16) as [_ Hlen];
      [ lia | change (256 ^ 16) with (2 ^ 128); lia | ].
    fold bs in Hlen. split; [ lia | ]. unfold len in *.
    replace ((16 - Z.of_nat (length bs) <? 0)
             || (16 <? 16 - Z.of_nat (length bs) + Z.of_nat (length bs)))
      with false by (symmetry; apply orb_false_intro; lia).
    f_equal.
    replace (Z.to_nat (16 - Z.of_nat (length bs)))
      with (16 - length bs)%nat by lia.
    rewrite skipn_all2
      by (rewrite length_app, repeat_length;
          change (length (block_prefix i W)) with 4%nat; lia).
    rewrite app_nil_r. reflexivity.
  - intros Hv.
    assert (Hk : v < 256 ^ (v + 1))
      by (pose proof (Z.pow_gt_lin_r 256 (v + 1) ltac:(lia) ltac:(lia)); lia).
    destruct (bigToUint8Array_spec v (v + 1)) as [[Hbytes [Hbe _]] _];
      [ lia | lia | ].
    fold bs in Hbytes, Hbe.
    pose proof (be_value_bounds bs Hbytes) as Hbv. rewrite Hbe in Hbv.
    assert (Hlong : 16 < len bs).
    { destruct (Z_lt_le_dec 16 (len bs)) as [ | Hshort ];
        [ assumption | exfalso ].
      assert (Hle : 256 ^ len bs <= 256 ^ 16)
        by (apply Z.pow_le_mono_r; lia).
      change (256 ^ 16) with (2 ^ 128) in Hle. lia. }
    unfold len in *.
    replace (16 - Z.of_nat (length bs) <? 0) with true by lia.
    reflexivity.
Qed.

Lemma X12_witness :
  (radix_value 10 (rev thirty_nines) < 2 ^ 128 ->
   len (bigToUint8Array (radix_value 10 (rev thirty_nines))) <= 16 /\
   calculateP 0 10 [1; 2; 3; 4] thirty_nines
   = OK (firstn (16 - length (bigToUint8Array
                                (radix_value 10 (rev thirty_nines))))
                (block_prefix 0 [1; 2; 3; 4] ++ repeat 0 12)
         ++ bigToUint8Array (radix_value 10 (rev thirty_nines)))) /\
  (2 ^ 128 <= radix_value 10 (rev thirty_nines) ->
   calculateP 0 10 [1; 2; 3; 4] thirty_nines = Throw RangeError).
Proof.
  apply (X12_calculateP_any_value 0 10 [1; 2; 3; 4] thirty_nines).
  - lia.
  - discriminate.
  - vm_compute. reflexivity.
Defined.

(** Forty nines in radix 10 are above [2^128]: the write is refused. *)
Example calculateP_refused :
  calculateP 0 10 [1; 2; 3; 4]
    (str "9999999999999999999999999999999999999999")
  = Throw RangeError.
Proof. vm_compute. reflexivity. Qed.

(** ** Further properties of the two methods *)

Section Bounded.

Variable E : oracle.
Variable this : FF3Cipher.
Variables u v : Z.
Variables Tl Tr : list Z.

Hypothesis E_answers : answers E (aesCipher this).
Hypothesis radix_range : 2 <= radix this <= 36.
Hypothesis halves_range : 1 <= v <= u.
Hypothesis capacity : radix this ^ u <= 2 ^ 96.

Lemma half_of_length (i : nat) (s : jsstring) :
  half_ok (radix this) (half_length u v i) s -> half_ok (radix this) u s.
Proof.
  apply half_ok_le. unfold half_length. destruct (Nat.even i); lia.
Qed.

Lemma block_of_half (i : Z) (W : list Z) (s : jsstring) (P : list Z) :
  half_ok (radix this) u s ->
  calculateP i (radix this) W s = OK P ->
  length P = 16%nat.
Proof.
  intros Hs HP.
  destruct (half_fits this u radix_range capacity i W s Hs)
    as [bs [_ [_ [Hlen HP']]]].
  assert (HPeq : P = block_prefix i W ++ repeat 0 (12 - length bs) ++ bs)
    by congruence.
  subst P.
  unfold len in Hlen. rewrite !length_app, repeat_length.
  change (length (block_prefix i W)) with 4%nat. lia.
Qed.

(** The forward loop, with the length of each half and the blocks. *)
Lemma encrypt_loop_bounded (k : nat) :
  forall (a : nat) (A B : jsstring),
    half_ok (radix this) (half_length u v a) A ->
    half_ok (radix this) (half_length u v (S a)) B ->
    exists A' B' blocks,
      rounds (encrypt_round E this u v Tl Tr
                (radix this ^ u) (radix this ^ v))
             (indices_from a k) (A, B) = (OK (A', B'), blocks) /\
      half_ok (radix this) (half_length u v (a + k)) A' /\
      half_ok (radix this) (half_length u v (S (a + k))) B' /\
      length blocks = k /\
      Forall (fun b => length b = 16%nat) blocks.
Proof.
  induction k as [ | k IH]; intros a A B HA HB.
  - exists A, B, []. rewrite Nat.add_0_r.
    split; [ reflexivity | ]. split; [ exact HA | ].
    split; [ exact HB | ]. split; [ reflexivity | constructor ].
  - destruct (encrypt_round_ok E this u v Tl Tr E_answers radix_range
                halves_range capacity (Z.of_nat a) A B
                (half_of_length a A HA) (half_of_length (S a) B HB))
      as [P [C [HP [Hround [HC _]]]]].
    rewrite even_round in HC. fold (half_length u v a) in HC.
    rewrite <- (half_length_next u v a) in HC.
    pose proof (block_of_half _ _ B P (half_of_length (S a) B HB) HP) as H16.
    destruct (IH (S a) B C HB HC)
      as [A' [B' [blocks [Hrest [HA' [HB' [Hcount Hall]]]]]]].
    exists A', B', (rev P :: blocks).
    replace (a + S k)%nat with (S a + k)%nat by lia.
    split; [ | split; [ exact HA' | split; [ exact HB' | split ] ] ].
    + unfold indices_from in *. cbn [seq map rounds].
      rewrite Hround. unfold bind. rewrite Hrest. reflexivity.
    + cbn [length]. rewrite Hcount. reflexivity.
    + constructor; [ rewrite length_rev; exact H16 | exact Hall ].
Qed.

(** The backward loop, likewise. *)
Lemma decrypt_loop_bounded (k : nat) :
  forall (a : nat) (A B : jsstring),
    half_ok (radix this) (half_length u v (a + k)) A ->
    half_ok (radix this) (half_length u v (S (a + k))) B ->
    exists A' B' blocks,
      rounds (decrypt_round E this u v Tl Tr
                (radix this ^ u) (radix this ^ v))
             (rev (indices_from a k)) (A, B) = (OK (A', B'), blocks) /\
      half_ok (radix this) (half_length u v a) A' /\
      half_ok (radix this) (half_length u v (S a)) B' /\
      length blocks = k /\
      Forall (fun b => length b = 16%nat) blocks.
Proof.
  induction k as [ | k IH]; intros a A B HA HB.
  - exists A, B, []. rewrite Nat.add_0_r in HA, HB.
    split; [ reflexivity | ]. split; [ exact HA | ].
    split; [ exact HB | ]. split; [ reflexivity | constructor ].
  - replace (a + S k)%nat with (S a + k)%nat in HA, HB by lia.
    destruct (IH (S a) A B HA HB)
      as [A1 [B1 [blocks [Hrest [HA1 [HB1 [Hcount Hall]]]]]]].
    rewrite (half_length_next u v a) in HB1.
    destruct (decrypt_round_ok E this u v Tl Tr E_answers radix_range
                halves_range capacity (Z.of_nat a) A1 B1
                (half_of_length (S a) A1 HA1) (half_of_length a B1 HB1))
      as [P [C [HP [Hround [HC _]]]]].
    rewrite even_round in HC. fold (half_length u v a) in HC.
    pose proof (block_of_half _ _ A1 P (half_of_length (S a) A1 HA1) HP)
      as H16.
    exists C, A1, (blocks ++ [rev P]).
    split; [ | split; [ exact HC | split; [ exact HA1 | split ] ] ].
    + unfold indices_from in *. cbn [seq map rev].
      rewrite rounds_app, Hrest. cbn [bind rounds].
      rewrite Hround. reflexivity.
    + rewrite length_app, Hcount. cbn [length]. lia.
    + apply Forall_app. split; [ exact Hall | ].
      constructor; [ rewrite length_rev; exact H16 | constructor ].
Qed.

End Bounded.

Lemma half_exact_is_ok (radix m : Z) (s : jsstring) :
  1 <= m -> half_exact radix m s -> half_ok radix m s.
Proof. intros Hm Hs. apply (half_exact_ok radix m m s); [ lia | exact Hs ]. Qed.

(** A whole call of [encrypt] on an in-bounds digit string. *)
Lemma encrypt_run
  (E : oracle) (key tweak : jsstring) (r : Z) (this : FF3Cipher)
  (text : jsstring) :
  new key tweak r = OK this ->
  len (Buffer_from_hex tweak) = 7 \/ len (Buffer_from_hex tweak) = 8 ->
  answers E (aesCipher this) ->
  is_digit_string r text = true ->
  minLen this <= strlen text <= maxLen this ->
  exists A B blocks,
    encrypt E this text = (OK (A ++ B), blocks) /\
    half_ok r (ceil_half (strlen text)) A /\
    half_ok r (strlen text - ceil_half (strlen text)) B /\
    length blocks = 8%nat /\
    Forall (fun b => length b = 16%nat) blocks.
Proof.
  intros Hnew Htweak HE Htext Hn.
  destruct (context_facts key tweak r this (strlen text) Hnew Hn)
    as [Hr [Hrad [Hn2 [Huv Hcap]]]].
  pose proof (tweak_length_of_new key tweak r this Hnew Htweak) as Htw.
  rewrite <- Hrad in Htext |- *.
  destruct (initial_halves (radix this) text Htext Huv) as [HA0 HB0].
  apply half_exact_is_ok in HA0; [ | lia ].
  apply half_exact_is_ok in HB0; [ | lia ].
  destruct (encrypt_loop_bounded E this (ceil_half (strlen text))
              (strlen text - ceil_half (strlen text))
              (slice (tweakBytes this) 0 HALF_TWEAK_LEN)
              (slice (tweakBytes this) HALF_TWEAK_LEN TWEAK_LEN)
              HE Hr Huv Hcap 8 0 _ _ HA0 HB0)
    as [A [B [blocks [Hrun [HA [HB [Hcount Hall]]]]]]].
  exists A, B, blocks.
  split; [ | split; [ exact HA | split; [ exact HB | split; assumption ] ] ].
  unfold encrypt, encrypt_loop.
  rewrite (guards_pass this _ Hn Htw), bind_ret.
  change round_indices with (indices_from 0 8).
  rewrite Hrun. cbn [bind ret fst snd]. rewrite app_nil_r. reflexivity.
Qed.

(** A whole call of [decrypt] on an in-bounds digit string. *)
Lemma decrypt_run
  (E : oracle) (key tweak : jsstring) (r : Z) (this : FF3Cipher)
  (text : jsstring) :
  new key tweak r = OK this ->
  len (Buffer_from_hex tweak) = 7 \/ len (Buffer_from_hex tweak) = 8 ->
  answers E (aesCipher this) ->
  is_digit_string r text = true ->
  minLen this <= strlen text <= maxLen this ->
  exists A B blocks,
    decrypt E this text = (OK (A ++ B), blocks) /\
    half_ok r (ceil_half (strlen text)) A /\
    half_ok r (strlen text - ceil_half (strlen text)) B /\
    length blocks = 8%nat /\
    Forall (fun b => length b = 16%nat) blocks.
Proof.
  intros Hnew Htweak HE Htext Hn.
  destruct (context_facts key tweak r this (strlen text) Hnew Hn)
    as [Hr [Hrad [Hn2 [Huv Hcap]]]].
  pose proof (tweak_length_of_new key tweak r this Hnew Htweak) as Htw.
  rewrite <- Hrad in Htext |- *.
  destruct (initial_halves (radix this) text Htext Huv) as [HA0 HB0].
  apply half_exact_is_ok in HA0; [ | lia ].
  apply half_exact_is_ok in HB0; [ | lia ].
  destruct (decrypt_loop_bounded E this (ceil_half (strlen text))
              (strlen text - ceil_half (strlen text))
              (slice (tweakBytes this) 0 HALF_TWEAK_LEN)
              (slice (tweakBytes this) HALF_TWEAK_LEN TWEAK_LEN)
              HE Hr Huv Hcap 8 0 _ _ HA0 HB0)
    as [A [B [blocks [Hrun [HA [HB [Hcount Hall]]]]]]].
  exists A, B, blocks.
  split; [ | split; [ exact HA | split; [ exact HB | split; assumption ] ] ].
  unfold decrypt, decrypt_loop.
  rewrite (guards_pass this _ Hn Htw), bind_ret.
  change (rev round_indices) with (rev (indices_from 0 8)).
  rewrite Hrun. cbn [bind ret fst snd]. rewrite app_nil_r. reflexivity.
Qed.

(** X13: a call of [encrypt] or [decrypt] on an in-bounds digit string
    passes exactly eight blocks to the cipher, one per round, each of
    sixteen bytes. *)
Theorem X13_eight_cipher_calls
  (E : oracle) (key tweak : jsstring) (r : Z) (this : FF3Cipher)
  (text : jsstring) :
  new key tweak r = OK this ->
  len (Buffer_from_hex tweak) = 7 \/ len (Buffer_from_hex tweak) = 8 ->
  answers E (aesCipher this) ->
  is_digit_string r text = true ->
  minLen this <= strlen text <= maxLen this ->
  length (snd (encrypt E this text)) = 8%nat /\
  Forall (fun b => length b = 16%nat) (snd (encrypt E this text)) /\
  length (snd (decrypt E this text)) = 8%nat /\
  Forall (fun b => length b = 16%nat) (snd (decrypt E this text)).
Proof.
  intros Hnew Htweak HE Htext Hn.
  destruct (encrypt_run E key tweak r this text Hnew Htweak HE Htext Hn)
    as [A [B [blocks [Hrun [_ [_ [Hcount Hall]]]]]]].
  destruct (decrypt_run E key tweak r this text Hnew Htweak HE Htext Hn)
    as [A' [B' [blocks' [Hrun' [_ [_ [Hcount' Hall']]]]]]].
  rewrite Hrun, Hrun'. cbn [snd]. repeat split; assumption.
Qed.

Lemma X13_witness :
  length (snd (encrypt AES_ECB sample_cipher (str "890121234567890000")))
  = 8%nat /\
  Forall (fun b => length b = 16%nat)
    (snd (encrypt AES_ECB sample_cipher (str "890121234567890000"))) /\
  length (snd (decrypt AES_ECB sample_cipher (str "890121234567890000")))
  = 8%nat /\
  Forall (fun b => length b = 16%nat)
    (snd (decrypt AES_ECB sample_cipher (str "890121234567890000"))).
Proof.
  apply (X13_eight_cipher_calls AES_ECB sample_key sample_tweak 10
           sample_cipher (str "890121234567890000")).
  - vm_compute. reflexivity.
  - right. vm_compute. reflexivity.
  - exact AES_sample_answers.
  - vm_compute. reflexivity.
  - vm_compute. split; discriminate.
Defined.

(** X14: on an in-bounds digit string both methods return, never throw,
    and what they return is a digit string of the radix that is never
    longer than the input (and has at least two symbols). *)
Theorem X14_output_never_longer
  (E : oracle) (key tweak : jsstring) (r : Z) (this : FF3Cipher)
  (text : jsstring) :
  new key tweak r = OK this ->
  len (Buffer_from_hex tweak) = 7 \/ len (Buffer_from_hex tweak) = 8 ->
  answers E (aesCipher this) ->
  is_digit_string r text = true ->
  minLen this <= strlen text <= maxLen this ->
  (exists out,
     fst (encrypt E this text) = OK out /\
     is_digit_string r out = true /\
     2 <= strlen out <= strlen text) /\
  (exists out,
     fst (decrypt E this text) = OK out /\
     is_digit_string r out = true /\
     2 <= strlen out <= strlen text).
Proof.
  intros Hnew Htweak HE Htext Hn.
  assert (Hjoin : forall A B : jsstring,
            half_ok r (ceil_half (strlen text)) A ->
            half_ok r (strlen text - ceil_half (strlen text)) B ->
            is_digit_string r (A ++ B) = true /\
            2 <= strlen (A ++ B) <= strlen text).
  { intros A B [HAne [HAs HAlen]] [HBne [HBs HBlen]].
    rewrite is_digit_string_app, HAs, HBs. split; [ reflexivity | ].
    unfold strlen, len in *. rewrite length_app.
    destruct A; [ contradiction | ]. destruct B; [ contradiction | ].
    cbn [length] in *. lia. }
  split.
  - destruct (encrypt_run E key tweak r this text Hnew Htweak HE Htext Hn)
      as [A [B [blocks [Hrun [HA [HB _]]]]]].
    exists (A ++ B). rewrite Hrun. split; [ reflexivity | ].
    apply Hjoin; assumption.
  - destruct (decrypt_run E key tweak r this text Hnew Htweak HE Htext Hn)
      as [A [B [blocks [Hrun [HA [HB _]]]]]].
    exists (A ++ B). rewrite Hrun. split; [ reflexivity | ].
    apply Hjoin; assumption.
Qed.

Lemma X14_witness :
  (exists out,
     fst (encrypt AES_ECB sample_cipher short_pad_plaintext) = OK out /\
     is_digit_string 10 out = true /\
     2 <= strlen out <= strlen short_pad_plaintext) /\
  (exists out,
     fst (decrypt AES_ECB sample_cipher short_pad_plaintext) = OK out /\
     is_digit_string 10 out = true /\
     2 <= strlen out <= strlen short_pad_plaintext).
Proof.
  apply (X14_output_never_longer AES_ECB sample_key sample_tweak 10
           sample_cipher short_pad_plaintext).
  - vm_compute. reflexivity.
  - right. vm_compute. reflexivity.
  - exact AES_sample_answers.
  - vm_compute. reflexivity.
  - vm_compute. split; discriminate.
Defined.

Section Mutual.

Variable E : oracle.
Variable this : FF3Cipher.
Variables u v : Z.
Variables Tl Tr : list Z.

Hypothesis E_answers : answers E (aesCipher this).
Hypothesis radix_range : 2 <= radix this <= 36.
Hypothesis halves_range : 1 <= v <= u.
Hypothesis capacity : radix this ^ u <= 2 ^ 96.
Hypothesis pad_suffices : u <= 9.

Lemma half_length_small (i : nat) :
  1 <= half_length u v i <= u /\ half_length u v i <= 9.
Proof. unfold half_length. destruct (Nat.even i); lia. Qed.

(** When the eight padding zeros suffice, a round of [encrypt] undoes the
    round of [decrypt] with the same index, on the same block. *)
Lemma round_inverse_back (i : nat) (A B : jsstring) :
  half_exact (radix this) (half_length u v (S i)) A ->
  half_exact (radix this) (half_length u v i) B ->
  exists C P,
    decrypt_round E this u v Tl Tr (radix this ^ u) (radix this ^ v)
      (Z.of_nat i) (A, B) = (OK (C, A), [rev P]) /\
    half_exact (radix this) (half_length u v i) C /\
    encrypt_round E this u v Tl Tr (radix this ^ u) (radix this ^ v)
      (Z.of_nat i) (C, A) = (OK (A, B), [rev P]).
Proof.
  intros HA HB.
  pose proof (half_length_small i) as Hm.
  pose proof (half_length_small (S i)) as Hm'.
  assert (HAok : half_ok (radix this) u A)
    by (apply (half_exact_ok _ (half_length u v (S i))); [ lia | exact HA ]).
  assert (HBok : half_ok (radix this) u B)
    by (apply (half_exact_ok _ (half_length u v i)); [ lia | exact HB ]).
  destruct (decrypt_round_ok E this u v Tl Tr E_answers radix_range
              halves_range capacity (Z.of_nat i) A B HAok HBok)
    as [P [C [HP [Hdec [HCok [HCval HClen]]]]]].
  rewrite even_round in HP, HCok, HCval, HClen.
  fold (half_length u v i) in HCok, HCval, HClen.
  specialize (HClen ltac:(lia)).
  assert (HC : half_exact (radix this) (half_length u v i) C).
  { destruct HCok as [_ [HCs _]]. split; assumption. }
  assert (HCok' : half_ok (radix this) u C)
    by (apply (half_exact_ok _ (half_length u v i)); [ lia | exact HC ]).
  destruct (encrypt_round_ok E this u v Tl Tr E_answers radix_range
              halves_range capacity (Z.of_nat i) C A HCok' HAok)
    as [P' [C' [HP' [Henc [HC'ok [HC'val HC'len]]]]]].
  rewrite even_round in HP', HC'ok, HC'val, HC'len.
  fold (half_length u v i) in HC'ok, HC'val, HC'len.
  specialize (HC'len ltac:(lia)).
  assert (HPP : P' = P) by congruence. subst P'.
  exists C, P. split; [ exact Hdec | ]. split; [ exact HC | ].
  rewrite Henc. f_equal. f_equal. f_equal.
  destruct HB as [HBs HBlen]. destruct HC'ok as [_ [HC's _]].
  apply (radix_value_rev_inj (radix this) radix_range).
  - exact HC's.
  - exact HBs.
  - unfold len in *. lia.
  - rewrite HC'val, HCval, Zplus_mod_idemp_l.
    replace (radix_value (radix this) (rev B)
             - be_value (rev (E (aesCipher this) (rev P)))
             + be_value (rev (E (aesCipher this) (rev P))))
      with (radix_value (radix this) (rev B)) by lia.
    apply Z.mod_small.
    assert (Hrev : is_digit_string (radix this) (rev B) = true)
      by (rewrite is_digit_string_rev; exact HBs).
    pose proof (radix_value_bounds (radix this) radix_range (rev B) Hrev)
      as Hb.
    unfold len in Hb, HBlen. rewrite length_rev, HBlen in Hb. exact Hb.
Qed.

(** The backward loop undoes the forward loop and passes the same blocks
    to the cipher, last first. *)
Lemma loop_inverse_blocks (k : nat) :
  forall (a : nat) (A B : jsstring),
    half_exact (radix this) (half_length u v a) A ->
    half_exact (radix this) (half_length u v (S a)) B ->
    exists A' B' blocks,
      rounds (encrypt_round E this u v Tl Tr
                (radix this ^ u) (radix this ^ v))
             (indices_from a k) (A, B) = (OK (A', B'), blocks) /\
      half_exact (radix this) (half_length u v (a + k)) A' /\
      half_exact (radix this) (half_length u v (S (a + k))) B' /\
      rounds (decrypt_round E this u v Tl Tr
                (radix this ^ u) (radix this ^ v))
             (rev (indices_from a k)) (A', B') = (OK (A, B), rev blocks).
Proof.
  induction k as [ | k IH]; intros a A B HA HB.
  - exists A, B, []. rewrite Nat.add_0_r.
    split; [ reflexivity | ]. split; [ exact HA | ].
    split; [ exact HB | reflexivity ].
  - destruct (round_inverse E this u v Tl Tr E_answers radix_range
                halves_range capacity pad_suffices a A B HA HB)
      as [C [P [Henc [HC Hdec]]]].
    rewrite <- (half_length_next u v a) in HC.
    destruct (IH (S a) B C HB HC)
      as [A' [B' [blocks [Hfwd [HA' [HB' Hbwd]]]]]].
    exists A', B', (rev P :: blocks).
    replace (a + S k)%nat with (S a + k)%nat by lia.
    split; [ | split; [ exact HA' | split; [ exact HB' | ] ] ].
    + unfold indices_from in *. cbn [seq map rounds].
      rewrite Henc. unfold bind. rewrite Hfwd. reflexivity.
    + unfold indices_from in *. cbn [seq map rev].
      rewrite rounds_app, Hbwd. cbn [bind rounds].
      rewrite Hdec. reflexivity.
Qed.

(** The forward loop undoes the backward loop, likewise. *)
Lemma loop_inverse_back (k : nat) :
  forall (a : nat) (A B : jsstring),
    half_exact (radix this) (half_length u v (a + k)) A ->
    half_exact (radix this) (half_length u v (S (a + k))) B ->
    exists A' B' blocks,
      rounds (decrypt_round E this u v Tl Tr
                (radix this ^ u) (radix this ^ v))
             (rev (indices_from a k)) (A, B) = (OK (A', B'), blocks) /\
      half_exact (radix this) (half_length u v a) A' /\
      half_exact (radix this) (half_length u v (S a)) B' /\
      rounds (encrypt_round E this u v Tl Tr
                (radix this ^ u) (radix this ^ v))
             (indices_from a k) (A', B') = (OK (A, B), rev blocks).
Proof.
  induction k as [ | k IH]; intros a A B HA HB.
  - exists A, B, []. rewrite Nat.add_0_r in HA, HB.
    split; [ reflexivity | ]. split; [ exact HA | ].
    split; [ exact HB | reflexivity ].
  - replace (a + S k)%nat with (S a + k)%nat in HA, HB by lia.
    destruct (IH (S a) A B HA HB)
      as [A1 [B1 [blocks [Hbwd [HA1 [HB1 Hfwd]]]]]].
    rewrite (half_length_next u v a) in HB1.
    destruct (round_inverse_back a A1 B1 HA1 HB1)
      as [C [P [Hdec [HC Henc]]]].
    exists C, A1, (blocks ++ [rev P]).
    split; [ | split; [ exact HC | split; [ exact HA1 | ] ] ].
    + unfold indices_from in *. cbn [seq map rev].
      rewrite rounds_app, Hbwd. cbn [bind rounds].
      rewrite Hdec. reflexivity.
    + unfold indices_from in *. cbn [seq map rounds].
      rewrite Henc. unfold bind. rewrite Hfwd.
      rewrite rev_app_distr. reflexivity.
Qed.

End Mutual.

(** Two halves of the lengths of the split, joined and split again. *)
Lemma split_joined (A B : jsstring) (n : Z) :
  len A = ceil_half n ->
  len B = n - ceil_half n ->
  strlen (A ++ B) = n /\
  substring (A ++ B) 0 (ceil_half n) = A /\
  substring_from (A ++ B) (ceil_half n) = B.
Proof.
  intros HA HB. split; [ | split ].
  - unfold strlen, len in *. rewrite length_app. lia.
  - unfold substring. change (Z.to_nat 0) with 0%nat.
    rewrite Nat.sub_0_r. cbn [skipn].
    unfold len in HA. rewrite <- HA, Nat2Z.id.
    rewrite firstn_app, Nat.sub_diag, firstn_all. cbn [firstn].
    apply app_nil_r.
  - unfold substring_from.
    unfold len in HA. rewrite <- HA, Nat2Z.id.
    rewrite skipn_app, Nat.sub_diag, skipn_all. reflexivity.
Qed.

Lemma joined_split (text : jsstring) (m : Z) :
  substring text 0 m ++ substring_from text m = text.
Proof.
  unfold substring, substring_from. change (Z.to_nat 0) with 0%nat.
  rewrite Nat.sub_0_r. cbn [skipn]. apply firstn_skipn.
Qed.

(** X15: on a digit string whose longer half has at most nine symbols
    (in-bounds messages of up to eighteen symbols), [encrypt] returns a
    digit string of the same length, [decrypt] of that string returns the
    plaintext, and [decrypt] passes to the cipher the very blocks [encrypt]
    passed, in the opposite order. *)
Theorem X15_decrypt_undoes_encrypt
  (E : oracle) (key tweak : jsstring) (r : Z) (this : FF3Cipher)
  (text : jsstring) :
  new key tweak r = OK this ->
  len (Buffer_from_hex tweak) = 7 \/ len (Buffer_from_hex tweak) = 8 ->
  answers E (aesCipher this) ->
  is_digit_string r text = true ->
  minLen this <= strlen text <= maxLen this ->
  ceil_half (strlen text) <= 9 ->
  exists out blocks,
    encrypt E this text = (OK out, blocks) /\
    strlen out = strlen text /\
    is_digit_string r out = true /\
    decrypt E this out = (OK text, rev blocks).
Proof.
  intros Hnew Htweak HE Htext Hn H9.
  destruct (context_facts key tweak r this (strlen text) Hnew Hn)
    as [Hr [Hrad [Hn2 [Huv Hcap]]]].
  pose proof (tweak_length_of_new key tweak r this Hnew Htweak) as Htw.
  rewrite <- Hrad in Htext |- *.
  destruct (initial_halves (radix this) text Htext Huv) as [HA0 HB0].
  destruct (loop_inverse_blocks E this (ceil_half (strlen text))
              (strlen text - ceil_half (strlen text))
              (slice (tweakBytes this) 0 HALF_TWEAK_LEN)
              (slice (tweakBytes this) HALF_TWEAK_LEN TWEAK_LEN)
              HE Hr Huv Hcap H9 8 0 _ _ HA0 HB0)
    as [A [B [blocks [Hfwd [HA [HB Hbwd]]]]]].
  change (half_length (ceil_half (strlen text))
            (strlen text - ceil_half (strlen text)) (0 + 8))
    with (ceil_half (strlen text)) in HA.
  change (half_length (ceil_half (strlen text))
            (strlen text - ceil_half (strlen text)) (S (0 + 8)))
    with (strlen text - ceil_half (strlen text)) in HB.
  destruct HA as [HAs HAlen]. destruct HB as [HBs HBlen].
  destruct (split_joined A B (strlen text) HAlen HBlen)
    as [Hlen [HsA HsB]].
  exists (A ++ B), blocks.
  split; [ | split; [ exact Hlen | split ] ].
  - unfold encrypt, encrypt_loop.
    rewrite (guards_pass this _ Hn Htw), bind_ret.
    change round_indices with (indices_from 0 8).
    rewrite Hfwd. cbn [bind ret fst snd]. rewrite app_nil_r. reflexivity.
  - rewrite is_digit_string_app, HAs, HBs. reflexivity.
  - unfold decrypt, decrypt_loop. rewrite Hlen.
    rewrite (guards_pass this _ Hn Htw), bind_ret, HsA, HsB.
    change (rev round_indices) with (rev (indices_from 0 8)).
    rewrite Hbwd. cbn [bind ret fst snd].
    rewrite app_nil_r, joined_split. reflexivity.
Qed.

Lemma X15_witness :
  exists out blocks,
    encrypt AES_ECB sample_cipher (str "890121234567890000")
    = (OK out, blocks) /\
    strlen out = strlen (str "890121234567890000") /\
    is_digit_string 10 out = true /\
    decrypt AES_ECB sample_cipher out
    = (OK (str "890121234567890000"), rev blocks).
Proof.
  apply (X15_decrypt_undoes_encrypt AES_ECB sample_key sample_tweak 10
           sample_cipher (str "890121234567890000")).
  - vm_compute. reflexivity.
  - right. vm_compute. reflexivity.
  - exact AES_sample_answers.
  - vm_compute. reflexivity.
  - vm_compute. split; discriminate.
  - vm_compute. discriminate.
Defined.

(** X16: the other way round: on such a digit string [decrypt] returns a
    digit string of the same length, [encrypt] of that string returns the
    input, and passes the same blocks in the opposite order.  With X15,
    the two methods are inverse bijections on the digit strings of each
    in-bounds length up to eighteen. *)
Theorem X16_encrypt_undoes_decrypt
  (E : oracle) (key tweak : jsstring) (r : Z) (this : FF3Cipher)
  (text : jsstring) :
  new key tweak r = OK this ->
  len (Buffer_from_hex tweak) = 7 \/ len (Buffer_from_hex tweak) = 8 ->
  answers E (aesCipher this) ->
  is_digit_string r text = true ->
  minLen this <= strlen text <= maxLen this ->
  ceil_half (strlen text) <= 9 ->
  exists out blocks,
    decrypt E this text = (OK out, blocks) /\
    strlen out = strlen text /\
    is_digit_string r out = true /\
    encrypt E this out = (OK text, rev blocks).
Proof.
  intros Hnew Htweak HE Htext Hn H9.
  destruct (context_facts key tweak r this (strlen text) Hnew Hn)
    as [Hr [Hrad [Hn2 [Huv Hcap]]]].
  pose proof (tweak_length_of_new key tweak r this Hnew Htweak) as Htw.
  rewrite <- Hrad in Htext |- *.
  destruct (initial_halves (radix this) text Htext Huv) as [HA0 HB0].
  destruct (loop_inverse_back E this (ceil_half (strlen text))
              (strlen text - ceil_half (strlen text))
              (slice (tweakBytes this) 0 HALF_TWEAK_LEN)
              (slice (tweakBytes this) HALF_TWEAK_LEN TWEAK_LEN)
              HE Hr Huv Hcap H9 8 0 _ _ HA0 HB0)
    as [A [B [blocks [Hbwd [HA [HB Hfwd]]]]]].
  change (half_length (ceil_half (strlen text))
            (strlen text - ceil_half (strlen text)) 0)
    with (ceil_half (strlen text)) in HA.
  change (half_length (ceil_half (strlen text))
            (strlen text - ceil_half (strlen text)) 1)
    with (strlen text - ceil_half (strlen text)) in HB.
  destruct HA as [HAs HAlen]. destruct HB as [HBs HBlen].
  destruct (split_joined A B (strlen text) HAlen HBlen)
    as [Hlen [HsA HsB]].
  exists (A ++ B), blocks.
  split; [ | split; [ exact Hlen | split ] ].
  - unfold decrypt, decrypt_loop.
    rewrite (guards_pass this _ Hn Htw), bind_ret.
    change (rev round_indices) with (rev (indices_from 0 8)).
    rewrite Hbwd. cbn [bind ret fst snd]. rewrite app_nil_r. reflexivity.
  - rewrite is_digit_string_app, HAs, HBs. reflexivity.
  - unfold encrypt, encrypt_loop. rewrite Hlen.
    rewrite (guards_pass this _ Hn Htw), bind_ret, HsA, HsB.
    change round_indices with (indices_from 0 8).
    rewrite Hfwd. cbn [bind ret fst snd].
    rewrite app_nil_r, joined_split. reflexivity.
Qed.

Lemma X16_witness :
  exists out blocks,
    decrypt AES_ECB sample_cipher (str "750918814058654607")
    = (OK out, blocks) /\
    strlen out = strlen (str "750918814058654607") /\
    is_digit_string 10 out = true /\
    encrypt AES_ECB sample_cipher out
    = (OK (str "750918814058654607"), rev blocks).
Proof.
  apply (X16_encrypt_undoes_decrypt AES_ECB sample_key sample_tweak 10
           sample_cipher (str "750918814058654607")).
  - vm_compute. reflexivity.
  - right. vm_compute. reflexivity.
  - exact AES_sample_answers.
  - vm_compute. reflexivity.
  - vm_compute. split; discriminate.
  - vm_compute. discriminate.
Defined.

(** ** Input that is no digit string *)

Lemma parseInt_unreadable (radix : Z) (c : ascii) (t : jsstring) :
  2 <= radix <= 36 ->
  unreadable radix c = true ->
  parseInt (c :: t) radix = None.
Proof.
  intros Hr Hc. unfold unreadable in Hc.
  apply andb_prop in Hc. destruct Hc as [Hc Hplus].
  apply andb_prop in Hc. destruct Hc as [Hc Hminus].
  apply andb_prop in Hc. destruct Hc as [Hstop Hws].
  apply negb_true_iff in Hplus, Hminus, Hws.
  assert (Hdigits : parse_digits radix (c :: t) 0 false = None).
  { cbn [parse_digits]. unfold stops_parse in Hstop.
    destruct (digit_value c) as [d | ]; [ | reflexivity ].
    replace (d <? radix) with false by lia. reflexivity. }
  assert (H0x : radix = 16 -> strip_0x (c :: t) = None).
  { intros H16. unfold strip_0x. destruct t as [ | cx t']; [ reflexivity | ].
    destruct (code c =? 48) eqn:H48; [ | reflexivity ].
    exfalso. unfold stops_parse, digit_value in Hstop.
    apply Z.eqb_eq in H48. rewrite H48 in Hstop. cbn in Hstop. lia. }
  unfold parseInt. cbn [trim_start]. rewrite Hws.
  unfold strip_sign. rewrite Hminus, Hplus.
  rewrite (ToInt32_small radix) by lia.
  replace (radix =? 0) with false by lia.
  replace ((radix <? 2) || (36 <? radix)) with false
    by (symmetry; apply orb_false_intro; lia).
  destruct (radix =? 16) eqn:H16.
  - apply Z.eqb_eq in H16. rewrite (H0x H16). subst radix.
    rewrite Hdigits. reflexivity.
  - rewrite Hdigits. reflexivity.
Qed.

Lemma fold_reducer_throw (radix factor : Z) (e : error)
  (parts : list jsstring) :
  fold_left (reducer radix factor) parts (Throw e) = Throw e.
Proof.
  induction parts as [ | p parts IH]; [ reflexivity | ].
  cbn [fold_left]. exact IH.
Qed.

(** A string that opens with such a symbol is not converted. *)
Lemma convertToBigInt_unreadable (radix : Z) (c : ascii) (t : jsstring) :
  2 <= radix <= 36 ->
  unreadable radix c = true ->
  convertToBigInt (c :: t) radix = Throw RangeError.
Proof.
  intros Hr Hc. unfold convertToBigInt. cbv zeta.
  set (i := if strlen (c :: t) mod 10 =? 0 then 10
            else strlen (c :: t) mod 10).
  assert (Hi : 1 <= i).
  { subst i. destruct (strlen (c :: t) mod 10 =? 0) eqn:H0; [ lia | ].
    pose proof (Z.mod_pos_bound (strlen (c :: t)) 10 ltac:(lia)). lia. }
  unfold substring at 1. change (Z.to_nat 0) with 0%nat.
  rewrite Nat.sub_0_r. cbn [skipn].
  destruct (Z.to_nat i) as [ | k] eqn:Hk; [ lia | ].
  cbn [firstn fold_left]. unfold reducer at 2. cbn [rbind].
  rewrite (parseInt_unreadable radix c _ Hr Hc). cbn [BigInt_of_number rbind].
  apply fold_reducer_throw.
Qed.

Lemma calculateP_unreadable (i radix : Z) (W : list Z) (s : jsstring)
  (c : ascii) :
  2 <= radix <= 36 ->
  unreadable radix c = true ->
  calculateP i radix W (s ++ [c]) = Throw RangeError.
Proof.
  intros Hr Hc. unfold calculateP, reverseString. cbv zeta.
  rewrite rev_unit, (convertToBigInt_unreadable radix c _ Hr Hc).
  reflexivity.
Qed.

Lemma first_half_of (s t : jsstring) (c : ascii) :
  strlen (s ++ [c]) = ceil_half (strlen (s ++ c :: t)) ->
  substring (s ++ c :: t) 0 (ceil_half (strlen (s ++ c :: t))) = s ++ [c] /\
  substring_from (s ++ c :: t) (ceil_half (strlen (s ++ c :: t))) = t.
Proof.
  intros Hu. rewrite <- Hu.
  replace (s ++ c :: t) with ((s ++ [c]) ++ t)
    by (rewrite <- app_assoc; reflexivity).
  unfold substring, substring_from, strlen.
  change (Z.to_nat 0) with 0%nat. rewrite Nat.sub_0_r, Nat2Z.id.
  cbn [skipn]. split.
  - rewrite firstn_app, Nat.sub_diag, firstn_all. cbn [firstn].
    apply app_nil_r.
  - rewrite skipn_app, Nat.sub_diag, skipn_all. reflexivity.
Qed.

Lemma second_half_last (s : jsstring) (c : ascii) :
  2 <= strlen (s ++ [c]) ->
  substring_from (s ++ [c]) (ceil_half (strlen (s ++ [c])))
  = skipn (Z.to_nat (ceil_half (strlen (s ++ [c])))) s ++ [c].
Proof.
  intros Hn. unfold substring_from. rewrite skipn_app.
  replace (Z.to_nat (ceil_half (strlen (s ++ [c]))) - length s)%nat
    with 0%nat; [ reflexivity | ].
  assert (Hhalf : ceil_half (strlen (s ++ [c])) <= strlen (s ++ [c]) - 1).
  { unfold ceil_half. set (n := strlen (s ++ [c])) in *.
    pose proof (Z.div_mod (n + 1) 2 ltac:(lia)).
    pose proof (Z.mod_pos_bound (n + 1) 2 ltac:(lia)). lia. }
  unfold strlen in *. rewrite length_app in *. cbn [length] in *. lia.
Qed.

(** X17: the methods do not check that their input is a digit string, and
    the first conversion of a round is not guarded.  When the last symbol
    of the half that conversion reads ([B], so the last symbol of the
    text, for [encrypt]; [A], so the symbol that closes the first half,
    for [decrypt]) is no digit of the radix, no white space and no sign,
    the call ends with the platform's RangeError before any block is
    passed to the cipher. *)
Theorem X17_unreadable_symbol_range_error
  (E : oracle) (key tweak : jsstring) (r : Z) (this : FF3Cipher)
  (s t : jsstring) (c : ascii) :
  new key tweak r = OK this ->
  len (Buffer_from_hex tweak) = 7 \/ len (Buffer_from_hex tweak) = 8 ->
  unreadable r c = true ->
  (minLen this <= strlen (s ++ [c]) <= maxLen this ->
   encrypt E this (s ++ [c]) = (Throw RangeError, [])) /\
  (minLen this <= strlen (s ++ c :: t) <= maxLen this ->
   strlen (s ++ [c]) = ceil_half (strlen (s ++ c :: t)) ->
   decrypt E this (s ++ c :: t) = (Throw RangeError, [])).
Proof.
  intros Hnew Htweak Hc.
  pose proof (tweak_length_of_new key tweak r this Hnew Htweak) as Htw.
  split.
  - intros Hn.
    destruct (context_facts key tweak r this _ Hnew Hn)
      as [Hr [Hrad [Hn2 _]]].
    rewrite <- Hrad in Hc.
    unfold encrypt, encrypt_loop.
    rewrite (guards_pass this _ Hn Htw), bind_ret.
    rewrite (second_half_last s c Hn2).
    change round_indices with (indices_from 0 8).
    unfold indices_from. cbn [seq map rounds]. unfold encrypt_round.
    rewrite (calculateP_unreadable _ _ _ _ c Hr Hc). reflexivity.
  - intros Hn Hu.
    destruct (context_facts key tweak r this _ Hnew Hn)
      as [Hr [Hrad [Hn2 _]]].
    rewrite <- Hrad in Hc.
    destruct (first_half_of s t c Hu) as [HA HB].
    unfold decrypt, decrypt_loop.
    rewrite (guards_pass this _ Hn Htw), bind_ret, HA, HB.
    change (rev round_indices) with (rev (indices_from 0 8)).
    unfold indices_from. cbn [seq map rev app rounds]. unfold decrypt_round.
    rewrite (calculateP_unreadable _ _ _ _ c Hr Hc). reflexivity.
Qed.

Lemma X17_witness :
  encrypt AES_ECB sample_cipher (str "12345$") = (Throw RangeError, []) /\
  decrypt AES_ECB sample_cipher (str "12$456") = (Throw RangeError, []).
Proof.
  destruct (X17_unreadable_symbol_range_error AES_ECB sample_key
              sample_tweak 10 sample_cipher (str "12") (str "456") "$"%char)
    as [_ Hdec]; [ vm_compute; reflexivity | right; vm_compute; reflexivity
                 | vm_compute; reflexivity | ].
  destruct (X17_unreadable_symbol_range_error AES_ECB sample_key
              sample_tweak 10 sample_cipher (str "12345") [] "$"%char)
    as [Henc _]; [ vm_compute; reflexivity | right; vm_compute; reflexivity
                 | vm_compute; reflexivity | ].
  split.
  - apply Henc. vm_compute. split; discriminate.
  - apply Hdec; vm_compute; [ split; discriminate | reflexivity ].
Defined.

(** X18: when instead the symbol that closes the first half of the
    plaintext is unreadable and the second half is a digit string,
    [encrypt] passes one sixteen-byte block to the cipher, and then the
    guarded conversion of [A] fails: the call ends with the throw of the
    round's catch block ("string A is not within base/radix ..."). *)
Theorem X18_unreadable_symbol_caught
  (E : oracle) (key tweak : jsstring) (r : Z) (this : FF3Cipher)
  (s t : jsstring) (c : ascii) :
  new key tweak r = OK this ->
  len (Buffer_from_hex tweak) = 7 \/ len (Buffer_from_hex tweak) = 8 ->
  answers E (aesCipher this) ->
  unreadable r c = true ->
  is_digit_string r t = true ->
  minLen this <= strlen (s ++ c :: t) <= maxLen this ->
  strlen (s ++ [c]) = ceil_half (strlen (s ++ c :: t)) ->
  exists block,
    encrypt E this (s ++ c :: t) = (Throw (NotWithinRadix r), [block]) /\
    length block = 16%nat.
Proof.
  intros Hnew Htweak HE Hc Ht Hn Hu.
  pose proof (tweak_length_of_new key tweak r this Hnew Htweak) as Htw.
  destruct (context_facts key tweak r this _ Hnew Hn)
    as [Hr [Hrad [Hn2 [Huv Hcap]]]].
  rewrite <- Hrad in Hc, Ht |- *.
  destruct (first_half_of s t c Hu) as [HA HB].
  set (n := strlen (s ++ c :: t)) in *.
  assert (Hlen : len t = n - ceil_half n).
  { rewrite <- Hu. subst n. unfold len, strlen.
    rewrite !length_app. cbn [length]. lia. }
  assert (Hhalf : half_ok (radix this) (ceil_half n) t).
  { apply (half_exact_ok _ (n - ceil_half n)); [ lia | ].
    split; assumption. }
  set (W := slice (tweakBytes this) HALF_TWEAK_LEN TWEAK_LEN).
  destruct (half_fits this (ceil_half n) Hr Hcap 0 W t Hhalf)
    as [bs [_ [_ [_ HP]]]].
  pose proof (block_of_half this (ceil_half n) Hr Hcap 0 W t _ Hhalf HP)
    as H16.
  set (P := block_prefix 0 W ++ repeat 0 (12 - length bs) ++ bs) in *.
  exists (rev P). split; [ | rewrite length_rev; exact H16 ].
  unfold encrypt, encrypt_loop. fold n.
  rewrite (guards_pass this _ Hn Htw), bind_ret, HA, HB.
  change round_indices with (indices_from 0 8).
  unfold indices_from. cbn [seq map rounds Z.of_nat].
  unfold encrypt_round. change (0 mod 2 =? 0) with true. cbv iota.
  fold W. rewrite HP, bind_lift_OK, bind_update.
  assert (HS : exists y,
             BigInt_of_hex_of_bytes (rev (E (aesCipher this) (rev P)))
             = OK y).
  { unfold BigInt_of_hex_of_bytes.
    destruct (rev (E (aesCipher this) (rev P))) eqn:Hrev;
      [ | eexists; reflexivity ].
    apply (f_equal (@rev Z)) in Hrev. rewrite rev_involutive in Hrev.
    exfalso. exact (HE _ Hrev). }
  destruct HS as [y HS]. rewrite HS, bind_lift_OK.
  change (reverseString (s ++ [c])) with (rev (s ++ [c])).
  rewrite rev_unit, (convertToBigInt_unreadable _ c _ Hr Hc).
  reflexivity.
Qed.

Lemma X18_witness :
  exists block,
    encrypt AES_ECB sample_cipher (str "12$456")
    = (Throw (NotWithinRadix 10), [block]) /\
    length block = 16%nat.
Proof.
  apply (X18_unreadable_symbol_caught AES_ECB sample_key sample_tweak 10
           sample_cipher (str "12") (str "456") "$"%char).
  - vm_compute. reflexivity.
  - right. vm_compute. reflexivity.
  - exact AES_sample_answers.
  - vm_compute. reflexivity.
  - vm_compute. reflexivity.
  - vm_compute. split; discriminate.
  - vm_compute. reflexivity.
Defined.

(** ** Upper-case input *)

(** [parseInt] reads a letter in either case; nothing else it looks at
    is a letter. *)
Lemma to_lower_facts (c : ascii) :
  digit_value (to_lower c) = digit_value c /\
  is_whitespace (to_lower c) = is_whitespace c /\
  (code (to_lower c) =? 45) = (code c =? 45) /\
  (code (to_lower c) =? 43) = (code c =? 43) /\
  (code (to_lower c) =? 48) = (code c =? 48) /\
  ((code (to_lower c) =? 120) || (code (to_lower c) =? 88))
  = ((code c =? 120) || (code c =? 88)).
Proof.
  destruct c as [[ | ] [ | ] [ | ] [ | ] [ | ] [ | ] [ | ] [ | ]];
    vm_compute; repeat split; reflexivity.
Qed.

Lemma to_lower_digit_char_table :
  forallb (fun d => code (to_lower (digit_char d)) =? code (digit_char d))
          (map Z.of_nat (seq 0 36)) = true.
Proof. vm_compute. reflexivity. Qed.

Lemma to_lower_digit_char (d : Z) :
  0 <= d < 36 -> to_lower (digit_char d) = digit_char d.
Proof.
  intros Hd.
  assert (Hin : In d (map Z.of_nat (seq 0 36))).
  { replace d with (Z.of_nat (Z.to_nat d)) by lia.
    apply in_map, in_seq. lia. }
  pose proof (proj1 (forallb_forall _ _) to_lower_digit_char_table d Hin)
    as H.
  cbv beta in H. apply code_inj. lia.
Qed.

Lemma lower_case_digit_chars (radix : Z) (ds : list Z) :
  radix <= 36 ->
  digits_in radix ds = true ->
  lower_case (map digit_char ds) = map digit_char ds.
Proof.
  intros Hr. unfold digits_in, lower_case.
  induction ds as [ | d ds IH]; intros Hds; [ reflexivity | ].
  cbn [forallb] in Hds. apply andb_prop in Hds. destruct Hds as [Hd Hds].
  cbn [map]. rewrite (IH Hds), to_lower_digit_char by lia. reflexivity.
Qed.

Lemma parse_digits_lower (R : Z) (s : jsstring) :
  forall (acc : Z) (seen : bool),
    parse_digits R (lower_case s) acc seen = parse_digits R s acc seen.
Proof.
  unfold lower_case.
  induction s as [ | c s IH]; intros acc seen; [ reflexivity | ].
  cbn [map parse_digits].
  rewrite (proj1 (to_lower_facts c)).
  destruct (digit_value c) as [d | ]; [ | reflexivity ].
  destruct (d <? R); [ apply IH | reflexivity ].
Qed.

Lemma trim_start_lower (s : jsstring) :
  trim_start (lower_case s) = lower_case (trim_start s).
Proof.
  unfold lower_case.
  induction s as [ | c s IH]; [ reflexivity | ].
  cbn [map trim_start].
  destruct (to_lower_facts c) as [_ [Hws _]]. rewrite Hws.
  destruct (is_whitespace c); [ exact IH | reflexivity ].
Qed.

Lemma strip_sign_lower (s : jsstring) :
  strip_sign (lower_case s)
  = (fst (strip_sign s), lower_case (snd (strip_sign s))).
Proof.
  unfold lower_case. destruct s as [ | c s]; [ reflexivity | ].
  cbn [map strip_sign].
  destruct (to_lower_facts c) as [_ [_ [Hminus [Hplus _]]]].
  rewrite Hminus, Hplus.
  destruct (code c =? 45); [ reflexivity | ].
  destruct (code c =? 43); reflexivity.
Qed.

Lemma strip_0x_lower (s : jsstring) :
  strip_0x (lower_case s) = option_map lower_case (strip_0x s).
Proof.
  unfold lower_case. destruct s as [ | c0 [ | cx s]]; try reflexivity.
  cbn [map strip_0x].
  destruct (to_lower_facts c0) as [_ [_ [_ [_ [H0 _]]]]].
  destruct (to_lower_facts cx) as [_ [_ [_ [_ [_ Hx]]]]].
  rewrite H0, Hx.
  destruct ((code c0 =? 48) && ((code cx =? 120) || (code cx =? 88)));
    reflexivity.
Qed.

(** [parseInt] does not tell a string from its lower-case form. *)
Lemma parseInt_lower (s : jsstring) (radix : Z) :
  parseInt (lower_case s) radix = parseInt s radix.
Proof.
  unfold parseInt. rewrite trim_start_lower, strip_sign_lower.
  destruct (strip_sign (trim_start s)) as [neg s1]. cbn [fst snd].
  rewrite strip_0x_lower.
  destruct (strip_0x s1) as [s2 | ]; cbn [option_map];
    rewrite ?parse_digits_lower; reflexivity.
Qed.

Lemma slices_lower (passes size : nat) :
  forall rest : jsstring,
    slices passes size (lower_case rest)
    = map lower_case (slices passes size rest).
Proof.
  unfold lower_case.
  induction passes as [ | passes IH]; intros rest; [ reflexivity | ].
  destruct rest as [ | c rest]; [ reflexivity | ].
  cbn [map slices].
  change (to_lower c :: map to_lower rest) with (map to_lower (c :: rest)).
  rewrite firstn_map, skipn_map, IH. reflexivity.
Qed.

Lemma fold_reducer_lower (radix factor : Z) (parts : list jsstring) :
  forall acc : result Z,
    fold_left (reducer radix factor) (map lower_case parts) acc
    = fold_left (reducer radix factor) parts acc.
Proof.
  induction parts as [ | p parts IH]; intros acc; [ reflexivity | ].
  cbn [map fold_left]. rewrite IH. unfold reducer at 2 4.
  rewrite parseInt_lower. reflexivity.
Qed.

(** Nor does [convertToBigInt], on any string and any radix. *)
Lemma convertToBigInt_lower (s : jsstring) (radix : Z) :
  convertToBigInt (lower_case s) radix = convertToBigInt s radix.
Proof.
  unfold convertToBigInt. cbv zeta.
  assert (Hlen : strlen (lower_case s) = strlen s)
    by (unfold strlen, lower_case; rewrite length_map; reflexivity).
  rewrite Hlen.
  set (i := if strlen s mod 10 =? 0 then 10 else strlen s mod 10).
  assert (Hsub : substring (lower_case s) 0 i = lower_case (substring s 0 i)).
  { unfold substring, lower_case. rewrite skipn_map, firstn_map.
    reflexivity. }
  assert (Hfrom : substring_from (lower_case s) i
                  = lower_case (substring_from s i)).
  { unfold substring_from, lower_case. rewrite skipn_map. reflexivity. }
  rewrite Hsub, Hfrom, slices_lower.
  replace (length (lower_case s)) with (length s)
    by (unfold lower_case; rewrite length_map; reflexivity).
  change (lower_case (substring s 0 i)
          :: map lower_case
               (slices (length s) (Z.to_nat 10) (substring_from s i)))
    with (map lower_case
            (substring s 0 i
             :: slices (length s) (Z.to_nat 10) (substring_from s i))).
  apply fold_reducer_lower.
Qed.

Lemma reversed_lower (s : jsstring) (radix : Z) :
  convertToBigInt (reverseString (lower_case s)) radix
  = convertToBigInt (reverseString s) radix.
Proof.
  unfold reverseString, lower_case. rewrite <- map_rev.
  apply convertToBigInt_lower.
Qed.

Lemma calculateP_lower (i radix : Z) (W : list Z) (B : jsstring) :
  calculateP i radix W (lower_case B) = calculateP i radix W B.
Proof. unfold calculateP. cbv zeta. rewrite reversed_lower. reflexivity. Qed.

Lemma mod_nonneg (n m c : Z) : 0 <= m -> mod_ n m = OK c -> 0 <= c.
Proof.
  intros Hm Hc. destruct (Z.eq_dec m 0) as [H0 | H0].
  - subst m. discriminate Hc.
  - rewrite mod_spec in Hc by lia. injection Hc as Hc. subst c.
    apply Z.mod_pos_bound. lia.
Qed.

(** A rendered half is in lower case. *)
Lemma rendered_lower (radix c m : Z) :
  2 <= radix <= 36 ->
  0 <= c ->
  lower_case (reverseString (numeral c radix)
              ++ substring zeros8 0
                   (m - strlen (reverseString (numeral c radix))))
  = reverseString (numeral c radix)
    ++ substring zeros8 0 (m - strlen (reverseString (numeral c radix))).
Proof.
  intros Hr Hc.
  destruct (numeral_digits radix Hr c Hc) as [ds [Hnum [_ [Hin _]]]].
  unfold reverseString. rewrite Hnum, <- map_rev, rev_involutive.
  rewrite zeros8_prefix. rewrite <- map_app.
  apply (lower_case_digit_chars radix); [ lia | ].
  unfold digits_in in *. rewrite forallb_app, Hin.
  apply (digits_in_zeros radix Hr).
Qed.

Section LowerCase.

Variable E : oracle.
Variable this : FF3Cipher.
Variables u v : Z.
Variables Tl Tr : list Z.

(** A round of [encrypt] on the lower-case form of the halves: the same
    block, the same failure or the same new half. *)
Lemma encrypt_round_lower (i : Z) (A B : jsstring) :
  (exists e bl,
     encrypt_round E this u v Tl Tr (radix this ^ u) (radix this ^ v) i
       (A, B) = (Throw e, bl) /\
     encrypt_round E this u v Tl Tr (radix this ^ u) (radix this ^ v) i
       (lower_case A, lower_case B) = (Throw e, bl)) \/
  (exists C bl,
     encrypt_round E this u v Tl Tr (radix this ^ u) (radix this ^ v) i
       (A, B) = (OK (B, C), bl) /\
     encrypt_round E this u v Tl Tr (radix this ^ u) (radix this ^ v) i
       (lower_case A, lower_case B) = (OK (lower_case B, C), bl) /\
     lower_case C = C).
Proof.
  unfold encrypt_round. rewrite calculateP_lower, reversed_lower.
  destruct (calculateP i (radix this) (if i mod 2 =? 0 then Tr else Tl) B)
    as [P | e].
  2: { left. exists e, []. split; reflexivity. }
  rewrite !bind_lift_OK, !bind_update.
  destruct (BigInt_of_hex_of_bytes (rev (E (aesCipher this) (rev P))))
    as [y | e].
  2: { left. exists e, [rev P]. split; reflexivity. }
  rewrite !bind_lift_OK.
  destruct (convertToBigInt (reverseString A) (radix this)) as [c | e];
    cbn [try_catch].
  2: { left. exists (NotWithinRadix (radix this)), [rev P].
       split; reflexivity. }
  rewrite !bind_lift_OK.
  destruct (if i mod 2 =? 0
            then mod_ (c + y) (radix this ^ u)
            else mod_ (c + y) (radix this ^ v)) as [c1 | e] eqn:Hmod.
  2: { left. exists e, [rev P]. split; reflexivity. }
  rewrite !bind_lift_OK. unfold BigInt_toString.
  destruct ((radix this <? 2) || (36 <? radix this)) eqn:Hrange.
  { left. exists RangeError, [rev P]. split; reflexivity. }
  rewrite !bind_lift_OK.
  apply orb_false_elim in Hrange. destruct Hrange as [H2 H36].
  assert (Hr : 2 <= radix this <= 36) by lia.
  assert (Hc1 : 0 <= c1).
  { assert (Hu : 0 <= radix this ^ u) by (apply Z.pow_nonneg; lia).
    assert (Hv : 0 <= radix this ^ v) by (apply Z.pow_nonneg; lia).
    destruct (i mod 2 =? 0); [ apply (mod_nonneg _ _ _ Hu Hmod) | ].
    apply (mod_nonneg _ _ _ Hv Hmod). }
  right. eexists. exists [rev P].
  split; [ reflexivity | ]. split; [ reflexivity | ].
  apply rendered_lower; assumption.
Qed.

(** A round of [decrypt], likewise. *)
Lemma decrypt_round_lower (i : Z) (A B : jsstring) :
  (exists e bl,
     decrypt_round E this u v Tl Tr (radix this ^ u) (radix this ^ v) i
       (A, B) = (Throw e, bl) /\
     decrypt_round E this u v Tl Tr (radix this ^ u) (radix this ^ v) i
       (lower_case A, lower_case B) = (Throw e, bl)) \/
  (exists C bl,
     decrypt_round E this u v Tl Tr (radix this ^ u) (radix this ^ v) i
       (A, B) = (OK (C, A), bl) /\
     decrypt_round E this u v Tl Tr (radix this ^ u) (radix this ^ v) i
       (lower_case A, lower_case B) = (OK (C, lower_case A), bl) /\
     lower_case C = C).
Proof.
  unfold decrypt_round. rewrite calculateP_lower, reversed_lower.
  destruct (calculateP i (radix this) (if i mod 2 =? 0 then Tr else Tl) A)
    as [P | e].
  2: { left. exists e, []. split; reflexivity. }
  rewrite !bind_lift_OK, !bind_update.
  destruct (BigInt_of_hex_of_bytes (rev (E (aesCipher this) (rev P))))
    as [y | e].
  2: { left. exists e, [rev P]. split; reflexivity. }
  rewrite !bind_lift_OK.
  destruct (convertToBigInt (reverseString B) (radix this)) as [c | e];
    cbn [try_catch].
  2: { left. exists (NotWithinRadix (radix this)), [rev P].
       split; reflexivity. }
  rewrite !bind_lift_OK.
  destruct (if i mod 2 =? 0
            then mod_ (c - y) (radix this ^ u)
            else mod_ (c - y) (radix this ^ v)) as [c1 | e] eqn:Hmod.
  2: { left. exists e, [rev P]. split; reflexivity. }
  rewrite !bind_lift_OK. unfold BigInt_toString.
  destruct ((radix this <? 2) || (36 <? radix this)) eqn:Hrange.
  { left. exists RangeError, [rev P]. split; reflexivity. }
  rewrite !bind_lift_OK.
  apply orb_false_elim in Hrange. destruct Hrange as [H2 H36].
  assert (Hr : 2 <= radix this <= 36) by lia.
  assert (Hc1 : 0 <= c1).
  { assert (Hu : 0 <= radix this ^ u) by (apply Z.pow_nonneg; lia).
    assert (Hv : 0 <= radix this ^ v) by (apply Z.pow_nonneg; lia).
    destruct (i mod 2 =? 0); [ apply (mod_nonneg _ _ _ Hu Hmod) | ].
    apply (mod_nonneg _ _ _ Hv Hmod). }
  right. eexists. exists [rev P].
  split; [ reflexivity | ]. split; [ reflexivity | ].
  apply rendered_lower; assumption.
Qed.

(** The loop of [encrypt] on the lower-case form of the halves: the same
    blocks and the same failure, or the lower-case form of the same
    halves; after two rounds both halves are rendered ones. *)
Lemma encrypt_rounds_lower (ix : list Z) :
  forall A B : jsstring,
    (exists e bl,
       rounds (encrypt_round E this u v Tl Tr
                 (radix this ^ u) (radix this ^ v)) ix (A, B)
       = (Throw e, bl) /\
       rounds (encrypt_round E this u v Tl Tr
                 (radix this ^ u) (radix this ^ v)) ix
              (lower_case A, lower_case B)
       = (Throw e, bl)) \/
    (exists A1 B1 bl,
       rounds (encrypt_round E this u v Tl Tr
                 (radix this ^ u) (radix this ^ v)) ix (A, B)
       = (OK (A1, B1), bl) /\
       rounds (encrypt_round E this u v Tl Tr
                 (radix this ^ u) (radix this ^ v)) ix
              (lower_case A, lower_case B)
       = (OK (lower_case A1, lower_case B1), bl) /\
       (lower_case A = A -> lower_case B = B ->
        lower_case A1 = A1 /\ lower_case B1 = B1) /\
       (lower_case B = B -> (1 <= length ix)%nat ->
        lower_case A1 = A1 /\ lower_case B1 = B1) /\
       ((2 <= length ix)%nat ->
        lower_case A1 = A1 /\ lower_case B1 = B1)).
Proof.
  induction ix as [ | i ix IH]; intros A B.
  - right. exists A, B, []. cbn [rounds length].
    split; [ reflexivity | ]. split; [ reflexivity | ].
    split; [ tauto | ]. split; intros; lia.
  - cbn [rounds length].
    destruct (encrypt_round_lower i A B)
      as [[e [bl [H1 H2]]] | [C [bl [H1 [H2 HC]]]]].
    + left. exists e, bl. rewrite H1, H2. split; reflexivity.
    + rewrite H1, H2. cbn [bind].
      destruct (IH B C)
        as [[e [bl' [H3 H4]]] | [A1 [B1 [bl' [H3 [H4 [F0 [F1 F2]]]]]]]].
      * left. exists e, (bl ++ bl'). rewrite HC in H4.
        rewrite H3, H4. split; reflexivity.
      * right. exists A1, B1, (bl ++ bl'). rewrite HC in H4.
        rewrite H3, H4.
        split; [ reflexivity | ]. split; [ reflexivity | ].
        split; [ | split ].
        -- intros _ HB. apply F0; assumption.
        -- intros HB _. apply F0; assumption.
        -- intros Hlen. apply F1; [ exact HC | lia ].
Qed.

(** The loop of [decrypt], likewise. *)
Lemma decrypt_rounds_lower (ix : list Z) :
  forall A B : jsstring,
    (exists e bl,
       rounds (decrypt_round E this u v Tl Tr
                 (radix this ^ u) (radix this ^ v)) ix (A, B)
       = (Throw e, bl) /\
       rounds (decrypt_round E this u v Tl Tr
                 (radix this ^ u) (radix this ^ v)) ix
              (lower_case A, lower_case B)
       = (Throw e, bl)) \/
    (exists A1 B1 bl,
       rounds (decrypt_round E this u v Tl Tr
                 (radix this ^ u) (radix this ^ v)) ix (A, B)
       = (OK (A1, B1), bl) /\
       rounds (decrypt_round E this u v Tl Tr
                 (radix this ^ u) (radix this ^ v)) ix
              (lower_case A, lower_case B)
       = (OK (lower_case A1, lower_case B1), bl) /\
       (lower_case A = A -> lower_case B = B ->
        lower_case A1 = A1 /\ lower_case B1 = B1) /\
       (lower_case A = A -> (1 <= length ix)%nat ->
        lower_case A1 = A1 /\ lower_case B1 = B1) /\
       ((2 <= length ix)%nat ->
        lower_case A1 = A1 /\ lower_case B1 = B1)).
Proof.
  induction ix as [ | i ix IH]; intros A B.
  - right. exists A, B, []. cbn [rounds length].
    split; [ reflexivity | ]. split; [ reflexivity | ].
    split; [ tauto | ]. split; intros; lia.
  - cbn [rounds length].
    destruct (decrypt_round_lower i A B)
      as [[e [bl [H1 H2]]] | [C [bl [H1 [H2 HC]]]]].
    + left. exists e, bl. rewrite H1, H2. split; reflexivity.
    + rewrite H1, H2. cbn [bind].
      destruct (IH C A)
        as [[e [bl' [H3 H4]]] | [A1 [B1 [bl' [H3 [H4 [F0 [F1 F2]]]]]]]].
      * left. exists e, (bl ++ bl'). rewrite HC in H4.
        rewrite H3, H4. split; reflexivity.
      * right. exists A1, B1, (bl ++ bl'). rewrite HC in H4.
        rewrite H3, H4.
        split; [ reflexivity | ]. split; [ reflexivity | ].
        split; [ | split ].
        -- intros HA _. apply F0; assumption.
        -- intros HA _. apply F0; assumption.
        -- intros Hlen. apply F1; [ exact HC | lia ].
Qed.

End LowerCase.

Lemma strlen_lower (s : jsstring) : strlen (lower_case s) = strlen s.
Proof. unfold strlen, lower_case. rewrite length_map. reflexivity. Qed.

Lemma substring_lower (s : jsstring) (a b : Z) :
  substring (lower_case s) a b = lower_case (substring s a b).
Proof.
  unfold substring, lower_case. rewrite skipn_map, firstn_map. reflexivity.
Qed.

Lemma substring_from_lower (s : jsstring) (a : Z) :
  substring_from (lower_case s) a = lower_case (substring_from s a).
Proof. unfold substring_from, lower_case. apply skipn_map. Qed.

Lemma encrypt_lower (E : oracle) (this : FF3Cipher) (text : jsstring) :
  encrypt E this (lower_case text) = encrypt E this text.
Proof.
  unfold encrypt, encrypt_loop.
  rewrite strlen_lower, substring_lower, substring_from_lower.
  destruct (encrypt_rounds_lower E this (ceil_half (strlen text))
              (strlen text - ceil_half (strlen text))
              (slice (tweakBytes this) 0 HALF_TWEAK_LEN)
              (slice (tweakBytes this) HALF_TWEAK_LEN TWEAK_LEN)
              round_indices
              (substring text 0 (ceil_half (strlen text)))
              (substring_from text (ceil_half (strlen text))))
    as [[e [bl [H1 H2]]] | [A1 [B1 [bl [H1 [H2 [_ [_ F2]]]]]]]].
  - rewrite H1, H2. reflexivity.
  - destruct F2 as [HA1 HB1]; [ vm_compute; lia | ].
    rewrite H1, H2, HA1, HB1. reflexivity.
Qed.

Lemma decrypt_lower (E : oracle) (this : FF3Cipher) (text : jsstring) :
  decrypt E this (lower_case text) = decrypt E this text.
Proof.
  unfold decrypt, decrypt_loop.
  rewrite strlen_lower, substring_lower, substring_from_lower.
  destruct (decrypt_rounds_lower E this (ceil_half (strlen text))
              (strlen text - ceil_half (strlen text))
              (slice (tweakBytes this) 0 HALF_TWEAK_LEN)
              (slice (tweakBytes this) HALF_TWEAK_LEN TWEAK_LEN)
              (rev round_indices)
              (substring text 0 (ceil_half (strlen text)))
              (substring_from text (ceil_half (strlen text))))
    as [[e [bl [H1 H2]]] | [A1 [B1 [bl [H1 [H2 [_ [_ F2]]]]]]]].
  - rewrite H1, H2. reflexivity.
  - destruct F2 as [HA1 HB1]; [ vm_compute; lia | ].
    rewrite H1, H2, HA1, HB1. reflexivity.
Qed.

(** X19: the methods read letters in either case.  For every context,
    every block oracle and every string, digit string or not, [encrypt]
    and [decrypt] return (or throw, with the same blocks passed to the
    cipher) on the string what they return on its lower-case form. *)
Theorem X19_letter_case_ignored
  (E : oracle) (this : FF3Cipher) (text : jsstring) :
  encrypt E this text = encrypt E this (lower_case text) /\
  decrypt E this text = decrypt E this (lower_case text).
Proof.
  split; symmetry; [ apply encrypt_lower | apply decrypt_lower ].
Qed.

(** X20: so an upper-case plaintext is not restored.  When the lower-case
    form of the text is a digit string of the radix, within the length
    bounds and with a longer half of at most nine symbols, [encrypt]
    returns a string of the same length and [decrypt] of that string
    returns the lower-case form of the text. *)
Theorem X20_round_trip_lowers_case
  (E : oracle) (key tweak : jsstring) (r : Z) (this : FF3Cipher)
  (text : jsstring) :
  new key tweak r = OK this ->
  len (Buffer_from_hex tweak) = 7 \/ len (Buffer_from_hex tweak) = 8 ->
  answers E (aesCipher this) ->
  is_digit_string r (lower_case text) = true ->
  minLen this <= strlen text <= maxLen this ->
  ceil_half (strlen text) <= 9 ->
  exists out,
    fst (encrypt E this text) = OK out /\
    strlen out = strlen text /\
    fst (decrypt E this out) = OK (lower_case text).
Proof.
  intros Hnew Htweak HE Htext Hn H9.
  rewrite <- (strlen_lower text) in Hn, H9.
  destruct (roundtrip_when_padding_suffices E key tweak r this
              (lower_case text) Hnew Htweak HE Htext Hn H9)
    as [out [Henc [Hlen [_ Hdec]]]].
  exists out. rewrite <- encrypt_lower, <- (strlen_lower text).
  split; [ exact Henc | ]. split; [ exact Hlen | exact Hdec ].
Qed.

Lemma X20_witness :
  exists out,
    fst (encrypt AES_ECB sample_cipher36 (str "FF3Cipher")) = OK out /\
    strlen out = strlen (str "FF3Cipher") /\
    fst (decrypt AES_ECB sample_cipher36 out)
    = OK (lower_case (str "FF3Cipher")).
Proof.
  assert (Hnew : new sample_key sample_tweak 36 = OK sample_cipher36)
    by (vm_compute; reflexivity).
  apply (X20_round_trip_lowers_case AES_ECB sample_key sample_tweak 36
           sample_cipher36 (str "FF3Cipher")).
  - exact Hnew.
  - right. vm_compute. reflexivity.
  - exact (AES_answers_new sample_key sample_tweak 36 sample_cipher36 Hnew).
  - vm_compute. reflexivity.
  - vm_compute. split; discriminate.
  - vm_compute. discriminate.
Defined.

(** ** The blocks the rounds pass to the cipher *)

Lemma round_indices_split (k : nat) :
  (k < 8)%nat ->
  firstn k round_indices = indices_from 0 k /\
  firstn (S k) round_indices = indices_from 0 k ++ [Z.of_nat k] /\
  round_indices
  = indices_from 0 k ++ Z.of_nat k :: indices_from (S k) (7 - k).
Proof.
  intros Hk.
  do 8 (destruct k as [ | k]; [ repeat split; reflexivity | ]). lia.
Qed.

Lemma rev_round_indices_split (k : nat) :
  (k < 8)%nat ->
  firstn k (rev round_indices) = rev (indices_from (8 - k) k) /\
  firstn (S k) (rev round_indices)
  = rev (indices_from (8 - k) k) ++ [Z.of_nat (7 - k)] /\
  rev round_indices
  = rev (indices_from (8 - k) k)
    ++ Z.of_nat (7 - k) :: rev (indices_from 0 (7 - k)).
Proof.
  intros Hk.
  do 8 (destruct k as [ | k]; [ repeat split; reflexivity | ]). lia.
Qed.

(** The block of the round that follows a prefix of the loop. *)
Lemma nth_block (body : Z -> halves -> run halves) (l1 l2 : list Z) (i : Z)
  (st st1 st2 : halves) (bl1 : list (list Z)) (b : list Z) :
  rounds body l1 st = (OK st1, bl1) ->
  body i st1 = (OK st2, [b]) ->
  rounds body (l1 ++ [i]) st = (OK st2, bl1 ++ [b]) /\
  nth_error (snd (rounds body (l1 ++ i :: l2) st)) (length bl1) = Some b.
Proof.
  intros H1 H2. split.
  - rewrite rounds_app, H1. cbn [bind rounds]. rewrite H2. reflexivity.
  - rewrite rounds_app, H1. cbn [bind rounds]. rewrite H2. cbn [bind].
    destruct (rounds body l2 st2) as [res bl2]. cbn [snd].
    rewrite nth_error_app2 by lia. rewrite Nat.sub_diag. reflexivity.
Qed.

Lemma snd_encrypt (E : oracle) (this : FF3Cipher) (text : jsstring) :
  snd (encrypt E this text) = snd (encrypt_loop E this text round_indices).
Proof.
  unfold encrypt.
  destruct (encrypt_loop E this text round_indices) as [[AB | e] bl];
    cbn [bind ret snd]; [ apply app_nil_r | reflexivity ].
Qed.

Lemma snd_decrypt (E : oracle) (this : FF3Cipher) (text : jsstring) :
  snd (decrypt E this text)
  = snd (decrypt_loop E this text (rev round_indices)).
Proof.
  unfold decrypt.
  destruct (decrypt_loop E this text (rev round_indices)) as [[AB | e] bl];
    cbn [bind ret snd]; [ apply app_nil_r | reflexivity ].
Qed.

Lemma round_block_shape (i : Z) (W bs : list Z) :
  1 <= len bs <= 12 ->
  firstn 4 (round_block i W bs) = block_prefix i W /\
  length (round_block i W bs) = 16%nat.
Proof.
  intros Hbs. unfold round_block, len in *. split.
  - reflexivity.
  - rewrite !length_app, repeat_length.
    change (length (block_prefix i W)) with 4%nat. lia.
Qed.

(** Round [k] of [encrypt] on an in-bounds digit string: the state it is
    reached in, the block it builds and passes, and the state it leaves. *)
Lemma encrypt_round_reached
  (E : oracle) (key tweak : jsstring) (r : Z) (this : FF3Cipher)
  (text : jsstring) (k : nat) :
  new key tweak r = OK this ->
  len (Buffer_from_hex tweak) = 7 \/ len (Buffer_from_hex tweak) = 8 ->
  answers E (aesCipher this) ->
  is_digit_string r text = true ->
  minLen this <= strlen text <= maxLen this ->
  (k < 8)%nat ->
  exists A B C bs,
    fst (encrypt_loop E this text (firstn k round_indices)) = OK (A, B) /\
    fst (encrypt_loop E this text (firstn (S k) round_indices))
    = OK (B, C) /\
    0 <= radix_value r (rev B) < 2 ^ 96 /\
    minimal_big_endian (radix_value r (rev B)) bs /\
    1 <= len bs <= 12 /\
    calculateP (Z.of_nat k) r (round_tweak this (Z.of_nat k)) B
    = OK (round_block (Z.of_nat k) (round_tweak this (Z.of_nat k)) bs) /\
    nth_error (snd (encrypt E this text)) k
    = Some (rev (round_block (Z.of_nat k)
                   (round_tweak this (Z.of_nat k)) bs)) /\
    radix_value r (rev C)
    = (radix_value r (rev A)
       + be_value
           (rev (E (aesCipher this)
                   (rev (round_block (Z.of_nat k)
                           (round_tweak this (Z.of_nat k)) bs)))))
      mod r ^ half_length (ceil_half (strlen text))
                (strlen text - ceil_half (strlen text)) k.
Proof.
  intros Hnew Htweak HE Htext Hn Hk.
  destruct (context_facts key tweak r this (strlen text) Hnew Hn)
    as [Hr [Hrad [Hn2 [Huv Hcap]]]].
  pose proof (tweak_length_of_new key tweak r this Hnew Htweak) as Htw.
  rewrite <- Hrad in Htext |- *.
  destruct (initial_halves (radix this) text Htext Huv) as [HA0 HB0].
  apply half_exact_is_ok in HA0; [ | lia ].
  apply half_exact_is_ok in HB0; [ | lia ].
  destruct (round_indices_split k Hk) as [Hf [HfS Hall]].
  set (u := ceil_half (strlen text)) in *.
  set (v := strlen text - u) in *.
  set (Tl := slice (tweakBytes this) 0 HALF_TWEAK_LEN).
  set (Tr := slice (tweakBytes this) HALF_TWEAK_LEN TWEAK_LEN).
  destruct (encrypt_loop_bounded E this u v Tl Tr HE Hr Huv Hcap k 0 _ _
              HA0 HB0)
    as [A [B [bl1 [Hrun [HA [HB [Hcount _]]]]]]].
  apply (half_of_length this u v Huv) in HA, HB.
  destruct (encrypt_round_ok E this u v Tl Tr HE Hr Huv Hcap (Z.of_nat k)
              A B HA HB)
    as [P [C [HP [Hround [_ [Hval _]]]]]].
  destruct (half_fits this u Hr Hcap (Z.of_nat k)
              (round_tweak this (Z.of_nat k)) B HB)
    as [bs [Hv [Hmin [Hlen HP']]]].
  fold (round_block (Z.of_nat k) (round_tweak this (Z.of_nat k)) bs) in HP'.
  change (if Z.of_nat k mod 2 =? 0 then Tr else Tl)
    with (round_tweak this (Z.of_nat k)) in HP.
  assert (HPeq : P = round_block (Z.of_nat k)
                       (round_tweak this (Z.of_nat k)) bs) by congruence.
  subst P.
  destruct (nth_block _ _ (indices_from (S k) (7 - k)) _ _ _ _ _ _
              Hrun Hround) as [Hnext Hnth].
  rewrite even_round in Hval. fold (half_length u v k) in Hval.
  exists A, B, C, bs.
  split; [ | split; [ | split; [ exact Hv | split; [ exact Hmin | split;
    [ exact Hlen | split; [ exact HP' | split; [ | exact Hval ] ] ] ] ] ] ].
  - unfold encrypt_loop. rewrite (guards_pass this _ Hn Htw), bind_ret.
    rewrite Hf. fold u v Tl Tr. rewrite Hrun. reflexivity.
  - unfold encrypt_loop. rewrite (guards_pass this _ Hn Htw), bind_ret.
    rewrite HfS. fold u v Tl Tr. rewrite Hnext. reflexivity.
  - rewrite snd_encrypt. unfold encrypt_loop.
    rewrite (guards_pass this _ Hn Htw), bind_ret.
    rewrite Hall. fold u v Tl Tr. rewrite Hcount in Hnth. exact Hnth.
Qed.

(** Round [k] of [decrypt] (the round of index [7 - k]), likewise. *)
Lemma decrypt_round_reached
  (E : oracle) (key tweak : jsstring) (r : Z) (this : FF3Cipher)
  (text : jsstring) (k : nat) :
  new key tweak r = OK this ->
  len (Buffer_from_hex tweak) = 7 \/ len (Buffer_from_hex tweak) = 8 ->
  answers E (aesCipher this) ->
  is_digit_string r text = true ->
  minLen this <= strlen text <= maxLen this ->
  (k < 8)%nat ->
  exists A B C bs,
    fst (decrypt_loop E this text (firstn k (rev round_indices)))
    = OK (A, B) /\
    fst (decrypt_loop E this text (firstn (S k) (rev round_indices)))
    = OK (C, A) /\
    0 <= radix_value r (rev A) < 2 ^ 96 /\
    minimal_big_endian (radix_value r (rev A)) bs /\
    1 <= len bs <= 12 /\
    calculateP (7 - Z.of_nat k) r (round_tweak this (7 - Z.of_nat k)) A
    = OK (round_block (7 - Z.of_nat k)
            (round_tweak this (7 - Z.of_nat k)) bs) /\
    nth_error (snd (decrypt E this text)) k
    = Some (rev (round_block (7 - Z.of_nat k)
                   (round_tweak this (7 - Z.of_nat k)) bs)) /\
    radix_value r (rev C)
    = (radix_value r (rev B)
       - be_value
           (rev (E (aesCipher this)
                   (rev (round_block (7 - Z.of_nat k)
                           (round_tweak this (7 - Z.of_nat k)) bs)))))
      mod r ^ half_length (ceil_half (strlen text))
                (strlen text - ceil_half (strlen text)) (7 - k).
Proof.
  intros Hnew Htweak HE Htext Hn Hk.
  destruct (context_facts key tweak r this (strlen text) Hnew Hn)
    as [Hr [Hrad [Hn2 [Huv Hcap]]]].
  pose proof (tweak_length_of_new key tweak r this Hnew Htweak) as Htw.
  rewrite <- Hrad in Htext |- *.
  destruct (initial_halves (radix this) text Htext Huv) as [HA0 HB0].
  apply half_exact_is_ok in HA0; [ | lia ].
  apply half_exact_is_ok in HB0; [ | lia ].
  destruct (rev_round_indices_split k Hk) as [Hf [HfS Hall]].
  replace (7 - Z.of_nat k) with (Z.of_nat (7 - k)) by lia.
  set (u := ceil_half (strlen text)) in *.
  set (v := strlen text - u) in *.
  set (Tl := slice (tweakBytes this) 0 HALF_TWEAK_LEN).
  set (Tr := slice (tweakBytes this) HALF_TWEAK_LEN TWEAK_LEN).
  assert (HA8 : half_ok (radix this) (half_length u v (8 - k + k))
                  (substring text 0 u))
    by (replace (8 - k + k)%nat with 8%nat by lia; exact HA0).
  assert (HB8 : half_ok (radix this) (half_length u v (S (8 - k + k)))
                  (substring_from text u))
    by (replace (8 - k + k)%nat with 8%nat by lia; exact HB0).
  destruct (decrypt_loop_bounded E this u v Tl Tr HE Hr Huv Hcap k (8 - k)
              _ _ HA8 HB8)
    as [A [B [bl1 [Hrun [HA [HB [Hcount _]]]]]]].
  apply (half_of_length this u v Huv) in HA, HB.
  destruct (decrypt_round_ok E this u v Tl Tr HE Hr Huv Hcap
              (Z.of_nat (7 - k)) A B HA HB)
    as [P [C [HP [Hround [_ [Hval _]]]]]].
  destruct (half_fits this u Hr Hcap (Z.of_nat (7 - k))
              (round_tweak this (Z.of_nat (7 - k))) A HA)
    as [bs [Hv [Hmin [Hlen HP']]]].
  fold (round_block (Z.of_nat (7 - k))
          (round_tweak this (Z.of_nat (7 - k))) bs) in HP'.
  change (if Z.of_nat (7 - k) mod 2 =? 0 then Tr else Tl)
    with (round_tweak this (Z.of_nat (7 - k))) in HP.
  assert (HPeq : P = round_block (Z.of_nat (7 - k))
                       (round_tweak this (Z.of_nat (7 - k))) bs)
    by congruence.
  subst P.
  destruct (nth_block _ _ (rev (indices_from 0 (7 - k))) _ _ _ _ _ _
              Hrun Hround) as [Hnext Hnth].
  rewrite even_round in Hval. fold (half_length u v (7 - k)) in Hval.
  exists A, B, C, bs.
  split; [ | split; [ | split; [ exact Hv | split; [ exact Hmin | split;
    [ exact Hlen | split; [ exact HP' | split; [ | exact Hval ] ] ] ] ] ] ].
  - unfold decrypt_loop. rewrite (guards_pass this _ Hn Htw), bind_ret.
    rewrite Hf. fold u v Tl Tr. rewrite Hrun. reflexivity.
  - unfold decrypt_loop. rewrite (guards_pass this _ Hn Htw), bind_ret.
    rewrite HfS. fold u v Tl Tr. rewrite Hnext. reflexivity.
  - rewrite snd_decrypt. unfold decrypt_loop.
    rewrite (guards_pass this _ Hn Htw), bind_ret.
    rewrite Hall. fold u v Tl Tr. rewrite Hcount in Hnth. exact Hnth.
Qed.

(** C9, as stated, fails: the methods do not check the symbols of their
    input.  In radix 2 the string of 191 ones and a minus sign has an
    in-bounds length (192).  [encrypt] enters round 0 with its second half,
    95 ones and the minus sign; read digit-reversed that half is a
    negative number, [bigToUint8Array] gives it thirteen bytes, and they
    cover byte 3 of the block: [255], where the tweak-and-round byte is
    [115].  That block, byte-reversed, is the first one passed to the
    cipher, and the call returns a string. *)
Lemma C9_counterexample :
  new sample_key sample_tweak 2 = OK sample_cipher2 /\
  minLen sample_cipher2 <= strlen ones_then_minus
                        <= maxLen sample_cipher2 /\
  fst (encrypt_loop AES_ECB sample_cipher2 ones_then_minus
         (firstn 0 round_indices))
  = OK (repeat "1"%char 96, repeat "1"%char 95 ++ [ "-"%char ]) /\
  convertToBigInt (reverseString (repeat "1"%char 95 ++ [ "-"%char ])) 2
  = OK (-37138201178561408246973726721) /\
  len (bigToUint8Array (-37138201178561408246973726721)) = 13 /\
  calculateP 0 2 (round_tweak sample_cipher2 0)
    (repeat "1"%char 95 ++ [ "-"%char ])
  = OK [250; 51; 10; 255; 135; 255; 255; 255;
        255; 255; 255; 255; 255; 255; 255; 255] /\
  block_prefix 0 (round_tweak sample_cipher2 0) = [250; 51; 10; 115] /\
  nth_error (snd (encrypt AES_ECB sample_cipher2 ones_then_minus)) 0
  = Some [255; 255; 255; 255; 255; 255; 255; 255;
          255; 255; 255; 135; 255; 10; 51; 250] /\
  (exists out, fst (encrypt AES_ECB sample_cipher2 ones_then_minus) = OK out).
Proof.
  split; [ vm_compute; reflexivity | ].
  split; [ vm_compute; split; discriminate | ].
  split; [ vm_compute; reflexivity | ].
  split; [ vm_compute; reflexivity | ].
  split; [ vm_compute; reflexivity | ].
  split; [ vm_compute; reflexivity | ].
  split; [ vm_compute; reflexivity | ].
  split; [ vm_compute; reflexivity | ].
  eexists. vm_compute. reflexivity.
Qed.

(** C9, amended to digit strings: in a context made by the constructor
    (tweak of 7 or 8 bytes), for a digit string of the radix whose length
    is within the bounds, each of the eight rounds of [encrypt] and of
    [decrypt] is reached; the half it passes to [calculateP] has a value
    in [0, 2^96), whose minimal big-endian encoding has at most twelve
    bytes; [calculateP] does not throw and returns the sixteen-byte block
    whose first four bytes are the tweak-and-round bytes and whose last
    bytes are that encoding; and this block, byte-reversed, is the block
    the round passes to the cipher. *)
Theorem C9_digit_halves_fit_block
  (E : oracle) (key tweak : jsstring) (r : Z) (this : FF3Cipher)
  (text : jsstring) (k : nat) :
  new key tweak r = OK this ->
  len (Buffer_from_hex tweak) = 7 \/ len (Buffer_from_hex tweak) = 8 ->
  answers E (aesCipher this) ->
  is_digit_string r text = true ->
  minLen this <= strlen text <= maxLen this ->
  (k < 8)%nat ->
  (exists A B bs,
     fst (encrypt_loop E this text (firstn k round_indices)) = OK (A, B) /\
     0 <= radix_value r (rev B) < 2 ^ 96 /\
     minimal_big_endian (radix_value r (rev B)) bs /\
     1 <= len bs <= 12 /\
     calculateP (Z.of_nat k) r (round_tweak this (Z.of_nat k)) B
     = OK (round_block (Z.of_nat k) (round_tweak this (Z.of_nat k)) bs) /\
     firstn 4 (round_block (Z.of_nat k) (round_tweak this (Z.of_nat k)) bs)
     = block_prefix (Z.of_nat k) (round_tweak this (Z.of_nat k)) /\
     length (round_block (Z.of_nat k) (round_tweak this (Z.of_nat k)) bs)
     = 16%nat /\
     nth_error (snd (encrypt E this text)) k
     = Some (rev (round_block (Z.of_nat k)
                    (round_tweak this (Z.of_nat k)) bs))) /\
  (exists A B bs,
     fst (decrypt_loop E this text (firstn k (rev round_indices)))
     = OK (A, B) /\
     0 <= radix_value r (rev A) < 2 ^ 96 /\
     minimal_big_endian (radix_value r (rev A)) bs /\
     1 <= len bs <= 12 /\
     calculateP (7 - Z.of_nat k) r (round_tweak this (7 - Z.of_nat k)) A
     = OK (round_block (7 - Z.of_nat k)
             (round_tweak this (7 - Z.of_nat k)) bs) /\
     firstn 4 (round_block (7 - Z.of_nat k)
                 (round_tweak this (7 - Z.of_nat k)) bs)
     = block_prefix (7 - Z.of_nat k) (round_tweak this (7 - Z.of_nat k)) /\
     length (round_block (7 - Z.of_nat k)
               (round_tweak this (7 - Z.of_nat k)) bs)
     = 16%nat /\
     nth_error (snd (decrypt E this text)) k
     = Some (rev (round_block (7 - Z.of_nat k)
                    (round_tweak this (7 - Z.of_nat k)) bs))).
Proof.
  intros Hnew Htweak HE Htext Hn Hk. split.
  - destruct (encrypt_round_reached E key tweak r this text k
                Hnew Htweak HE Htext Hn Hk)
      as [A [B [C [bs [Hloop [_ [Hv [Hmin [Hlen [HP [Hnth _]]]]]]]]]]].
    destruct (round_block_shape (Z.of_nat k)
                (round_tweak this (Z.of_nat k)) bs Hlen) as [H4 H16].
    exists A, B, bs. repeat (split; [ assumption | ]). exact Hnth.
  - destruct (decrypt_round_reached E key tweak r this text k
                Hnew Htweak HE Htext Hn Hk)
      as [A [B [C [bs [Hloop [_ [Hv [Hmin [Hlen [HP [Hnth _]]]]]]]]]]].
    destruct (round_block_shape (7 - Z.of_nat k)
                (round_tweak this (7 - Z.of_nat k)) bs Hlen) as [H4 H16].
    exists A, B, bs. repeat (split; [ assumption | ]). exact Hnth.
Qed.

Lemma C9_witness :
  (exists A B bs,
     fst (encrypt_loop AES_ECB sample_cipher (str "890121234567890000")
            (firstn 3 round_indices)) = OK (A, B) /\
     0 <= radix_value 10 (rev B) < 2 ^ 96 /\
     minimal_big_endian (radix_value 10 (rev B)) bs /\
     1 <= len bs <= 12 /\
     calculateP (Z.of_nat 3) 10 (round_tweak sample_cipher (Z.of_nat 3)) B
     = OK (round_block (Z.of_nat 3)
             (round_tweak sample_cipher (Z.of_nat 3)) bs) /\
     firstn 4 (round_block (Z.of_nat 3)
                 (round_tweak sample_cipher (Z.of_nat 3)) bs)
     = block_prefix (Z.of_nat 3) (round_tweak sample_cipher (Z.of_nat 3)) /\
     length (round_block (Z.of_nat 3)
               (round_tweak sample_cipher (Z.of_nat 3)) bs)
     = 16%nat /\
     nth_error (snd (encrypt AES_ECB sample_cipher
                       (str "890121234567890000"))) 3
     = Some (rev (round_block (Z.of_nat 3)
                    (round_tweak sample_cipher (Z.of_nat 3)) bs))) /\
  (exists A B bs,
     fst (decrypt_loop AES_ECB sample_cipher (str "890121234567890000")
            (firstn 3 (rev round_indices))) = OK (A, B) /\
     0 <= radix_value 10 (rev A) < 2 ^ 96 /\
     minimal_big_endian (radix_value 10 (rev A)) bs /\
     1 <= len bs <= 12 /\
     calculateP (7 - Z.of_nat 3) 10
       (round_tweak sample_cipher (7 - Z.of_nat 3)) A
     = OK (round_block (7 - Z.of_nat 3)
             (round_tweak sample_cipher (7 - Z.of_nat 3)) bs) /\
     firstn 4 (round_block (7 - Z.of_nat 3)
                 (round_tweak sample_cipher (7 - Z.of_nat 3)) bs)
     = block_prefix (7 - Z.of_nat 3)
         (round_tweak sample_cipher (7 - Z.of_nat 3)) /\
     length (round_block (7 - Z.of_nat 3)
               (round_tweak sample_cipher (7 - Z.of_nat 3)) bs)
     = 16%nat /\
     nth_error (snd (decrypt AES_ECB sample_cipher
                       (str "890121234567890000"))) 3
     = Some (rev (round_block (7 - Z.of_nat 3)
                    (round_tweak sample_cipher (7 - Z.of_nat 3)) bs))).
Proof.
  apply (C9_digit_halves_fit_block AES_ECB sample_key sample_tweak 10
           sample_cipher (str "890121234567890000") 3).
  - vm_compute. reflexivity.
  - right. vm_compute. reflexivity.
  - exact AES_sample_answers.
  - vm_compute. reflexivity.
  - vm_compute. split; discriminate.
  - lia.
Defined.

Lemma encrypt_of_loop (E : oracle) (this : FF3Cipher) (text A B : jsstring) :
  fst (encrypt_loop E this text (firstn 8 round_indices)) = OK (A, B) ->
  fst (encrypt E this text) = OK (A ++ B).
Proof.
  change (firstn 8 round_indices) with round_indices. unfold encrypt.
  destruct (encrypt_loop E this text round_indices) as [[AB | e] bl];
    cbn [fst bind ret]; [ | discriminate ].
  intros H. injection H as H. subst AB. reflexivity.
Qed.

Lemma decrypt_of_loop (E : oracle) (this : FF3Cipher) (text A B : jsstring) :
  fst (decrypt_loop E this text (firstn 8 (rev round_indices))) = OK (A, B) ->
  fst (decrypt E this text) = OK (A ++ B).
Proof.
  change (firstn 8 (rev round_indices)) with (rev round_indices).
  unfold decrypt.
  destruct (decrypt_loop E this text (rev round_indices)) as [[AB | e] bl];
    cbn [fst bind ret]; [ | discriminate ].
  intros H. injection H as H. subst AB. reflexivity.
Qed.

(** C10: the cipher object of a context is made by [createCipheriv] (the
    encrypting direction) with the byte-reversed decoded key, and both
    methods use the block oracle of that one object.
    - Nothing else of the oracle matters: [encrypt] and [decrypt] are
      unchanged by any change of the oracle away from that object.
    - It is used, in every round of both methods: on an in-bounds digit
      string, round [k] is reached in a state [(A, B)], builds a block [P]
      and passes [P], byte-reversed, to the cipher as its [k]-th block;
      the state it leaves holds the half whose value is that of [A]
      (for [decrypt], of [B]) plus (for [decrypt], minus) the big-endian
      value of the byte-reversed answer of the oracle of that object to
      that block, reduced modulo [radix ^ m].
    - What the methods return is the two halves the last round leaves. *)
Theorem C10_reversed_key_oracle
  (key tweak : jsstring) (r : Z) (this : FF3Cipher) :
  new key tweak r = OK this ->
  (exists algo,
     aesCipher this = createCipheriv algo (rev (Buffer_from_hex key))) /\
  (forall E1 E2 : oracle,
     (forall block,
        E1 (aesCipher this) block = E2 (aesCipher this) block) ->
     forall text,
       encrypt E1 this text = encrypt E2 this text /\
       decrypt E1 this text = decrypt E2 this text) /\
  (forall (E : oracle) (text : jsstring) (k : nat),
     len (Buffer_from_hex tweak) = 7 \/ len (Buffer_from_hex tweak) = 8 ->
     answers E (aesCipher this) ->
     is_digit_string r text = true ->
     minLen this <= strlen text <= maxLen this ->
     (k < 8)%nat ->
     (exists A B C P,
        fst (encrypt_loop E this text (firstn k round_indices))
        = OK (A, B) /\
        fst (encrypt_loop E this text (firstn (S k) round_indices))
        = OK (B, C) /\
        calculateP (Z.of_nat k) r (round_tweak this (Z.of_nat k)) B
        = OK P /\
        nth_error (snd (encrypt E this text)) k = Some (rev P) /\
        radix_value r (rev C)
        = (radix_value r (rev A)
           + be_value (rev (E (aesCipher this) (rev P))))
          mod r ^ half_length (ceil_half (strlen text))
                    (strlen text - ceil_half (strlen text)) k) /\
     (exists A B C P,
        fst (decrypt_loop E this text (firstn k (rev round_indices)))
        = OK (A, B) /\
        fst (decrypt_loop E this text (firstn (S k) (rev round_indices)))
        = OK (C, A) /\
        calculateP (7 - Z.of_nat k) r (round_tweak this (7 - Z.of_nat k)) A
        = OK P /\
        nth_error (snd (decrypt E this text)) k = Some (rev P) /\
        radix_value r (rev C)
        = (radix_value r (rev B)
           - be_value (rev (E (aesCipher this) (rev P))))
          mod r ^ half_length (ceil_half (strlen text))
                    (strlen text - ceil_half (strlen text)) (7 - k))) /\
  (forall (E : oracle) (text A B : jsstring),
     (fst (encrypt_loop E this text (firstn 8 round_indices)) = OK (A, B) ->
      fst (encrypt E this text) = OK (A ++ B)) /\
     (fst (decrypt_loop E this text (firstn 8 (rev round_indices)))
      = OK (A, B) ->
      fst (decrypt E this text) = OK (A ++ B))).
Proof.
  intros Hnew. split; [ | split; [ | split ] ].
  - destruct (new_inv key tweak r this Hnew) as [_ [_ [_ [_ [_ [Hkey _]]]]]].
    exists (cipher_algorithm (aesCipher this)).
    destruct (aesCipher this) as [algo k]. cbn in *. rewrite Hkey.
    reflexivity.
  - intros E1 E2 HE text.
    unfold encrypt, decrypt, encrypt_loop, decrypt_loop. split.
    + rewrite (rounds_ext _ _ _ (encrypt_round_ext E1 E2 this _ _ _ _ _ _ HE)).
      reflexivity.
    + rewrite (rounds_ext _ _ _ (decrypt_round_ext E1 E2 this _ _ _ _ _ _ HE)).
      reflexivity.
  - intros E text k Htweak HE Htext Hn Hk. split.
    + destruct (encrypt_round_reached E key tweak r this text k
                  Hnew Htweak HE Htext Hn Hk)
        as [A [B [C [bs [H1 [H2 [_ [_ [_ [HP [Hnth Hval]]]]]]]]]]].
      exists A, B, C, (round_block (Z.of_nat k)
                         (round_tweak this (Z.of_nat k)) bs).
      repeat (split; [ assumption | ]). exact Hval.
    + destruct (decrypt_round_reached E key tweak r this text k
                  Hnew Htweak HE Htext Hn Hk)
        as [A [B [C [bs [H1 [H2 [_ [_ [_ [HP [Hnth Hval]]]]]]]]]]].
      exists A, B, C, (round_block (7 - Z.of_nat k)
                         (round_tweak this (7 - Z.of_nat k)) bs).
      repeat (split; [ assumption | ]). exact Hval.
  - intros E text A B. split.
    + apply encrypt_of_loop.
    + apply decrypt_of_loop.
Qed.

Lemma C10_witness :
  (exists algo,
     aesCipher sample_cipher
     = createCipheriv algo (rev (Buffer_from_hex sample_key))) /\
  (exists A B C P,
     fst (encrypt_loop AES_ECB sample_cipher (str "890121234567890000")
            (firstn 7 round_indices)) = OK (A, B) /\
     fst (encrypt_loop AES_ECB sample_cipher (str "890121234567890000")
            (firstn 8 round_indices)) = OK (B, C) /\
     calculateP (Z.of_nat 7) 10 (round_tweak sample_cipher (Z.of_nat 7)) B
     = OK P /\
     nth_error (snd (encrypt AES_ECB sample_cipher
                       (str "890121234567890000"))) 7 = Some (rev P) /\
     radix_value 10 (rev C)
     = (radix_value 10 (rev A)
        + be_value (rev (AES_ECB (aesCipher sample_cipher) (rev P))))
       mod 10 ^ half_length (ceil_half (strlen (str "890121234567890000")))
                  (strlen (str "890121234567890000")
                   - ceil_half (strlen (str "890121234567890000"))) 7).
Proof.
  destruct (C10_reversed_key_oracle sample_key sample_tweak 10 sample_cipher)
    as [Hkey [_ [Hused _]]]; [ vm_compute; reflexivity | ].
  split; [ exact Hkey | ].
  destruct (Hused AES_ECB (str "890121234567890000") 7%nat) as [Henc _].
  - right. vm_compute. reflexivity.
  - exact AES_sample_answers.
  - vm_compute. reflexivity.
  - vm_compute. split; discriminate.
  - lia.
  - exact Henc.
Defined.
